(** * Markov-chain music composer: quantizer, trainer, generator,
      range normaliser, meter schedule and measure layout.

    A shallow embedding of the core functions of
    [2025-10-29-markov-chain-midi-gui_2.py] and
    [2025-10-29-markov-chain-midi-gui-streamlit.py].  Both files carry the
    same definitions of the functions modelled here; line references are
    to the first file unless stated otherwise.

    Python floats are modelled by the rationals they denote ([Q]); every
    constant the program uses (0.125, 0.25, 0.5, 0.15, 4.0, ...) is a
    rational.  Rounding to infinity is modelled where the program reacts
    to it ([float_overflows]); rounding within the finite range is not, so
    statements that depend on exact sums are made for values on which
    float arithmetic is exact: the grids the program offers, which are
    powers of two, and durations that are whole numbers of thirty-second
    notes. *)

From Stdlib Require Import ZArith QArith Qround Qcanon List String Ascii Bool Lia Lqa.
From Stdlib Require Import Qabs DecimalString.
Import ListNotations.

Local Open Scope Z_scope.
Local Open Scope Q_scope.

(** ** Rational helpers *)

Definition Qltb (x y : Q) : bool := negb (Qle_bool y x).

(** The least magnitude a float operation rounds to infinity: half an
    ulp above the largest double, 2^1024 - 2^970. *)
Definition FLOAT_OVERFLOW : Q := inject_Z (2 ^ 1024 - 2 ^ 970).

Definition float_overflows (x : Q) : bool := Qle_bool FLOAT_OVERFLOW (Qabs x).

(** Up to this magnitude every whole number of eighths is a double, so
    sums and differences of such values are computed exactly. *)
Definition FLOAT_EXACT : Q := inject_Z (2 ^ 40).

(** A running float sum of positive terms whose exact total is at most
    this stays finite: the rounding of the partial sums is far too small
    to reach [FLOAT_OVERFLOW]. *)
Definition FLOAT_SAFE : Q := inject_Z (2 ^ 1000).

(** Equality of optional rationals, up to [Qeq]. *)
Definition oQeq (a b : option Q) : Prop :=
  match a, b with
  | Some x, Some y => x == y
  | None, None => True
  | _, _ => False
  end.

(** ** Quantizer *)

Module Quantizer.

(** Python's built-in [round] on one argument: nearest integer, ties to
    the even neighbour. *)
Definition py_round (x : Q) : Z :=
  let f := Qfloor x in
  match Qcompare (x - inject_Z f) (1 # 2) with
  | Lt => f
  | Gt => (f + 1)%Z
  | Eq => if Z.even f then f else (f + 1)%Z
  end.

(** [quantize_duration] (lines 396-408).  [None] is the [ZeroDivisionError]
    that [duration / quantization] raises for a zero grid, or the
    [OverflowError] that [round] raises when the quotient is infinite. *)
Definition quantize_duration (duration quantization : Q) : option Q :=
  if Qeq_bool quantization 0 then None
  else if float_overflows (duration / quantization) then None
  else
    let quantized := inject_Z (py_round (duration / quantization)) * quantization in
    let quantized := if Qltb quantized (1 # 8) then 1 # 4 else quantized in
    let quantized := if Qltb 4 quantized then 4 else quantized in
    Some quantized.

(** The grids both front ends offer ([quantization_options], line 782;
    [QUANTIZATION_OPTIONS] in the streamlit file). *)
Definition QUANTIZATION_OPTIONS : list (string * Q) :=
  [ ("Semínima"%string, 1); ("Mínima"%string, 2);
    ("Colcheia"%string, 1 # 2); ("Semicolcheia"%string, 1 # 4) ].

(** The two clamps of [quantize_duration], as a function of the rounded
    multiple (used to state the unfolding lemma). *)
Definition clamp (q0 : Q) : Q :=
  let q1 := if Qltb q0 (1 # 8) then 1 # 4 else q0 in
  if Qltb 4 q1 then 4 else q1.

Definition offered_grid (g : Q) : Prop :=
  exists name g', In (name, g') QUANTIZATION_OPTIONS /\ g == g'.

End Quantizer.

(** ** Python dictionaries

    A [dict] keeps its entries in insertion order, and the generator draws
    from [list(matrix.keys())] by position, so a dictionary is an
    association list with unique keys: assigning to a present key replaces
    the value in place, assigning to an absent key appends an entry. *)

Class EqDec (K : Type) := eq_dec : forall x y : K, {x = y} + {x <> y}.

#[export] Instance string_EqDec : EqDec string := string_dec.
#[export] Instance Z_EqDec : EqDec Z := Z.eq_dec.
#[export] Instance Qc_EqDec : EqDec Qc := Qc_eq_dec.
#[export] Instance list_EqDec {K} `{EqDec K} : EqDec (list K) := list_eq_dec eq_dec.

Module Dict.
Section Dict.
Context {K V : Type} `{EqDec K}.

Fixpoint get (k : K) (d : list (K * V)) : option V :=
  match d with
  | [] => None
  | (k', v) :: rest => if eq_dec k k' then Some v else get k rest
  end.

Fixpoint set (k : K) (v : V) (d : list (K * V)) : list (K * V) :=
  match d with
  | [] => [(k, v)]
  | (k', v') :: rest =>
      if eq_dec k k' then (k', v) :: rest else (k', v') :: set k v rest
  end.

Definition keys (d : list (K * V)) : list K := map fst d.
Definition values (d : list (K * V)) : list V := map snd d.

End Dict.
End Dict.

(** ** Range normaliser *)

Module Range.

(** A pitch as the notation library reads a name such as ["Bb3"]: a step
    letter, an alteration in semitones and an octave.  [ps] is the
    library's pitch space number (C4 = 60), which an octave changes by
    12; [midi] is the library's MIDI number, the height the loops of
    [adjust_pitch_to_range] compare. *)
Inductive Step := Cn | Dn | En | Fn | Gn | An | Bn.

Record Pitch := mkPitch { step : Step; alter : Z; octave : Z }.

Definition step_pc (s : Step) : Z :=
  match s with
  | Cn => 0 | Dn => 2 | En => 4 | Fn => 5 | Gn => 7 | An => 9 | Bn => 11
  end%Z.

Definition ps (p : Pitch) : Z :=
  (12 * (octave p + 1) + step_pc (step p) + alter p)%Z.

(** [Pitch.midi]: the pitch space number folded into 0..127.  Above 127
    the pitch class is kept in the highest octave that fits, below 0 in
    the lowest. *)
Definition midi (p : Pitch) : Z :=
  let roundedPS := ps p in
  if (127 <? roundedPS)%Z then
    let value := (12 * 9 + roundedPS mod 12)%Z in
    if (value <? 127 - 12)%Z then (value + 12)%Z else value
  else if (roundedPS <? 0)%Z then (0 + roundedPS mod 12)%Z
  else roundedPS.

(** A note's pitch field: the rest symbol ['R'] or a pitch name. *)
Inductive NotePitch := R | Named (p : Pitch).

Definition natural (s : Step) (o : Z) : Pitch := mkPitch s 0 o.
Definition flat (s : Step) (o : Z) : Pitch := mkPitch s (-1) o.

Definition violin_I_range : Pitch * Pitch := (natural Gn 3, natural An 7).

(** [INSTRUMENT_RANGES] (lines 16-31). *)
Definition INSTRUMENT_RANGES : list (string * (Pitch * Pitch)) :=
  [ ("Flute", (natural Cn 4, natural Cn 7));
    ("Oboe", (flat Bn 3, natural An 6));
    ("Clarinet", (natural Dn 3, flat Bn 6));
    ("Bassoon", (flat Bn 1, flat En 5));
    ("Horn", (natural Fn 2, natural Bn 5));
    ("Trumpet", (flat Gn 3, flat Gn 6));
    ("Trombone", (natural En 2, flat Bn 5));
    ("Tuba", (natural Dn 1, natural Fn 4));
    ("Violin I", violin_I_range);
    ("Violin II", (natural Gn 3, natural An 7));
    ("Viola", (natural Cn 3, natural En 6));
    ("Violoncello", (natural Cn 2, natural Cn 6));
    ("Double Bass", (natural En 1, natural Gn 4));
    ("Piano", (natural An 0, natural Cn 8)) ]%string.

(** [s.split(sep)[0]]: the part of [s] before the first occurrence of
    [sep], all of [s] when there is none. *)
Fixpoint before_sep (sep s : string) : string :=
  if String.prefix sep s then EmptyString
  else match s with
       | EmptyString => EmptyString
       | String c s' => String c (before_sep sep s')
       end.

(** Lines 518-526: the doubling suffix is removed, and an unknown base
    name falls back to the range of Violin I. *)
Definition instrument_range (instrument : string) : Pitch * Pitch :=
  let base_instrument := before_sep " #" instrument in
  match Dict.get base_instrument INSTRUMENT_RANGES with
  | Some r => r
  | None => violin_I_range
  end.

(** [p.octave += d]. *)
Definition octave_shift (p : Pitch) (d : Z) : Pitch :=
  mkPitch (step p) (alter p) (octave p + d).

(** [while p.midi < min_p.midi: p.octave += 1] (lines 532-533); [None]
    when the fuel runs out before the loop condition fails. *)
Fixpoint raise_while_below (fuel : nat) (min_midi : Z) (p : Pitch) : option Pitch :=
  if (midi p <? min_midi)%Z then
    match fuel with
    | O => None
    | S fuel' => raise_while_below fuel' min_midi (octave_shift p 1)
    end
  else Some p.

(** [while p.midi > max_p.midi: p.octave -= 1] (lines 534-535). *)
Fixpoint lower_while_above (fuel : nat) (max_midi : Z) (p : Pitch) : option Pitch :=
  if (max_midi <? midi p)%Z then
    match fuel with
    | O => None
    | S fuel' => lower_while_above fuel' max_midi (octave_shift p (-1))
    end
  else Some p.

(** Lines 528-537, for a range already looked up. *)
Definition fold_into_range (fuel : nat) (min_p max_p p : Pitch) : option Pitch :=
  match raise_while_below fuel (midi min_p) p with
  | None => None
  | Some p1 => lower_while_above fuel (midi max_p) p1
  end.

(** [adjust_pitch_to_range] (lines 513-537). *)
Definition adjust_pitch_to_range (fuel : nat) (note_pitch : NotePitch)
    (instrument : string) : option NotePitch :=
  match note_pitch with
  | R => Some R
  | Named p =>
      let '(min_p, max_p) := instrument_range instrument in
      match fold_into_range fuel min_p max_p p with
      | None => None
      | Some p' => Some (Named p')
      end
  end.

(** Number of iterations each loop makes when the bound lies where the
    ranges of the table do (12 to 114): the octaves between the pitch and
    the bound, rounded up. *)
Definition octaves_up (min_midi : Z) (p : Pitch) : nat :=
  Z.to_nat ((min_midi - ps p + 11) / 12).

Definition octaves_down (max_midi : Z) (p : Pitch) : nat :=
  Z.to_nat ((ps p - max_midi + 11) / 12).

End Range.


(** ** The pseudo-random source

    Python's [random] module is modelled by an explicit supply of raw
    words and a cursor into it; each draw reads one word.  Code that draws
    is written in a state-and-error monad over the source. *)

Module Random.

Record Source := mkSource { word : nat -> Z; cursor : nat }.

Definition M (A : Type) : Type := Source -> option (A * Source).

Definition ret {A} (a : A) : M A := fun s => Some (a, s).

Definition raise {A} : M A := fun _ => None.

Definition bind {A B} (c : M A) (k : A -> M B) : M B :=
  fun s => match c s with
           | Some (a, s') => k a s'
           | None => None
           end.

Definition next_word : M Z :=
  fun s => Some (word s (cursor s), mkSource (word s) (S (cursor s))).

(** [random.random()]: a 53-bit fraction in [0, 1). *)
Definition random : M Q :=
  bind next_word (fun w => ret ((w mod 2 ^ 53)%Z # 2 ^ 53)).

(** [random.choice(seq)]: an element at an index below [len(seq)];
    [IndexError] on an empty sequence. *)
Definition choice {A} (seq : list A) : M A :=
  match seq with
  | [] => raise
  | _ :: _ =>
      bind next_word (fun w =>
        match nth_error seq (Z.to_nat (w mod Z.of_nat (List.length seq))) with
        | Some x => ret x
        | None => raise
        end)
  end.

(** [itertools.accumulate(weights)]: the running sums. *)
Fixpoint accumulate_from (acc : Q) (l : list Q) : list Q :=
  match l with
  | [] => []
  | w :: rest => (acc + w) :: accumulate_from (acc + w) rest
  end.

Definition accumulate (l : list Q) : list Q :=
  match l with
  | [] => []
  | w :: rest => w :: accumulate_from w rest
  end.

(** [bisect.bisect_right(a, x, lo, hi)]: the binary search, which makes
    at most [hi - lo] iterations. *)
Fixpoint bisect_loop (fuel : nat) (a : list Q) (x : Q) (lo hi : nat) : nat :=
  match fuel with
  | O => lo
  | S fuel' =>
      if (lo <? hi)%nat then
        let mid := ((lo + hi) / 2)%nat in
        if Qltb x (nth mid a 0) then bisect_loop fuel' a x lo mid
        else bisect_loop fuel' a x (mid + 1) hi
      else lo
  end.

Definition bisect (a : list Q) (x : Q) (lo hi : nat) : nat :=
  bisect_loop (hi - lo) a x lo hi.

(** [random.choices(population, weights=weights)[0]]: raises when the
    lengths differ, when the population is empty, when the total weight
    is not positive and when it is not finite; otherwise draws
    [random() * total] and bisects the cumulative weights. *)
Definition choices1 {A} (population : list A) (weights : list Q) : M A :=
  if negb (List.length population =? List.length weights)%nat then raise
  else
    let cum_weights := accumulate weights in
    match cum_weights with
    | [] => raise
    | _ :: _ =>
        let total := last cum_weights 0 in
        if Qle_bool total 0 then raise
        else if float_overflows total then raise
        else
          bind random (fun u =>
            match nth_error population
                    (bisect cum_weights (u * total) 0 (List.length population - 1)) with
            | Some x => ret x
            | None => raise
            end)
    end.

End Random.

Notation "x <- c ;; k" := (Random.bind c (fun x => k))
  (at level 61, c at next level, right associativity).

(** ** Markov trainer and generator *)

Module Markov.
Import Range.

(** A training or generated note: the tuple
    [(pitch, duration, dynamic, articulation, velocity)].  Durations are
    dictionary keys, compared by value, hence canonical rationals. *)
Record Note := mkNote {
  pitch : NotePitch;
  duration : Qc;
  dynamic : string;
  articulation : string;
  velocity : Z
}.

#[export] Instance Step_EqDec : EqDec Step.
Proof. intros x y. unfold EqDec. decide equality. Defined.

#[export] Instance Pitch_EqDec : EqDec Pitch.
Proof. intros x y. decide equality; apply Z.eq_dec || apply Step_EqDec. Defined.

#[export] Instance NotePitch_EqDec : EqDec NotePitch.
Proof. intros x y. decide equality. apply Pitch_EqDec. Defined.

#[export] Instance Note_EqDec : EqDec Note.
Proof.
  intros x y. decide equality;
    first [apply Z.eq_dec | apply string_dec | apply Qc_eq_dec | apply NotePitch_EqDec].
Defined.

(** Python's [sum]: a left fold starting from 0. *)
Definition Qsum (l : list Q) : Q := fold_left Qplus l 0.

(** [for i in range(n): body], where the body may raise. *)
Definition for_range {A} (n : nat) (body : nat -> A -> option A) (init : A) : option A :=
  fold_left (fun acc i => match acc with Some a => body i a | None => None end)
            (seq 0 n) (Some init).

Section Matrix.
Context {K S : Type} `{EqDec K} `{EqDec S}.

(** A transition table: prior state to (next symbol to weight). *)
Definition matrix := list (K * list (S * Q)).

(** One counted transition (lines 198-202, and 164-166 for the joint
    table): the row of [cur] is created empty when absent, the entry of
    [next] is created as 0 when absent, and the entry is incremented.  New
    rows and new entries go to the end of their dictionary. *)
Definition count_transition (m : matrix) (cur : K) (next : S) : matrix :=
  let row := match Dict.get cur m with Some r => r | None => [] end in
  let c := match Dict.get next row with Some c => c | None => 0 end in
  Dict.set cur (Dict.set next (c + 1) row) m.

(** [for k in d: d[k] /= total] with [total = sum(d.values())] taken
    first; [None] is the [ZeroDivisionError] of dividing by a zero
    total. *)
Definition divide_by_total {X} (d : list (X * Q)) : option (list (X * Q)) :=
  let total := Qsum (Dict.values d) in
  match d with
  | [] => Some []
  | _ :: _ =>
      if Qeq_bool total 0 then None
      else Some (map (fun kc => (fst kc, snd kc / total)) d)
  end.

(** [_normalize_matrix] (lines 223-227). *)
Fixpoint _normalize_matrix (m : matrix) : option matrix :=
  match m with
  | [] => Some []
  | (state, row) :: rest =>
      match divide_by_total row with
      | None => None
      | Some row' =>
          match _normalize_matrix rest with
          | None => None
          | Some rest' => Some ((state, row') :: rest')
          end
      end
  end.

End Matrix.

Record Model := mkModel {
  states : list Note;
  order : nat;
  initial_probabilities : list (list Note * Q);
  transition_matrix : list (list Note * list (Note * Q));
  pitch_matrix : list (NotePitch * list (NotePitch * Q));
  duration_matrix : list (Qc * list (Qc * Q));
  velocity_matrix : list (Z * list (Z * Q))
}.

(** [__init__] (lines 35-45). *)
Definition __init__ (states : list Note) (order : nat) : option Model :=
  match states with
  | [] => None
  | _ :: _ => Some (mkModel states order [] [] [] [] [])
  end.

(** [notes[i:i+order]]. *)
Definition window (notes : list Note) (i order : nat) : list Note :=
  firstn order (skipn i notes).

(** [range(k)] for an integer [k] that may be negative. *)
Definition range_len (k : Z) : nat := Z.to_nat k.

(** Counting loop of [_calculate_initial_probabilities] (lines 153-155). *)
Definition count_initial (ip : list (list Note * Q)) (order : nat) (notes : list Note)
  : list (list Note * Q) :=
  fold_left
    (fun ip i =>
       let state := window notes i order in
       Dict.set state (match Dict.get state ip with Some c => c | None => 0 end + 1) ip)
    (seq 0 (range_len (Z.of_nat (List.length notes) - Z.of_nat order + 1)))
    ip.

(** Counting loop of [_calculate_transition_matrix] (lines 161-166). *)
Definition count_joint (tm : list (list Note * list (Note * Q))) (order : nat)
    (notes : list Note) : option (list (list Note * list (Note * Q))) :=
  for_range (range_len (Z.of_nat (List.length notes) - Z.of_nat order))
    (fun i tm =>
       match nth_error notes (i + order) with
       | Some next_state => Some (count_transition tm (window notes i order) next_state)
       | None => None
       end)
    tm.

(** Counting loop of [_calculate_separate_matrices] (lines 193-216). *)
Definition count_separate
    (ms : list (NotePitch * list (NotePitch * Q))
          * list (Qc * list (Qc * Q))
          * list (Z * list (Z * Q)))
    (notes : list Note) :=
  for_range (range_len (Z.of_nat (List.length notes) - 1))
    (fun i ms =>
       let '(pm, dm, vm) := ms in
       match nth_error notes i, nth_error notes (i + 1) with
       | Some current_state, Some next_state =>
           Some (count_transition pm (pitch current_state) (pitch next_state),
                 count_transition dm (duration current_state) (duration next_state),
                 count_transition vm (velocity current_state) (velocity next_state))
       | _, _ => None
       end)
    ms.

Definition obind {A B} (o : option A) (k : A -> option B) : option B :=
  match o with Some a => k a | None => None end.

(** [train] (lines 127-132) with the three methods it calls, each a
    counting loop followed by a normalisation. *)
Definition train (self : Model) (notes : list Note) : option Model :=
  match notes with
  | [] => None
  | _ :: _ =>
      obind (divide_by_total (count_initial (initial_probabilities self) (order self) notes))
        (fun ip =>
      obind (count_joint (transition_matrix self) (order self) notes) (fun tc =>
      obind (_normalize_matrix tc) (fun tm =>
      obind (count_separate (pitch_matrix self, duration_matrix self, velocity_matrix self) notes)
        (fun ms => let '(pc, dc, vc) := ms in
      obind (_normalize_matrix pc) (fun pm =>
      obind (_normalize_matrix dc) (fun dm =>
      obind (_normalize_matrix vc) (fun vm =>
      Some (mkModel (states self) (order self) ip tm pm dm vm))))))))
  end.

(** Invariant of the counting loops: every row exists only because a
    transition was counted into it, so it is non-empty and each of its
    counts is at least one. *)
Definition counted {K S} (m : list (K * list (S * Q))) : Prop :=
  Forall (fun row => row <> [] /\ Forall (fun c => 1 <= c) (Dict.values row))
         (Dict.values m).

(** Every row has a positive total. *)
Definition rows_positive {K S} (m : list (K * list (S * Q))) : Prop :=
  Forall (fun row => 0 < Qsum (Dict.values row)) (Dict.values m).

(** Every row's weights sum to 1. *)
Definition rows_stochastic {K S} (m : list (K * list (S * Q))) : Prop :=
  Forall (fun row => Qsum (Dict.values row) == 1) (Dict.values m).

(** Every row is non-empty and carries positive weights only, whose
    total stays well inside the float range. *)
Definition rows_ok {K S} (m : list (K * list (S * Q))) : Prop :=
  Forall (fun row => row <> [] /\ Forall (fun w => 0 < w) (Dict.values row) /\
                     Qsum (Dict.values row) <= FLOAT_SAFE)
         (Dict.values m).

(** The symbols a walk over [m] can meet: its keys, and the successors
    listed in its rows. *)
Definition reachable_symbol {K} (m : list (K * list (K * Q))) (x : K) : Prop :=
  In x (Dict.keys m) \/ exists row, In row (Dict.values m) /\ In x (Dict.keys row).

Section Generator.
Context {K : Type} `{EqDec K}.

(** The loop of [_generate_sequence] (lines 89-96). *)
Fixpoint generate_loop (n : nat) (m : list (K * list (K * Q)))
    (current_state : K) (sequence : list K) : Random.M (list K) :=
  match n with
  | O => Random.ret sequence
  | S n' =>
      next <- (match Dict.get current_state m with
               | Some row => Random.choices1 (Dict.keys row) (Dict.values row)
               | None => Random.choice (Dict.keys m)
               end) ;;
      generate_loop n' m next (sequence ++ [next])
  end.

(** [_generate_sequence] (lines 80-98). *)
Definition _generate_sequence (length : Z) (m : list (K * list (K * Q)))
  : Random.M (list K) :=
  match m with
  | [] => Random.raise
  | _ :: _ =>
      current_state <- Random.choice (Dict.keys m) ;;
      generate_loop (range_len (length - 1)) m current_state [current_state]
  end.

End Generator.

(** A small corpus and alphabet used to exercise the trainer. *)
Definition sample_corpus : list Note :=
  [ mkNote (Named (natural Cn 5)) (Q2Qc 1) "mf" "normal" 64;
    mkNote (Named (natural Gn 5)) (Q2Qc 1) "mf" "normal" 64;
    mkNote R (Q2Qc 2) "mf" "normal" 64;
    mkNote (Named (natural Cn 5)) (Q2Qc (1 # 2)) "f" "normal" 80 ]%string.

(** The table learnt from the two-symbol corpus A, B: one row, A to B. *)
Definition matrix_A_B : list (string * list (string * Q)) :=
  [ ("A", [ ("B", 1) ]) ]%string.

Definition zero_source : Random.Source := Random.mkSource (fun _ => 0%Z) 0.

End Markov.


(** ** Meters and the meter schedule *)

Module Meter.

(** A time signature such as ['6/8']. *)
Record TimeSig := mkTimeSig { numerator : positive; denominator : positive }.

#[export] Instance TimeSig_EqDec : EqDec TimeSig.
Proof. intros x y. decide equality; apply Pos.eq_dec. Defined.

Definition ts_4_4 := mkTimeSig 4 4.
Definition ts_3_4 := mkTimeSig 3 4.
Definition ts_2_4 := mkTimeSig 2 4.
Definition ts_3_8 := mkTimeSig 3 8.
Definition ts_6_8 := mkTimeSig 6 8.
Definition ts_12_8 := mkTimeSig 12 8.

(** [get_time_signature_value] (lines 479-498): the measure length in
    quarter notes. *)
Definition get_time_signature_value (time_sig : TimeSig) : Q :=
  let beat_value := 4 / inject_Z (Zpos (denominator time_sig)) in
  inject_Z (Zpos (numerator time_sig)) * beat_value.

Definition available_time_sigs : list TimeSig :=
  [ts_4_4; ts_3_4; ts_2_4; ts_3_8; ts_6_8; ts_12_8].

(** [[sig for sig in available_time_sigs if sig != current_time_sig]]. *)
Definition other_sigs (current_time_sig : TimeSig) : list TimeSig :=
  filter (fun sig => if eq_dec sig current_time_sig then false else true)
         available_time_sigs.

(** The loop of [generate_time_signature_sequence] (lines 466-475) over
    the measure numbers still to visit.  The draw of [random.random()] is
    made only when [measure_num > 1], as [and] short-circuits. *)
Fixpoint schedule_loop (measures : list Z) (time_sig_sequence : list (Z * TimeSig))
    (current_time_sig : TimeSig) : Random.M (list (Z * TimeSig)) :=
  match measures with
  | [] => Random.ret time_sig_sequence
  | measure_num :: rest =>
      change <- (if (1 <? measure_num)%Z
                 then u <- Random.random ;; Random.ret (Qltb u (15 # 100))
                 else Random.ret false) ;;
      if change then
        new_sig <- Random.choice (other_sigs current_time_sig) ;;
        schedule_loop rest (time_sig_sequence ++ [(measure_num, new_sig)]) new_sig
      else if (measure_num =? 1)%Z then
        schedule_loop rest (time_sig_sequence ++ [(1%Z, current_time_sig)]) current_time_sig
      else
        schedule_loop rest time_sig_sequence current_time_sig
  end.

(** [range(1, n + 1)]. *)
Definition range_from_1 (n : Z) : list Z := map Z.of_nat (seq 1 (Z.to_nat n)).

(** [generate_time_signature_sequence] (lines 445-477). *)
Definition generate_time_signature_sequence (base_time_sig : TimeSig)
    (num_measures : Z) (random_changes : bool) : Random.M (list (Z * TimeSig)) :=
  if negb random_changes then Random.ret [(1%Z, base_time_sig)]
  else schedule_loop (range_from_1 num_measures) [] base_time_sig.

(** Consecutive entries have strictly increasing measure numbers and
    different meters. *)
Fixpoint schedule_chain (l : list (Z * TimeSig)) : Prop :=
  match l with
  | x :: (y :: _) as rest =>
      (fst x < fst y)%Z /\ snd x <> snd y /\ schedule_chain rest
  | _ => True
  end.

End Meter.


(** ** Layout assembler *)

Module Layout.
Import Range Meter.

(** Fuel that lets both loops of [adjust_pitch_to_range] run to their
    end, and the function run with it. *)
Definition enough_fuel (p : Pitch) (instrument : string) : nat :=
  let r := instrument_range instrument in
  let ups := octaves_up (midi (fst r)) p in
  Nat.max ups (octaves_down (midi (snd r)) (octave_shift p (Z.of_nat ups))).

Definition adjust_pitch (note_pitch : NotePitch) (instrument : string) : NotePitch :=
  match note_pitch with
  | R => R
  | Named p =>
      match adjust_pitch_to_range (enough_fuel p instrument) note_pitch instrument with
      | Some q => q
      | None => note_pitch
      end
  end.

(** One generated note: [(pitch_name, duration, dyn, art, vel)]. *)
Record NoteData := mkNoteData {
  pitch_name : NotePitch;
  duration : Q;
  dyn : string;
  art : string;
  vel : Z
}.

Inductive TieKind := TieStart | TieStop.

(** What the loop appends to a measure.  A note or rest records the
    [quarterLength] it is constructed with; for an argument of 0 the
    notation library stores 1.0, one beat more than recorded here. *)
Inductive Element :=
| EDynamic (mark : string)
| ERest (quarterLength : Q)
| ENote (p : Pitch) (quarterLength : Q) (velocity : Z) (tie : option TieKind).

(** A [stream.Measure]: its number, the time signatures inserted at
    offset 0 and the appended elements. *)
Record Measure := mkMeasure {
  number : Z;
  time_signatures : list TimeSig;
  elements : list Element
}.

(** The loop variables of one voice (lines 656-664).  Each measure of the
    part is paired with the value [measure_length] had when the measure
    was appended: the capacity it was filled against. *)
Record State := mkState {
  part : list (Measure * Q);
  current_measure : Measure;
  current_ts : TimeSig;
  measure_length : Q;
  measure_duration : Q;
  current_dynamic : option string;
  measure_count : Z
}.

Definition initial_state (time_signature : TimeSig) : State :=
  mkState [] (mkMeasure 1 [time_signature] []) time_signature
          (get_time_signature_value time_signature) 0 None 1.

(** Lines 640-643: later entries for a measure number replace earlier
    ones. *)
Definition build_time_sig_changes (time_sig_sequence : list (Z * TimeSig))
  : list (Z * TimeSig) :=
  fold_left (fun d e => Dict.set (fst e) (snd e) d) time_sig_sequence [].

Definition append_elements (m : Measure) (es : list Element) : Measure :=
  mkMeasure (number m) (time_signatures m) (elements m ++ es).

(** [n.tie = tie.Tie('start')], where [n] is the element appended last. *)
Definition tie_last_start (m : Measure) : Measure :=
  match rev (elements m) with
  | ENote p ql v _ :: before =>
      mkMeasure (number m) (time_signatures m) (rev before ++ [ENote p ql v (Some TieStart)])
  | _ => m
  end.

(** Lines 672-677: the scheduled change for the current measure, taken
    only while nothing has been placed in it. *)
Definition apply_time_sig_change (time_sig_changes : list (Z * TimeSig)) (st : State)
  : State :=
  match Dict.get (measure_count st) time_sig_changes with
  | Some new_ts =>
      if Qeq_bool (measure_duration st) 0 then
        if eq_dec new_ts (current_ts st) then st
        else mkState (part st)
               (mkMeasure (number (current_measure st))
                          (time_signatures (current_measure st) ++ [new_ts])
                          (elements (current_measure st)))
               new_ts (get_time_signature_value new_ts)
               (measure_duration st) (current_dynamic st) (measure_count st)
      else st
  | None => st
  end.

(** The body of the loop over the melody (lines 667-729; lines 441-488
    of the streamlit file, which lacks only the articulation marks). *)
Definition place_note (instr_name : string) (time_sig_changes : list (Z * TimeSig))
    (st0 : State) (note_data : NoteData) : State :=
  let adjusted_pitch := adjust_pitch (pitch_name note_data) instr_name in
  let st := apply_time_sig_change time_sig_changes st0 in
  let remaining_space := measure_length st - measure_duration st in
  let adjusted_duration :=
    if Qltb remaining_space (duration note_data) && Qltb 0 remaining_space
    then remaining_space else duration note_data in
  let dyn_changed :=
    match current_dynamic st with
    | Some d => if string_dec (dyn note_data) d then false else true
    | None => true
    end in
  let '(appended, dynamic') :=
    match adjusted_pitch with
    | R => ([ERest adjusted_duration], current_dynamic st)
    | Named p =>
        ((if dyn_changed then [EDynamic (dyn note_data)] else [])
           ++ [ENote p adjusted_duration (vel note_data) None],
         if dyn_changed then Some (dyn note_data) else current_dynamic st)
    end in
  let measure := append_elements (current_measure st) appended in
  let measure_duration' := measure_duration st + adjusted_duration in
  if Qle_bool (measure_length st) measure_duration' then
    let carried := Qltb adjusted_duration (duration note_data) in
    let remaining_duration := duration note_data - adjusted_duration in
    let closed :=
      match adjusted_pitch with
      | Named _ => if carried then tie_last_start measure else measure
      | R => measure
      end in
    let part' := part st ++ [(closed, measure_length st)] in
    let fresh := mkMeasure (Z.of_nat (List.length part') + 1) [] [] in
    match adjusted_pitch with
    | Named p =>
        if carried then
          mkState part'
            (append_elements fresh
               [ENote p remaining_duration (vel note_data) (Some TieStop)])
            (current_ts st) (measure_length st) (0 + remaining_duration)
            dynamic' (measure_count st + 1)
        else
          mkState part' fresh (current_ts st) (measure_length st) 0
                  dynamic' (measure_count st + 1)
    | R =>
        mkState part' fresh (current_ts st) (measure_length st) 0
                dynamic' (measure_count st + 1)
    end
  else
    mkState (part st) measure (current_ts st) (measure_length st)
            measure_duration' dynamic' (measure_count st).

(** Lines 731-737: the last, partly filled measure is padded with a rest
    and appended. *)
Definition finish_part (st : State) : list (Measure * Q) :=
  if Qltb 0 (measure_duration st) then
    let measure :=
      if Qltb (measure_duration st) (measure_length st)
      then append_elements (current_measure st)
             [ERest (measure_length st - measure_duration st)]
      else current_measure st in
    part st ++ [(measure, measure_length st)]
  else part st.

(** The state after the loop over a melody. *)
Definition run_melody (instr_name : string) (time_signature : TimeSig)
    (time_sig_sequence : list (Z * TimeSig)) (melody : list NoteData) : State :=
  fold_left (place_note instr_name (build_time_sig_changes time_sig_sequence))
            melody (initial_state time_signature).

(** One voice of [create_score] / [visualize_multi_voice_melody], before
    the notation library's own post-processing of the part. *)
Definition assemble_part (instr_name : string) (time_signature : TimeSig)
    (time_sig_sequence : list (Z * TimeSig)) (melody : list NoteData)
  : list (Measure * Q) :=
  finish_part (run_melody instr_name time_signature time_sig_sequence melody).

Definition create_score (melodies : list (list NoteData)) (instruments : list string)
    (time_signature : TimeSig) (time_sig_sequence : list (Z * TimeSig))
  : list (list (Measure * Q)) :=
  map (fun mi => assemble_part (snd mi) time_signature time_sig_sequence (fst mi))
      (combine melodies instruments).

(** Beats held by the notes and rests of a measure. *)
Definition element_beats (e : Element) : Q :=
  match e with
  | EDynamic _ => 0
  | ERest ql => ql
  | ENote _ ql _ _ => ql
  end.

Definition measure_beats (m : Measure) : Q :=
  fold_left Qplus (map element_beats (elements m)) 0.

Definition part_beats (p : list (Measure * Q)) : Q :=
  fold_left Qplus (map (fun mc => measure_beats (fst mc)) p) 0.

Definition melody_beats (melody : list NoteData) : Q :=
  fold_left Qplus (map duration melody) 0.

Definition c5 (ql : Q) : NoteData :=
  mkNoteData (Named (natural Cn 5)) ql "mf" "normal" 64.

Definition rest (ql : Q) : NoteData := mkNoteData R ql "mf" "normal" 64.

(** Side condition under which the carried remainder always fits: every
    duration is positive and no longer than [bound], and every meter in
    play holds at least [bound] beats. *)
Definition short_notes (bound : Q) (melody : list NoteData) : Prop :=
  Forall (fun nd => 0 < duration nd <= bound) melody.

Definition roomy_meters (bound : Q) (time_signature : TimeSig)
    (time_sig_sequence : list (Z * TimeSig)) : Prop :=
  bound <= get_time_signature_value time_signature /\
  Forall (fun e => bound <= get_time_signature_value (snd e)) time_sig_sequence.

(** The state between two notes, when every carried remainder fits: the
    open measure is strictly below its capacity. *)
Definition below_capacity (bound : Q) (st : State) : Prop :=
  0 <= measure_duration st /\ measure_duration st < measure_length st /\
  bound <= measure_length st.

(** Beats placed so far: in the closed measures and in the open one. *)
Definition placed_beats (st : State) : Q :=
  part_beats (part st) + measure_beats (current_measure st).

Definition is_rest (note_pitch : NotePitch) : bool :=
  match note_pitch with R => true | Named _ => false end.

(** The numbers of the measures of a part, in order. *)
Definition measure_numbers (p : list (Measure * Q)) : list Z :=
  map (fun mc => number (fst mc)) p.

(** A part read in order as a row of tokens: the elements of each
    measure, and [None] for the bar line that ends it. *)
Definition measure_tokens (m : Measure) : list (option Element) :=
  map Some (elements m) ++ [None].

Definition part_tokens (p : list (Measure * Q)) : list (option Element) :=
  flat_map (fun mc => measure_tokens (fst mc)) p.

(** The tokens so far: the part, then the open measure without its bar
    line. *)
Definition state_tokens (st : State) : list (option Element) :=
  part_tokens (part st) ++ map Some (elements (current_measure st)).

(** The dynamic marks among the tokens, in order. *)
Fixpoint token_marks (l : list (option Element)) : list string :=
  match l with
  | [] => []
  | Some (EDynamic mark) :: rest => mark :: token_marks rest
  | _ :: rest => token_marks rest
  end.

(** Ties come in pairs across a bar line: a tie-start note is followed at
    once by a bar line and a tie-stop note of the same pitch and
    velocity, the two lengths related by [D]; no tie mark occurs
    otherwise. *)
Fixpoint ties_paired (D : Q -> Q -> Prop) (l : list (option Element)) : Prop :=
  match l with
  | [] => True
  | Some (ENote p q v (Some TieStart)) :: rest =>
      match rest with
      | None :: Some (ENote p' q' v' (Some TieStop)) :: rest' =>
          p = p' /\ v = v' /\ D q q' /\ ties_paired D rest'
      | _ => False
      end
  | Some (ENote _ _ _ (Some TieStop)) :: _ => False
  | _ :: rest => ties_paired D rest
  end.

(** No two neighbours of a list are equal. *)
Fixpoint no_repeat (l : list string) : Prop :=
  match l with
  | x :: (y :: _) as rest => x <> y /\ no_repeat rest
  | _ => True
  end.

(** What holds of the loop state after any number of notes: the running
    duration is the beats of the open measure; every measure of the part
    is non-empty and holds at least its capacity; measures are numbered
    from 1 in order, the open one next, and [measure_count] agrees. *)
Definition assembling (st : State) : Prop :=
  measure_beats (current_measure st) == measure_duration st /\
  Forall (fun mc => elements (fst mc) <> [] /\ snd mc <= measure_beats (fst mc))
         (part st) /\
  measure_numbers (part st) = map Z.of_nat (seq 1 (List.length (part st))) /\
  number (current_measure st) = (Z.of_nat (List.length (part st)) + 1)%Z /\
  measure_count st = (Z.of_nat (List.length (part st)) + 1)%Z.

(** A schedule and melody used to exercise the assembler: 4/4 with a
    change to 2/4 at measure 3. *)
Definition sample_schedule : list (Z * TimeSig) := [(1%Z, ts_4_4); (3%Z, ts_2_4)].

Definition sample_melody : list NoteData :=
  [c5 1; rest 2; c5 2; c5 (1 # 2); rest 1; c5 2; c5 2].

(** The marks expected for a row of dynamics while [current] is in force:
    one mark wherever a dynamic differs from the one before it. *)
Fixpoint dynamic_changes (current : option string) (dyns : list string)
  : list string :=
  match dyns with
  | [] => []
  | d :: rest =>
      match current with
      | Some c =>
          if string_dec d c then dynamic_changes current rest
          else d :: dynamic_changes (Some d) rest
      | None => d :: dynamic_changes (Some d) rest
      end
  end.

(** The dynamics of the pitched notes of a melody, in order. *)
Definition pitched_dynamics (melody : list NoteData) : list string :=
  map dyn (filter (fun nd => negb (is_rest (pitch_name nd))) melody).

Definition positive_durations (melody : list NoteData) : Prop :=
  Forall (fun nd => 0 < duration nd) melody.

(** A duration on which the float arithmetic of the loop is exact: a
    positive whole number of thirty-second notes (0.125 of a quarter), of
    at most 2^40 beats. *)
Definition plain_duration (q : Q) : Prop :=
  exists k : Z, (0 < k)%Z /\ q == inject_Z k * (1 # 8) /\ q <= FLOAT_EXACT.

Definition plain_durations (melody : list NoteData) : Prop :=
  Forall (fun nd => plain_duration (duration nd)) melody.

(** The meters in play are among the six the program offers, whose
    lengths are whole numbers of eighth notes. *)
Definition offered_meters (time_signature : TimeSig)
    (time_sig_sequence : list (Z * TimeSig)) : Prop :=
  In time_signature available_time_sigs /\
  Forall (fun e => In (snd e) available_time_sigs) time_sig_sequence.

(** With positive durations the open measure holds an element only when
    its running duration is positive. *)
Definition open_measure_counted (st : State) : Prop :=
  0 <= measure_duration st /\
  (elements (current_measure st) = [] \/ 0 < measure_duration st).

(** A note token lies within the range looked up for the instrument. *)
Definition token_in_range (instr_name : string) (t : option Element) : Prop :=
  match t with
  | Some (ENote p _ _ _) =>
      (midi (fst (instrument_range instr_name)) <= midi p
       <= midi (snd (instrument_range instr_name)))%Z
  | _ => True
  end.

End Layout.


(** ** Dynamics *)

Module Dynamics.

(** [map_velocity_to_dynamic] (lines 238-271).  The velocity is [None] or
    an integer, on which [int] is the identity. *)
Definition map_velocity_to_dynamic (velocity : option Z) : string :=
  match velocity with
  | None => "mf"
  | Some velocity =>
      if (velocity <? 16)%Z then "ppp"
      else if (velocity <? 32)%Z then "pp"
      else if (velocity <? 48)%Z then "p"
      else if (velocity <? 64)%Z then "mp"
      else if (velocity <? 80)%Z then "mf"
      else if (velocity <? 96)%Z then "f"
      else if (velocity <? 112)%Z then "ff"
      else "fff"
  end%string.

(** The eight levels, softest first. *)
Definition DYNAMIC_LEVELS : list string :=
  ["ppp"; "pp"; "p"; "mp"; "mf"; "f"; "ff"; "fff"]%string.

End Dynamics.

(** ** Fitting a duration into the space left in a measure *)

Module MeasureFit.
Import Quantizer.

(** How a call ends: with a value, with an exception, or still looping
    when the fuel is spent. *)
Inductive outcome (A : Type) : Type :=
| Returned (a : A)
| Raised
| OutOfFuel.
Arguments Returned {A} a.
Arguments Raised {A}.
Arguments OutOfFuel {A}.

(** The loop of [quantize_to_measure] (lines 434-436):
    [while test_duration <= remaining_space].  The grid is added
    exactly, as floats do for the grids on offer and values up to
    [FLOAT_EXACT]. *)
Fixpoint collect_durations (fuel : nat) (test_duration remaining_space quantization : Q)
    (possible_durations : list Q) : option (list Q) :=
  if Qle_bool test_duration remaining_space then
    match fuel with
    | O => None
    | S fuel' =>
        collect_durations fuel' (test_duration + quantization) remaining_space
          quantization (possible_durations ++ [test_duration])
    end
  else Some possible_durations.

(** [quantize_to_measure] (lines 410-443). *)
Definition quantize_to_measure (fuel : nat) (duration remaining_space quantization : Q)
  : outcome Q :=
  match quantize_duration duration quantization with
  | None => Raised
  | Some quantized =>
      if Qle_bool quantized remaining_space then Returned quantized
      else
        match collect_durations fuel quantization remaining_space quantization [] with
        | None => OutOfFuel
        | Some possible_durations =>
            match rev possible_durations with
            | largest :: _ => Returned largest
            | [] => Returned remaining_space
            end
        end
  end.

(** Iterations the loop makes from [test_duration] on. *)
Definition iterations (test_duration remaining_space quantization : Q) : nat :=
  if Qle_bool test_duration remaining_space
  then Z.to_nat (Qfloor ((remaining_space - test_duration) / quantization) + 1)
  else O.

(** The values the loop collects in [n] iterations from [test_duration]. *)
Fixpoint grid_from (test_duration quantization : Q) (n : nat) : list Q :=
  match n with
  | O => []
  | S n' => test_duration :: grid_from (test_duration + quantization) quantization n'
  end.

End MeasureFit.


(** ** Melody generation *)

Module Generation.
Import Range Markov Dynamics.

(** The three axis sequences kept in [generated_sequences]. *)
Record Sequences := mkSequences {
  seq_pitch : list NotePitch;
  seq_duration : list Qc;
  seq_velocity : list Z
}.

(** Lines 58-68: [for i in range(length)], indexing the three sequences;
    [None] is the [IndexError] of an index past the end. *)
Definition combine_sequences (length : Z) (pitch_sequence : list NotePitch)
    (duration_sequence : list Qc) (velocity_sequence : list Z) : option (list Note) :=
  for_range (range_len length)
    (fun i melody =>
       match nth_error pitch_sequence i, nth_error duration_sequence i,
             nth_error velocity_sequence i with
       | Some p, Some d, Some v =>
           Some (melody ++ [mkNote p d (map_velocity_to_dynamic (Some v)) "normal" v])
       | _, _, _ => None
       end)
    [].

(** The loop of [generate_all_sequences] over the instruments (lines
    52-75). *)
Fixpoint generate_all_loop (self : Model) (instruments : list string) (length : Z)
    (melodies_dict : list (string * list Note))
    (sequences_data : list (string * Sequences))
  : Random.M (list (string * list Note) * list (string * Sequences)) :=
  match instruments with
  | [] => Random.ret (melodies_dict, sequences_data)
  | instrument :: rest =>
      pitch_sequence <- _generate_sequence length (pitch_matrix self) ;;
      duration_sequence <- _generate_sequence length (duration_matrix self) ;;
      velocity_sequence <- _generate_sequence length (velocity_matrix self) ;;
      match combine_sequences length pitch_sequence duration_sequence velocity_sequence with
      | None => Random.raise
      | Some melody =>
          generate_all_loop self rest length
            (Dict.set instrument melody melodies_dict)
            (Dict.set instrument
               (mkSequences pitch_sequence duration_sequence velocity_sequence)
               sequences_data)
      end
  end.

(** [generate_all_sequences] (lines 47-78): the melodies it returns,
    paired with the value it leaves in [self.generated_sequences]. *)
Definition generate_all_sequences (self : Model) (instruments : list string) (length : Z)
  : Random.M (list (string * list Note) * list (string * Sequences)) :=
  generate_all_loop self instruments length [] [].

(** [_generate_starting_state] (lines 173-175). *)
Definition _generate_starting_state (self : Model) : Random.M (list Note) :=
  Random.choices1 (Dict.keys (initial_probabilities self))
                  (Dict.values (initial_probabilities self)).

(** [_generate_next_state] (lines 177-190).  The branches that pad a
    four-element state with a velocity of 64 have no counterpart: a
    [Note] always carries its velocity. *)
Definition _generate_next_state (self : Model) (current_state : list Note)
  : Random.M Note :=
  match Dict.get current_state (transition_matrix self) with
  | Some row => Random.choices1 (Dict.keys row) (Dict.values row)
  | None => Random.choice (states self)
  end.

(** [melody[-order:]]: the last [order] notes, all of them when there
    are fewer, and all of them for an order of 0, as [-0] is 0. *)
Definition last_states (order : nat) (melody : list Note) : list Note :=
  match order with
  | O => melody
  | S _ => skipn (List.length melody - order) melody
  end.

(** The loop of [generate] (lines 143-149). *)
Fixpoint extend_melody (n : nat) (self : Model) (melody : list Note)
  : Random.M (list Note) :=
  match n with
  | O => Random.ret melody
  | S n' =>
      next_state <- _generate_next_state self (last_states (order self) melody) ;;
      extend_melody n' self (melody ++ [next_state])
  end.

(** [generate] (lines 134-150); [melody[0]] raises on an empty starting
    state. *)
Definition generate (self : Model) (length : Z) : Random.M (list Note) :=
  match states self with
  | [] => Random.raise
  | _ :: _ =>
      melody <- _generate_starting_state self ;;
      match melody with
      | [] => Random.raise
      | _ :: _ =>
          extend_melody (range_len (length - Z.of_nat (order self))) self melody
      end
  end.

(** Every key and every successor of a table satisfies [P]. *)
Definition symbols_in {K} (P : K -> Prop) (m : list (K * list (K * Q))) : Prop :=
  Forall P (Dict.keys m) /\
  Forall (fun row => Forall P (Dict.keys row)) (Dict.values m).

(** A model whose three axis tables can be sampled: none is empty, and
    every row is non-empty with positive weights of a finite total. *)
Definition axes_ready (self : Model) : Prop :=
  (pitch_matrix self <> [] /\ rows_ok (pitch_matrix self)) /\
  (duration_matrix self <> [] /\ rows_ok (duration_matrix self)) /\
  (velocity_matrix self <> [] /\ rows_ok (velocity_matrix self)).

(** A generated note as [generate_all_sequences] builds it. *)
Definition well_formed_note (n : Note) : Prop :=
  articulation n = "normal"%string /\
  dynamic n = map_velocity_to_dynamic (Some (velocity n)).

(** Every key of a table satisfies [P]; every successor in its rows
    satisfies [P]. *)
Definition keys_in {K S} (P : K -> Prop) (m : list (K * list (S * Q))) : Prop :=
  Forall P (Dict.keys m).

Definition successors_in {K S} (P : S -> Prop) (m : list (K * list (S * Q))) : Prop :=
  Forall (fun row => Forall P (Dict.keys row)) (Dict.values m).

(** The model [__init__] builds. *)
Definition fresh_model (states : list Note) (order : nat) : Model :=
  mkModel states order [] [] [] [] [].

(** [w] is [order] consecutive notes of the corpus. *)
Definition corpus_window (notes : list Note) (order : nat) (w : list Note) : Prop :=
  exists i, (i + order <= List.length notes)%nat /\ w = window notes i order.

(** A melody of [generate_all_sequences] for a request of [length] notes:
    that many notes (none for a negative request), each well formed and
    made of symbols the axis tables hold. *)
Definition generated_melody (self : Model) (length : Z) (melody : list Note) : Prop :=
  Z.of_nat (List.length melody) = Z.max 0 length /\
  Forall (fun n => well_formed_note n /\
                   reachable_symbol (pitch_matrix self) (pitch n) /\
                   reachable_symbol (duration_matrix self) (duration n) /\
                   reachable_symbol (velocity_matrix self) (velocity n))
         melody.

(** The tables learnt from a corpus of rests of one beat: one state per
    axis, leading to itself. *)
Definition rests_model : Model :=
  mkModel [mkNote R (Q2Qc 1) "mf" "normal" 64] 1
          [([mkNote R (Q2Qc 1) "mf" "normal" 64], 1)]
          [([mkNote R (Q2Qc 1) "mf" "normal" 64],
            [(mkNote R (Q2Qc 1) "mf" "normal" 64, 1)])]
          [(R, [(R, 1)])]
          [(Q2Qc 1, [(Q2Qc 1, 1)])]
          [(64%Z, [(64%Z, 1)])].

End Generation.


(** ** Generation workflow

    The pure steps of the front ends' generation routine
    ([_generate_music_thread], lines 1155-1300; the same steps in the
    streamlit file) around training, generation and assembly. *)

Module Workflow.
Import Range Meter.

(** One turn of the grouping loop (lines 1195-1199 and 1663-1670):
    [groups[base].append(instr)], after an empty list has been stored for
    a base name met for the first time.  [None] stands for the
    [KeyError] of the subscript. *)
Definition add_to_group (groups : list (string * list string)) (instr : string)
  : option (list (string * list string)) :=
  let base_type := before_sep " #" instr in
  let groups1 :=
    match Dict.get base_type groups with
    | None => Dict.set base_type [] groups
    | Some _ => groups
    end in
  match Dict.get base_type groups1 with
  | Some members => Some (Dict.set base_type (members ++ [instr]) groups1)
  | None => None
  end.

Fixpoint group_loop (instruments : list string) (groups : list (string * list string))
  : option (list (string * list string)) :=
  match instruments with
  | [] => Some groups
  | instr :: rest =>
      match add_to_group groups instr with
      | Some groups' => group_loop rest groups'
      | None => None
      end
  end.

(** [group_instruments_by_type] (lines 1659-1672), and the same loop over
    the keys of the training data (lines 1193-1199). *)
Definition group_instruments_by_type (selected_instruments : list string)
  : option (list (string * list string)) :=
  group_loop selected_instruments [].

(** The instruments of a list whose base name is [base_type], in order. *)
Definition of_base (base_type : string) (instruments : list string) : list string :=
  filter (fun instr => if string_dec (before_sep " #" instr) base_type
                       then true else false) instruments.

(** [int(x)] on a float: truncation towards zero. *)
Definition py_int (x : Q) : Z := if Qltb x 0 then Qceiling x else Qfloor x.

(** Lines 1248-1251: the number of measures the meter schedule is
    generated for.  The quotient is taken exactly; the float quotient has
    the same integer part for lengths up to 2^40. *)
Definition estimated_measures (melody_length : Z) : Z :=
  let avg_note_duration := 75 # 100 in
  let avg_measure_length := 35 # 10 in
  let estimated_total_duration := inject_Z melody_length * avg_note_duration in
  (py_int (estimated_total_duration / avg_measure_length) + 10)%Z.

(** *** One group of instruments, from the corpus to the parts *)

Section Group.
Import Markov Generation Layout.

(** [create_states_from_training_data] (lines 509-511) is
    [list(set(training_data))]: the distinct notes, in an order the
    language leaves open. *)
Variable create_states_from_training_data : list Note -> list Note.

(** One element of the comprehension of lines 1209-1210; [None] is the
    [ZeroDivisionError] of a zero grid. *)
Definition quantize_note (quantization : Q) (n : Note) : option Note :=
  match Quantizer.quantize_duration (this (Markov.duration n)) quantization with
  | Some q =>
      Some (mkNote (pitch n) (Q2Qc q) (dynamic n) (articulation n) (velocity n))
  | None => None
  end.

Fixpoint quantize_data (quantization : Q) (training_data : list Note)
  : option (list Note) :=
  match training_data with
  | [] => Some []
  | n :: rest =>
      match quantize_note quantization n with
      | Some n' =>
          match quantize_data quantization rest with
          | Some rest' => Some (n' :: rest')
          | None => None
          end
      | None => None
      end
  end.

(** Lines 1233-1236: the melody with its pitches moved into the range of
    the instrument. *)
Definition adjust_melody (instrument : string) (melody : list Note) : list NoteData :=
  map (fun note => mkNoteData (adjust_pitch (pitch note) instrument)
                              (this (Markov.duration note)) (dynamic note)
                              (articulation note) (velocity note))
      melody.

(** Lines 1230-1238 and the part loop of [visualize_multi_voice_melody]
    with no meter schedule: the part of each instrument of the group.
    [None] is the [KeyError] of [melodies_dict[instrument]]. *)
Fixpoint parts_of (melodies_dict : list (string * list Note)) (instr_list : list string)
    (time_signature : TimeSig) : option (list (string * list (Measure * Q))) :=
  match instr_list with
  | [] => Some []
  | instrument :: rest =>
      match Dict.get instrument melodies_dict with
      | Some melody =>
          match parts_of melodies_dict rest time_signature with
          | Some parts =>
              Some ((instrument,
                     assemble_part instrument time_signature []
                       (adjust_melody instrument melody)) :: parts)
          | None => None
          end
      | None => None
      end
  end.

(** Lines 1206-1238 for one group, then its parts: quantize the corpus,
    build and train the model, generate a melody for every instrument of
    the group, move the pitches into range and lay the melodies out. *)
Definition generate_group (training_data : list Note) (order : nat) (quantization : Q)
    (instr_list : list string) (melody_length : Z) (time_signature : TimeSig)
  : Random.M (list (string * list (Measure * Q))) :=
  fun src =>
    match quantize_data quantization training_data with
    | None => None
    | Some quantized_data =>
        match __init__ (create_states_from_training_data quantized_data) order with
        | None => None
        | Some self =>
            match train self quantized_data with
            | None => None
            | Some model =>
                match generate_all_sequences model instr_list melody_length src with
                | None => None
                | Some ((melodies_dict, _), src') =>
                    match parts_of melodies_dict instr_list time_signature with
                    | Some parts => Some (parts, src')
                    | None => None
                    end
                end
            end
        end
    end.

End Group.

(** A corpus of two notes used to exercise the routine. *)
Definition two_note_corpus : list Markov.Note :=
  [Markov.mkNote (Named (natural Cn 5)) (Q2Qc (13 # 10)) "mf" "normal" 64;
   Markov.mkNote (Named (natural Gn 2)) (Q2Qc (7 # 10)) "p" "normal" 40].

(** *** Doubled instruments *)

(** [str(i)] of an integer, as the f-string of line 1615 formats it. *)
Definition str (i : Z) : string := NilZero.string_of_int (Z.to_int i).

(** Lines 1609-1615: the names entered for an instrument chosen [count]
    times: its own name for one instance, numbered names for more. *)
Definition instance_names (instr : string) (count : Z) : list string :=
  if (0 <? count)%Z then
    if (count =? 1)%Z then [instr]
    else map (fun i => (instr ++ " #" ++ str i)%string) (range_from_1 count)
  else [].

(** [confirm_selection] (lines 1603-1627): the list stored as
    [selected_instruments]; [None] when nothing is selected, in which case
    a warning is shown and nothing is stored. *)
Definition confirm_selection (count_vars : list (string * Z)) : option (list string) :=
  match flat_map (fun e => instance_names (fst e) (snd e)) count_vars with
  | [] => None
  | selected_instruments => Some selected_instruments
  end.

(** A selection used to exercise the dialog: two flutes, no oboe, one
    viola. *)
Definition sample_counts : list (string * Z) :=
  [("Flute"%string, 2%Z); ("Oboe"%string, 0%Z); ("Viola"%string, 1%Z)].

End Workflow.


(** * Properties *)

(** ** Rational helpers *)

Lemma Qltb_lt (x y : Q) : Qltb x y = true <-> x < y.
Proof.
  unfold Qltb. rewrite negb_true_iff.
  split; intro H.
  - apply Qnot_le_lt. intro Hle. apply Qle_bool_iff in Hle. congruence.
  - destruct (Qle_bool y x) eqn:E; [|reflexivity].
    apply Qle_bool_iff in E. exfalso. apply (Qlt_not_le _ _ H E).
Qed.

Lemma Qltb_ge (x y : Q) : Qltb x y = false <-> y <= x.
Proof.
  unfold Qltb. rewrite negb_false_iff. apply Qle_bool_iff.
Qed.


(** ** Dictionaries *)

Section DictFacts.
Context {K V : Type} `{EqDec K}.

Lemma Dict_get_In (k : K) (d : list (K * V)) (v : V) :
  Dict.get k d = Some v -> In v (Dict.values d).
Proof.
  induction d as [|[k' v'] d IH]; simpl; [discriminate|].
  destruct (eq_dec k k').
  - intro E; inversion E; subst. now left.
  - intro E. right. now apply IH.
Qed.

Lemma Dict_set_nonempty (k : K) (v : V) (d : list (K * V)) : Dict.set k v d <> [].
Proof.
  destruct d as [|[k' v'] d]; simpl; [discriminate|].
  destruct (eq_dec k k'); discriminate.
Qed.

Lemma Dict_set_values_Forall (P : V -> Prop) (k : K) (v : V) (d : list (K * V)) :
  Forall P (Dict.values d) -> P v -> Forall P (Dict.values (Dict.set k v d)).
Proof.
  intros Hd Hv. induction d as [|[k' v'] d IH]; simpl.
  - constructor; [exact Hv | constructor].
  - inversion Hd; subst. destruct (eq_dec k k'); simpl.
    + constructor; assumption.
    + constructor; [assumption | now apply IH].
Qed.

Lemma Dict_get_Forall (P : V -> Prop) (k : K) (v : V) (d : list (K * V)) :
  Dict.get k d = Some v -> Forall P (Dict.values d) -> P v.
Proof.
  intros Hg Hall. rewrite Forall_forall in Hall. apply Hall.
  eapply Dict_get_In; eassumption.
Qed.

Lemma Dict_get_key_In (k : K) (v : V) (d : list (K * V)) :
  Dict.get k d = Some v -> In k (Dict.keys d).
Proof.
  induction d as [|[k' v'] d IH]; simpl; [discriminate|].
  destruct (eq_dec k k') as [E | N].
  - intros _. left. symmetry. exact E.
  - intro Hg. right. now apply IH.
Qed.

End DictFacts.

(** ** Sums *)

Section SumFacts.
Import Markov.

Lemma fold_left_Qplus (l : list Q) (a : Q) :
  fold_left Qplus l a == a + fold_left Qplus l 0.
Proof.
  revert a. induction l as [|x l IH]; intro a; simpl.
  - ring.
  - rewrite (IH (a + x)), (IH (0 + x)). ring.
Qed.

Lemma Qsum_nil : Qsum [] = 0.
Proof. reflexivity. Qed.

Lemma Qsum_cons (x : Q) (l : list Q) : Qsum (x :: l) == x + Qsum l.
Proof.
  unfold Qsum. simpl. rewrite fold_left_Qplus. ring.
Qed.

Lemma Qsum_nonneg (l : list Q) : Forall (fun c => 0 <= c) l -> 0 <= Qsum l.
Proof.
  induction 1 as [|x l Hx _ IH].
  - unfold Qsum; simpl. lra.
  - rewrite Qsum_cons. lra.
Qed.

Lemma Qsum_pos (b : Q) (l : list Q) :
  0 < b -> l <> [] -> Forall (fun c => b <= c) l -> b <= Qsum l.
Proof.
  intros Hb Hne Hall. destruct Hall as [|x l Hx Hl]; [congruence|].
  rewrite Qsum_cons.
  assert (0 <= Qsum l).
  { apply Qsum_nonneg. eapply Forall_impl; [|exact Hl]. simpl. intros; lra. }
  lra.
Qed.

Lemma Qsum_map_div (t : Q) (l : list Q) :
  Qsum (map (fun c => c / t) l) == Qsum l / t.
Proof.
  induction l as [|x l IH]; simpl.
  - unfold Qsum; simpl. unfold Qdiv. ring.
  - rewrite !Qsum_cons, IH. unfold Qdiv. ring.
Qed.

Lemma Qsum_app (l1 l2 : list Q) :
  Qsum (l1 ++ l2) == Qsum l1 + Qsum l2.
Proof.
  induction l1 as [|x l1 IH]; cbn [app].
  - change (Qsum []) with 0. ring.
  - rewrite !Qsum_cons, IH. ring.
Qed.

End SumFacts.

(** ** Quantizer *)

Section QuantizerFacts.
Import Quantizer.

Lemma py_round_comp (x y : Q) : x == y -> py_round x = py_round y.
Proof.
  intro E. unfold py_round.
  rewrite (Qfloor_comp _ _ E).
  assert (Ec : Qcompare (x - inject_Z (Qfloor y)) (1 # 2)
               = Qcompare (y - inject_Z (Qfloor y)) (1 # 2)).
  { apply Qcompare_comp; [rewrite E|]; reflexivity. }
  rewrite Ec. reflexivity.
Qed.

Lemma py_round_inject_Z (k : Z) : py_round (inject_Z k) = k.
Proof.
  unfold py_round. rewrite Qfloor_Z.
  assert (E : Qcompare (inject_Z k - inject_Z k) (1 # 2) = Lt).
  { apply Qlt_alt. setoid_replace (inject_Z k - inject_Z k) with 0 by ring.
    reflexivity. }
  rewrite E. reflexivity.
Qed.

Lemma Qltb_comp (a a' b b' : Q) : a == a' -> b == b' -> Qltb a b = Qltb a' b'.
Proof.
  intros Ea Eb.
  destruct (Qltb a' b') eqn:E.
  - apply Qltb_lt. apply Qltb_lt in E. lra.
  - apply Qltb_ge. apply Qltb_ge in E. lra.
Qed.

Lemma Qeq_bool_comp (a a' : Q) : a == a' -> Qeq_bool a 0 = Qeq_bool a' 0.
Proof.
  intro E. destruct (Qeq_bool a' 0) eqn:E'.
  - apply Qeq_bool_iff. apply Qeq_bool_iff in E'. lra.
  - apply not_true_iff_false. intro H. apply Qeq_bool_iff in H.
    apply not_true_iff_false in E'. apply E'. apply Qeq_bool_iff. lra.
Qed.

Lemma FLOAT_OVERFLOW_large : 1024 < FLOAT_OVERFLOW.
Proof. vm_compute. reflexivity. Qed.

Lemma FLOAT_SAFE_large : 1024 < FLOAT_SAFE.
Proof. vm_compute. reflexivity. Qed.

Lemma FLOAT_SAFE_finite : FLOAT_SAFE < FLOAT_OVERFLOW.
Proof. vm_compute. reflexivity. Qed.

Lemma float_overflows_false (x : Q) :
  float_overflows x = false <-> Qabs x < FLOAT_OVERFLOW.
Proof.
  unfold float_overflows. split.
  - intro E. apply Qnot_le_lt. intro H. apply Qle_bool_iff in H. congruence.
  - intro H. apply not_true_iff_false. intro E. apply Qle_bool_iff in E.
    apply (Qlt_irrefl FLOAT_OVERFLOW). eapply Qle_lt_trans; eassumption.
Qed.

Lemma float_overflows_comp (x y : Q) : x == y -> float_overflows x = float_overflows y.
Proof.
  intro E. unfold float_overflows.
  destruct (Qle_bool FLOAT_OVERFLOW (Qabs y)) eqn:Ey.
  - apply Qle_bool_iff. apply Qle_bool_iff in Ey. rewrite E. exact Ey.
  - apply not_true_iff_false. intro Ex. apply Qle_bool_iff in Ex.
    rewrite E in Ex. apply Qle_bool_iff in Ex. congruence.
Qed.

Lemma quantize_duration_unfold (d g : Q) :
  ~ g == 0 -> Qabs (d / g) < FLOAT_OVERFLOW ->
  quantize_duration d g = Some (clamp (inject_Z (py_round (d / g)) * g)).
Proof.
  intros Hg Hfin. unfold quantize_duration, clamp.
  destruct (Qeq_bool g 0) eqn:E.
  { apply Qeq_bool_iff in E. contradiction. }
  rewrite (proj2 (float_overflows_false (d / g)) Hfin). reflexivity.
Qed.

(** A quotient too large for a float makes [round] raise. *)
Lemma quantize_duration_overflow (d g : Q) :
  FLOAT_OVERFLOW <= Qabs (d / g) -> quantize_duration d g = None.
Proof.
  intro H. unfold quantize_duration.
  destruct (Qeq_bool g 0); [reflexivity|].
  assert (E : float_overflows (d / g) = true) by (apply Qle_bool_iff; exact H).
  rewrite E. reflexivity.
Qed.

Lemma clamp_comp (a b : Q) : a == b -> clamp a == clamp b.
Proof.
  intro E. unfold clamp.
  rewrite (Qltb_comp a b (1 # 8) (1 # 8) E (Qeq_refl _)).
  destruct (Qltb b (1 # 8)).
  - reflexivity.
  - rewrite (Qltb_comp 4 4 a b (Qeq_refl _) E).
    destruct (Qltb 4 b); [reflexivity | exact E].
Qed.

Lemma clamp_cases (q0 : Q) :
  (q0 < 1 # 8 /\ clamp q0 = 1 # 4) \/
  (4 < q0 /\ clamp q0 = 4) \/
  (1 # 8 <= q0 <= 4 /\ clamp q0 = q0).
Proof.
  unfold clamp.
  destruct (Qltb q0 (1 # 8)) eqn:E1.
  - left. apply Qltb_lt in E1. split; [exact E1 | reflexivity].
  - apply Qltb_ge in E1.
    destruct (Qltb 4 q0) eqn:E2.
    + right; left. apply Qltb_lt in E2. split; [exact E2 | reflexivity].
    + right; right. apply Qltb_ge in E2. repeat split; assumption.
Qed.

Lemma quantize_duration_comp (d d' g g' : Q) :
  d == d' -> g == g' -> oQeq (quantize_duration d g) (quantize_duration d' g').
Proof.
  intros Ed Eg.
  destruct (Qeq_dec g' 0) as [Z0 | NZ].
  - unfold quantize_duration.
    rewrite (Qeq_bool_comp g g' Eg).
    assert (E : Qeq_bool g' 0 = true) by (apply Qeq_bool_iff; exact Z0).
    rewrite E. exact I.
  - assert (NZ' : ~ g == 0) by (intro H; apply NZ; lra).
    assert (Eq : d / g == d' / g') by (rewrite Ed, Eg; reflexivity).
    destruct (float_overflows (d' / g')) eqn:Eo.
    + unfold quantize_duration.
      rewrite (Qeq_bool_comp g g' Eg), (float_overflows_comp _ _ Eq), Eo.
      destruct (Qeq_bool g' 0); exact I.
    + pose proof (proj1 (float_overflows_false _) Eo) as Hfin'.
      assert (Hfin : Qabs (d / g) < FLOAT_OVERFLOW) by (rewrite Eq; exact Hfin').
      rewrite (quantize_duration_unfold d g NZ' Hfin),
              (quantize_duration_unfold d' g' NZ Hfin').
      simpl. apply clamp_comp.
      assert (Er : py_round (d / g) = py_round (d' / g')).
      { apply py_round_comp. exact Eq. }
      rewrite Er, Eg. reflexivity.
Qed.

Lemma quantize_duration_zero_grid (d g : Q) :
  g == 0 -> quantize_duration d g = None.
Proof.
  intro E. unfold quantize_duration.
  assert (H : Qeq_bool g 0 = true) by (apply Qeq_bool_iff; exact E).
  rewrite H. reflexivity.
Qed.





Lemma oQeq_trans (a b c : option Q) : oQeq a b -> oQeq b c -> oQeq a c.
Proof.
  destruct a, b, c; simpl; try tauto. intros H1 H2. rewrite H1. exact H2.
Qed.

Lemma quantize_duration_idempotent_gen (g : Q) :
  1 # 4 <= g ->
  oQeq (quantize_duration (1 # 4) g) (Some (1 # 4)) ->
  oQeq (quantize_duration 4 g) (Some 4) ->
  forall x, Qabs (x / g) < FLOAT_OVERFLOW ->
    exists q, quantize_duration x g = Some q /\
              oQeq (quantize_duration q g) (Some q).
Proof.
  intros Hq Hlo Hhi x Hfin.
  assert (Hg : ~ g == 0) by lra.
  rewrite (quantize_duration_unfold x g Hg Hfin).
  set (k := py_round (x / g)).
  exists (clamp (inject_Z k * g)). split; [reflexivity|].
  destruct (clamp_cases (inject_Z k * g)) as [[H E] | [[H E] | [[H1 H2] E]]];
    rewrite E.
  - exact Hlo.
  - exact Hhi.
  - assert (Ekg : inject_Z k * g / g == inject_Z k) by (field; exact Hg).
    assert (Hk : Qabs (inject_Z k * g / g) < FLOAT_OVERFLOW).
    { rewrite Ekg. pose proof FLOAT_OVERFLOW_large as Hbig.
      assert (H0 : 0 <= inject_Z k).
      { destruct (Qlt_le_dec (inject_Z k) 0) as [Hneg | Hnn]; [|exact Hnn].
        exfalso. nra. }
      rewrite Qabs_pos by exact H0.
      assert (inject_Z k <= 16) by nra. lra. }
    rewrite (quantize_duration_unfold _ g Hg Hk). simpl.
    assert (Ek : py_round (inject_Z k * g / g) = k).
    { rewrite (py_round_comp _ (inject_Z k)); [apply py_round_inject_Z | exact Ekg]. }
    rewrite Ek, E. reflexivity.
Qed.

(** C7 (as amended): quantizing twice equals quantizing once for each of
    the grids the program offers (0.25, 0.5, 1.0 and 2.0), for every
    non-negative duration whose quotient by the grid does not overflow a
    float. *)
Theorem quantize_duration_idempotent_offered (x g : Q) :
  0 <= x -> offered_grid g -> Qabs (x / g) < FLOAT_OVERFLOW ->
  exists q, quantize_duration x g = Some q /\
            oQeq (quantize_duration q g) (Some q).
Proof.
  intros _ (name & g' & Hin & Eg) Hfin.
  assert (Hg' : 1 # 4 <= g' /\
                oQeq (quantize_duration (1 # 4) g') (Some (1 # 4)) /\
                oQeq (quantize_duration 4 g') (Some 4)).
  { simpl in Hin.
    destruct Hin as [H | [H | [H | [H | []]]]]; inversion H; subst g';
      (split; [unfold Qle; simpl; lia | split; vm_compute; reflexivity]). }
  destruct Hg' as (NZ & Hlo & Hhi).
  apply quantize_duration_idempotent_gen.
  - rewrite Eg. exact NZ.
  - eapply oQeq_trans; [|exact Hlo].
    apply quantize_duration_comp; [reflexivity | exact Eg].
  - eapply oQeq_trans; [|exact Hhi].
    apply quantize_duration_comp; [reflexivity | exact Eg].
  - exact Hfin.
Qed.

Lemma quantize_duration_idempotent_offered_witness :
  exists q, quantize_duration (7 # 10) (1 # 2) = Some q /\
            oQeq (quantize_duration q (1 # 2)) (Some q).
Proof.
  apply (quantize_duration_idempotent_offered (7 # 10) (1 # 2)).
  - unfold Qle; simpl; lia.
  - exists "Colcheia"%string, (1 # 2). split.
    + simpl. right. right. left. reflexivity.
    + reflexivity.
  - vm_compute. reflexivity.
Defined.

(** C7, as stated for every grid, fails on the code: with a grid of 3 a
    duration of 5 quantizes to 4.0, and 4.0 quantizes to 3.0. *)
Lemma quantize_duration_not_idempotent :
  quantize_duration 5 3 = Some 4 /\
  oQeq (quantize_duration 4 3) (Some 3) /\
  ~ oQeq (quantize_duration 4 3) (quantize_duration 5 3).
Proof.
  split; [reflexivity|]. split; [vm_compute; reflexivity|].
  vm_compute. discriminate.
Qed.

End QuantizerFacts.

(** ** Range normaliser *)

Section RangeFacts.
Import Range.
Local Open Scope Z_scope.

Lemma ps_octave_shift (p : Pitch) (d : Z) :
  ps (octave_shift p d) = ps p + 12 * d.
Proof. unfold ps, octave_shift; cbn [step alter octave]. lia. Qed.

Lemma octave_shift_0 (p : Pitch) : octave_shift p 0 = p.
Proof. destruct p; unfold octave_shift; cbn [step alter octave]. f_equal. lia. Qed.

Lemma octave_shift_shift (p : Pitch) (a b : Z) :
  octave_shift (octave_shift p a) b = octave_shift p (a + b).
Proof. unfold octave_shift; cbn [step alter octave]. f_equal. lia. Qed.

(** The MIDI number lies in 0..127; it is the pitch space number when
    that lies there, at most 11 when that is negative, and at least 115
    when that is above 127. *)
Lemma midi_folded (p : Pitch) :
  0 <= midi p <= 127 /\
  (0 <= ps p <= 127 -> midi p = ps p) /\
  (ps p < 0 -> midi p <= 11) /\
  (127 < ps p -> 115 <= midi p).
Proof.
  unfold midi. cbv zeta.
  pose proof (Z.mod_pos_bound (ps p) 12 ltac:(lia)) as Hm.
  destruct (Z.ltb_spec 127 (ps p)) as [Hhigh | Hnot].
  - destruct (Z.ltb_spec (12 * 9 + ps p mod 12) (127 - 12)); lia.
  - destruct (Z.ltb_spec (ps p) 0); lia.
Qed.

Lemma midi_plain (p : Pitch) : 0 <= ps p <= 127 -> midi p = ps p.
Proof. apply midi_folded. Qed.

(** Against a bound where the table's ranges lie, the folded number
    compares as the pitch space number does. *)
Lemma midi_below (lo : Z) (p : Pitch) :
  12 <= lo <= 115 -> (midi p <? lo) = (ps p <? lo).
Proof.
  intro Hlo. destruct (midi_folded p) as (Hr & Hin & Hneg & Hhigh).
  destruct (Z.ltb_spec (midi p) lo), (Z.ltb_spec (ps p) lo); try reflexivity;
    exfalso; destruct (Z_lt_le_dec (ps p) 0); destruct (Z_lt_le_dec 127 (ps p)); lia.
Qed.

Lemma midi_above (hi : Z) (p : Pitch) :
  11 <= hi <= 114 -> (hi <? midi p) = (hi <? ps p).
Proof.
  intro Hhi. destruct (midi_folded p) as (Hr & Hin & Hneg & Hhigh).
  destruct (Z.ltb_spec hi (midi p)), (Z.ltb_spec hi (ps p)); try reflexivity;
    exfalso; destruct (Z_lt_le_dec (ps p) 0); destruct (Z_lt_le_dec 127 (ps p)); lia.
Qed.

(** A MIDI number inside such a window is the pitch space number. *)
Lemma midi_in_window (lo hi : Z) (p : Pitch) :
  12 <= lo -> hi <= 114 -> lo <= midi p <= hi -> midi p = ps p.
Proof.
  intros Hlo Hhi Hin. destruct (midi_folded p) as (Hr & Hplain & Hneg & Hhigh).
  destruct (Z_lt_le_dec (ps p) 0); [lia|].
  destruct (Z_lt_le_dec 127 (ps p)); [lia|]. apply Hplain. lia.
Qed.

Lemma octaves_up_done (lo : Z) (p : Pitch) :
  lo <= ps p -> octaves_up lo p = O.
Proof.
  intro H. unfold octaves_up.
  assert ((lo - ps p + 11) / 12 <= 0)
    by (Z.to_euclidean_division_equations; lia).
  lia.
Qed.

Lemma octaves_up_step (lo : Z) (p : Pitch) :
  ps p < lo -> octaves_up lo p = S (octaves_up lo (octave_shift p 1)).
Proof.
  intro H. unfold octaves_up. rewrite ps_octave_shift.
  replace (lo - ps p + 11) with (lo - (ps p + 12 * 1) + 11 + 1 * 12) by lia.
  rewrite Z.div_add by lia.
  assert (0 <= (lo - (ps p + 12 * 1) + 11) / 12)
    by (Z.to_euclidean_division_equations; lia).
  lia.
Qed.

Lemma octaves_down_done (hi : Z) (p : Pitch) :
  ps p <= hi -> octaves_down hi p = O.
Proof.
  intro H. unfold octaves_down.
  assert ((ps p - hi + 11) / 12 <= 0)
    by (Z.to_euclidean_division_equations; lia).
  lia.
Qed.

Lemma octaves_down_step (hi : Z) (p : Pitch) :
  hi < ps p -> octaves_down hi p = S (octaves_down hi (octave_shift p (-1))).
Proof.
  intro H. unfold octaves_down. rewrite ps_octave_shift.
  replace (ps p - hi + 11) with (ps p + 12 * -1 - hi + 11 + 1 * 12) by lia.
  rewrite Z.div_add by lia.
  assert (0 <= (ps p + 12 * -1 - hi + 11) / 12)
    by (Z.to_euclidean_division_equations; lia).
  lia.
Qed.

(** For a bound where the table's ranges lie, the up loop makes exactly
    [octaves_up] iterations: with that much fuel or more it returns the
    pitch that many octaves higher, with less it is still running. *)
Lemma raise_while_below_spec (fuel : nat) (lo : Z) (p : Pitch) :
  12 <= lo <= 115 ->
  raise_while_below fuel lo p =
  if (octaves_up lo p <=? fuel)%nat
  then Some (octave_shift p (Z.of_nat (octaves_up lo p)))
  else None.
Proof.
  intro Hlo. revert p. induction fuel as [|fuel IH]; intro p;
    cbn [raise_while_below]; rewrite (midi_below lo p Hlo);
    destruct (Z.ltb_spec (ps p) lo) as [Hlt | Hge].
  - rewrite (octaves_up_step lo p Hlt). reflexivity.
  - rewrite (octaves_up_done lo p Hge). simpl. now rewrite octave_shift_0.
  - rewrite IH, (octaves_up_step lo p Hlt).
    change (S (octaves_up lo (octave_shift p 1)) <=? S fuel)%nat
      with (octaves_up lo (octave_shift p 1) <=? fuel)%nat.
    destruct (octaves_up lo (octave_shift p 1) <=? fuel)%nat; [|reflexivity].
    rewrite octave_shift_shift. do 2 f_equal. lia.
  - rewrite (octaves_up_done lo p Hge). simpl. now rewrite octave_shift_0.
Qed.

Lemma lower_while_above_spec (fuel : nat) (hi : Z) (p : Pitch) :
  11 <= hi <= 114 ->
  lower_while_above fuel hi p =
  if (octaves_down hi p <=? fuel)%nat
  then Some (octave_shift p (- Z.of_nat (octaves_down hi p)))
  else None.
Proof.
  intro Hhi. revert p. induction fuel as [|fuel IH]; intro p;
    cbn [lower_while_above]; rewrite (midi_above hi p Hhi);
    destruct (Z.ltb_spec hi (ps p)) as [Hlt | Hge].
  - rewrite (octaves_down_step hi p Hlt). reflexivity.
  - rewrite (octaves_down_done hi p Hge). simpl. now rewrite octave_shift_0.
  - rewrite IH, (octaves_down_step hi p Hlt).
    change (S (octaves_down hi (octave_shift p (-1))) <=? S fuel)%nat
      with (octaves_down hi (octave_shift p (-1)) <=? fuel)%nat.
    destruct (octaves_down hi (octave_shift p (-1)) <=? fuel)%nat; [|reflexivity].
    rewrite octave_shift_shift. do 2 f_equal. lia.
  - rewrite (octaves_down_done hi p Hge). simpl. now rewrite octave_shift_0.
Qed.

(** Where the up loop stops: at or above the bound, and less than an
    octave above it when it moved at all. *)
Lemma octaves_up_lands (lo : Z) (p : Pitch) :
  let p1 := octave_shift p (Z.of_nat (octaves_up lo p)) in
  lo <= ps p1 /\ (octaves_up lo p <> O -> ps p1 < lo + 12).
Proof.
  simpl. rewrite ps_octave_shift. unfold octaves_up.
  destruct (Z_lt_le_dec (ps p) lo) as [Hlt | Hge].
  - rewrite Z2Nat.id by (Z.to_euclidean_division_equations; lia).
    split; [|intros _]; Z.to_euclidean_division_equations; lia.
  - assert (E : (lo - ps p + 11) / 12 <= 0)
      by (Z.to_euclidean_division_equations; lia).
    split; [|intro Hn; exfalso; apply Hn]; lia.
Qed.

Lemma octaves_down_lands (hi : Z) (p : Pitch) :
  let p2 := octave_shift p (- Z.of_nat (octaves_down hi p)) in
  ps p2 <= hi /\ (octaves_down hi p <> O -> hi - 12 < ps p2).
Proof.
  simpl. rewrite ps_octave_shift. unfold octaves_down.
  destruct (Z_lt_le_dec hi (ps p)) as [Hlt | Hge].
  - rewrite Z2Nat.id by (Z.to_euclidean_division_equations; lia).
    split; [|intros _]; Z.to_euclidean_division_equations; lia.
  - assert (E : (ps p - hi + 11) / 12 <= 0)
      by (Z.to_euclidean_division_equations; lia).
    split; [|intro Hn; exfalso; apply Hn]; lia.
Qed.

(** Every range the lookup can return lies between MIDI 12 and 114,
    where the MIDI number is the pitch space number, and spans at least
    eleven semitones, so an octave step down from above the range cannot
    jump below it. *)
Lemma instrument_range_bounds (instrument : string) :
  let min_p := fst (instrument_range instrument) in
  let max_p := snd (instrument_range instrument) in
  midi min_p = ps min_p /\ midi max_p = ps max_p /\
  12 <= midi min_p /\ midi min_p + 11 <= midi max_p /\ midi max_p <= 114.
Proof.
  assert (Hall : Forall (fun r => midi (fst r) = ps (fst r) /\
                                  midi (snd r) = ps (snd r) /\
                                  12 <= midi (fst r) /\
                                  midi (fst r) + 11 <= midi (snd r) /\
                                  midi (snd r) <= 114)
                        (Dict.values INSTRUMENT_RANGES)).
  { repeat constructor; vm_compute; discriminate. }
  cbv zeta. unfold instrument_range.
  destruct (Dict.get (before_sep " #" instrument) INSTRUMENT_RANGES) as [r|] eqn:E.
  - apply Dict_get_In in E. rewrite Forall_forall in Hall. now apply Hall.
  - repeat split; vm_compute; discriminate.
Qed.

Lemma fold_into_range_spec (fuel : nat) (min_p max_p p : Pitch) :
  12 <= midi min_p <= 115 -> 11 <= midi max_p <= 114 ->
  let ups := octaves_up (midi min_p) p in
  let p1 := octave_shift p (Z.of_nat ups) in
  let downs := octaves_down (midi max_p) p1 in
  (Nat.max ups downs <= fuel)%nat ->
  fold_into_range fuel min_p max_p p
  = Some (octave_shift p1 (- Z.of_nat downs)).
Proof.
  intros Hlo Hhi ups p1 downs Hfuel. unfold fold_into_range.
  rewrite (raise_while_below_spec _ _ _ Hlo). fold ups.
  destruct (Nat.leb_spec ups fuel) as [_ | Hbad]; [|lia].
  fold p1. rewrite (lower_while_above_spec _ _ _ Hhi). fold downs.
  destruct (Nat.leb_spec downs fuel) as [_ | Hbad]; [reflexivity | lia].
Qed.

(** The pitch the two loops end on, for a range of at least eleven
    semitones between 12 and 114: inside the range, and no further from
    the input than the nearest octave that is inside. *)
Lemma fold_into_range_lands (lo hi : Z) (p : Pitch) :
  12 <= lo -> lo + 11 <= hi -> hi <= 114 ->
  let p1 := octave_shift p (Z.of_nat (octaves_up lo p)) in
  let p2 := octave_shift p1 (- Z.of_nat (octaves_down hi p1)) in
  midi p2 = ps p2 /\
  lo <= ps p2 <= hi /\
  (lo <= ps p <= hi -> p2 = p) /\
  (ps p < lo -> ps p2 < lo + 12) /\
  (hi < ps p -> hi - 12 < ps p2).
Proof.
  intros Hlo12 Hwide Hhi114 p1 p2.
  destruct (octaves_up_lands lo p) as [Hlo Hnear]. fold p1 in Hlo, Hnear.
  destruct (octaves_down_lands hi p1) as [Hhi Hfar]. fold p2 in Hhi, Hfar.
  assert (Hup0 : lo <= ps p -> p1 = p).
  { intro H. unfold p1. rewrite (octaves_up_done lo p H). apply octave_shift_0. }
  assert (Hdown0 : ps p1 <= hi -> p2 = p1).
  { intro H. unfold p2. rewrite (octaves_down_done hi p1 H). apply octave_shift_0. }
  assert (Hup : ps p < lo -> ps p1 < lo + 12).
  { intro H. apply Hnear. rewrite (octaves_up_step lo p H). discriminate. }
  assert (Hin : lo <= ps p2).
  { destruct (Z_le_gt_dec (ps p1) hi) as [Hle | Hout].
    + rewrite (Hdown0 Hle). exact Hlo.
    + assert (octaves_down hi p1 <> O)
        by (rewrite (octaves_down_step hi p1); [discriminate | lia]).
      specialize (Hfar H). lia. }
  split; [apply midi_plain; lia|].
  split; [split; [exact Hin | exact Hhi]|].
  split; [|split].
  - intros [H1 H2]. rewrite Hdown0; rewrite (Hup0 H1); auto.
  - intro H. specialize (Hup H). rewrite Hdown0; lia.
  - intro H. assert (E : p1 = p) by (apply Hup0; lia).
    rewrite E in *. apply Hfar.
    rewrite (octaves_down_step hi p); [discriminate | lia].
Qed.

(** C8: a rest is returned unchanged; any other pitch is first moved up by
    octaves while below the instrument's lowest pitch, then down by
    octaves while above its highest, and the pitch returned lies within
    the range looked up for the instrument. *)
Theorem adjust_pitch_to_range_within (instrument : string) :
  (forall fuel, adjust_pitch_to_range fuel R instrument = Some R) /\
  (forall p : Pitch,
     let min_p := fst (instrument_range instrument) in
     let max_p := snd (instrument_range instrument) in
     let p1 := octave_shift p (Z.of_nat (octaves_up (midi min_p) p)) in
     let p2 := octave_shift p1 (- Z.of_nat (octaves_down (midi max_p) p1)) in
     (exists fuel0, forall fuel, (fuel0 <= fuel)%nat ->
        adjust_pitch_to_range fuel (Named p) instrument = Some (Named p2)) /\
     midi min_p <= midi p2 <= midi max_p).
Proof.
  split; [reflexivity|].
  intros p min_p max_p p1 p2.
  destruct (instrument_range_bounds instrument) as (_ & _ & Hlo & Hwide & Hhi).
  fold min_p max_p in Hlo, Hwide, Hhi. split.
  - exists (Nat.max (octaves_up (midi min_p) p) (octaves_down (midi max_p) p1)).
    intros fuel Hfuel. unfold adjust_pitch_to_range.
    destruct (instrument_range instrument) as [lo hi] eqn:E.
    subst min_p max_p. cbn [fst snd] in *.
    rewrite (fold_into_range_spec fuel lo hi p) by (lia || exact Hfuel). reflexivity.
  - destruct (fold_into_range_lands (midi min_p) (midi max_p) p Hlo Hwide Hhi)
      as (Em & Hin & _).
    fold p1 p2 in Em, Hin. rewrite Em. exact Hin.
Qed.





Example adjust_pitch_to_range_cello :
  adjust_pitch_to_range 5 (Named (natural Cn 8)) "Violoncello #2"
  = Some (Named (natural Cn 6)).
Proof. reflexivity. Qed.

Example adjust_pitch_to_range_unknown :
  adjust_pitch_to_range 5 (Named (flat Bn 1)) "Theremin"
  = Some (Named (flat Bn 3)).
Proof. reflexivity. Qed.

End RangeFacts.

(** ** Markov trainer *)

Section TrainerFacts.
Import Markov.

Lemma counted_nil {K S} : counted (@nil (K * list (S * Q))).
Proof. constructor. Qed.

Lemma count_transition_counted {K S} `{EqDec K} `{EqDec S}
    (m : list (K * list (S * Q))) (cur : K) (next : S) :
  counted m -> counted (count_transition m cur next).
Proof.
  intro Hm. unfold count_transition, counted.
  apply Dict_set_values_Forall; [exact Hm|].
  split; [apply Dict_set_nonempty|].
  assert (Hrow : Forall (fun c => 1 <= c)
                   (Dict.values match Dict.get cur m with Some r => r | None => [] end)).
  { destruct (Dict.get cur m) as [r|] eqn:E; [|constructor].
    exact (proj2 (Dict_get_Forall _ _ _ _ E Hm)). }
  apply Dict_set_values_Forall; [exact Hrow|].
  destruct (Dict.get next _) as [c|] eqn:E.
  - pose proof (Dict_get_Forall _ _ _ _ E Hrow) as Hc. simpl in Hc. lra.
  - lra.
Qed.

Lemma counted_rows_positive {K S} (m : list (K * list (S * Q))) :
  counted m -> rows_positive m.
Proof.
  unfold counted, rows_positive. apply Forall_impl.
  intros row [Hne Hall].
  assert (1 <= Qsum (Dict.values row)).
  { apply Qsum_pos; [lra | | exact Hall].
    destruct row; [congruence | discriminate]. }
  lra.
Qed.

Lemma for_range_invariant {A} (P : A -> Prop) (n : nat)
    (body : nat -> A -> option A) (init : A) :
  (forall i a, (i < n)%nat -> P a -> exists a', body i a = Some a' /\ P a') ->
  P init ->
  exists r, for_range n body init = Some r /\ P r.
Proof.
  unfold for_range. intros Hbody.
  assert (G : forall l a, (forall i, In i l -> (i < n)%nat) -> P a ->
              exists r, fold_left
                (fun acc i => match acc with Some a => body i a | None => None end)
                l (Some a) = Some r /\ P r).
  { induction l as [|i l IH]; intros a Hl Ha; simpl.
    - exists a. split; [reflexivity | exact Ha].
    - destruct (Hbody i a (Hl i (or_introl eq_refl)) Ha) as (a' & E & Ha').
      rewrite E. apply IH; [|exact Ha'].
      intros j Hj. apply Hl. now right. }
  intro Hinit. apply G; [|exact Hinit].
  intros i Hi. apply in_seq in Hi. lia.
Qed.

Lemma divide_by_total_ok {X} (row : list (X * Q)) :
  row <> [] -> 0 < Qsum (Dict.values row) ->
  exists row', divide_by_total row = Some row' /\
               Dict.keys row' = Dict.keys row /\
               Qsum (Dict.values row') == 1.
Proof.
  intros Hne Hpos. unfold divide_by_total.
  destruct row as [|e row]; [congruence|].
  set (d := e :: row) in *. set (total := Qsum (Dict.values d)) in *.
  destruct (Qeq_bool total 0) eqn:E.
  - apply Qeq_bool_iff in E. lra.
  - eexists. split; [reflexivity|]. split.
    + unfold Dict.keys. rewrite map_map. reflexivity.
    + unfold Dict.values. rewrite map_map.
      change (map (fun x => snd x / total) d)
        with (map (fun x => (fun kc : X * Q => snd kc) x / total) d).
      rewrite <- (map_map (fun kc : X * Q => snd kc) (fun c => c / total)).
      rewrite Qsum_map_div. change (total / total == 1).
      clearbody total. field. lra.
Qed.

Lemma _normalize_matrix_ok {K S} (m : list (K * list (S * Q))) :
  counted m ->
  exists m', _normalize_matrix m = Some m' /\
             Dict.keys m' = Dict.keys m /\
             rows_stochastic m'.
Proof.
  induction m as [|[state row] m IH]; intro Hm.
  - exists []. repeat split. constructor.
  - inversion Hm as [|? ? [Hne Hall] Hrest]; subst.
    assert (Hpos : 0 < Qsum (Dict.values row)).
    { assert (1 <= Qsum (Dict.values row)).
      { apply Qsum_pos; [lra | | exact Hall].
        destruct row; [congruence | discriminate]. }
      lra. }
    destruct (divide_by_total_ok row Hne Hpos) as (row' & E & Hk & Hs).
    destruct (IH Hrest) as (m' & E' & Hk' & Hs').
    exists ((state, row') :: m'). simpl. rewrite E, E'.
    split; [reflexivity|]. split.
    + simpl. f_equal. exact Hk'.
    + constructor; assumption.
Qed.

Lemma count_initial_counted (order : nat) (notes : list Note) :
  Forall (fun c => 1 <= c) (Dict.values (count_initial [] order notes)).
Proof.
  unfold count_initial.
  generalize (seq 0 (range_len (Z.of_nat (List.length notes) - Z.of_nat order + 1))).
  assert (G : forall l ip, Forall (fun c => 1 <= c) (Dict.values ip) ->
    Forall (fun c => 1 <= c) (Dict.values (fold_left
      (fun (ip : list (list Note * Q)) (i : nat) =>
         Dict.set (window notes i order)
           (match Dict.get (window notes i order) ip with
            | Some c => c | None => 0 end + 1) ip) l ip))).
  { induction l as [|i l IH]; intros ip Hip; simpl; [exact Hip|].
    apply IH. apply Dict_set_values_Forall; [exact Hip|].
    destruct (Dict.get (window notes i order) ip) as [c|] eqn:E.
    - pose proof (Dict_get_Forall _ _ _ _ E Hip) as Hc. simpl in Hc. lra.
    - lra. }
  intro l. apply G. constructor.
Qed.

Lemma divide_initial_ok (order : nat) (notes : list Note) :
  exists ip, divide_by_total (count_initial [] order notes) = Some ip.
Proof.
  pose proof (count_initial_counted order notes) as Hc.
  destruct (count_initial [] order notes) as [|e d] eqn:E.
  - exists []. reflexivity.
  - assert (Hpos : 1 <= Qsum (Dict.values (e :: d))).
    { apply Qsum_pos; [lra | discriminate | exact Hc]. }
    destruct (divide_by_total_ok (e :: d)) as (ip & Hip & _); [discriminate | lra |].
    exists ip. exact Hip.
Qed.

Lemma count_joint_counted (order : nat) (notes : list Note) :
  exists tc, count_joint [] order notes = Some tc /\ counted tc.
Proof.
  unfold count_joint. apply for_range_invariant; [|apply counted_nil].
  intros i tm Hi Htm. unfold range_len in Hi.
  destruct (nth_error notes (i + order)) as [next_state|] eqn:E.
  - eexists. split; [reflexivity|]. now apply count_transition_counted.
  - apply nth_error_None in E. lia.
Qed.

Lemma count_separate_counted (notes : list Note) :
  exists pc dc vc, count_separate ([], [], []) notes = Some (pc, dc, vc) /\
                   counted pc /\ counted dc /\ counted vc.
Proof.
  unfold count_separate.
  destruct (for_range_invariant
              (fun ms : list (Range.NotePitch * list (Range.NotePitch * Q))
                        * list (Qc * list (Qc * Q)) * list (Z * list (Z * Q)) =>
                 counted (fst (fst ms)) /\ counted (snd (fst ms)) /\ counted (snd ms))
              (range_len (Z.of_nat (List.length notes) - 1))
              (fun i ms =>
                 let '(pm, dm, vm) := ms in
                 match nth_error notes i, nth_error notes (i + 1) with
                 | Some current_state, Some next_state =>
                     Some (count_transition pm (pitch current_state) (pitch next_state),
                           count_transition dm (duration current_state) (duration next_state),
                           count_transition vm (velocity current_state) (velocity next_state))
                 | _, _ => None
                 end)
              ([], [], [])) as ([[pc dc] vc] & E & Hp & Hd & Hv).
  - intros i [[pm dm] vm] Hi (Hp & Hd & Hv). simpl in Hp, Hd, Hv.
    unfold range_len in Hi.
    destruct (nth_error notes i) as [current_state|] eqn:E1;
      [|apply nth_error_None in E1; lia].
    destruct (nth_error notes (i + 1)) as [next_state|] eqn:E2;
      [|apply nth_error_None in E2; lia].
    eexists. split; [reflexivity|]. simpl.
    repeat split; now apply count_transition_counted.
  - simpl. repeat split; apply counted_nil.
  - exists pc, dc, vc. simpl in Hp, Hd, Hv. repeat split; assumption.
Qed.

(** C5: after [train] on a non-empty corpus, with a freshly constructed
    model, every row of the joint, pitch, duration and velocity tables has
    a strictly positive total before normalisation, normalisation
    succeeds (no division by zero), and every normalised row sums to 1 in
    rational arithmetic. *)
Theorem train_rows_sum_to_one (states notes : list Note) (order : nat) :
  states <> [] -> notes <> [] ->
  exists self tc pc dc vc model,
    __init__ states order = Some self /\
    count_joint (transition_matrix self) order notes = Some tc /\
    count_separate (pitch_matrix self, duration_matrix self, velocity_matrix self) notes
      = Some (pc, dc, vc) /\
    rows_positive tc /\ rows_positive pc /\ rows_positive dc /\ rows_positive vc /\
    train self notes = Some model /\
    _normalize_matrix tc = Some (transition_matrix model) /\
    _normalize_matrix pc = Some (pitch_matrix model) /\
    _normalize_matrix dc = Some (duration_matrix model) /\
    _normalize_matrix vc = Some (velocity_matrix model) /\
    rows_stochastic (transition_matrix model) /\
    rows_stochastic (pitch_matrix model) /\
    rows_stochastic (duration_matrix model) /\
    rows_stochastic (velocity_matrix model).
Proof.
  intros Hstates Hnotes.
  destruct states as [|s0 states]; [congruence|].
  destruct notes as [|n0 notes]; [congruence|].
  set (all_notes := n0 :: notes).
  destruct (divide_initial_ok order all_notes) as (ip & Eip).
  destruct (count_joint_counted order all_notes) as (tc & Etc & Htc).
  destruct (count_separate_counted all_notes) as (pc & dc & vc & Ems & Hpc & Hdc & Hvc).
  destruct (_normalize_matrix_ok tc Htc) as (tm & Etm & _ & Stm).
  destruct (_normalize_matrix_ok pc Hpc) as (pm & Epm & _ & Spm).
  destruct (_normalize_matrix_ok dc Hdc) as (dm & Edm & _ & Sdm).
  destruct (_normalize_matrix_ok vc Hvc) as (vm & Evm & _ & Svm).
  exists (mkModel (s0 :: states) order [] [] [] [] []), tc, pc, dc, vc,
         (mkModel (s0 :: states) order ip tm pm dm vm).
  cbn [transition_matrix pitch_matrix duration_matrix velocity_matrix].
  split; [reflexivity|]. split; [exact Etc|]. split; [exact Ems|].
  split; [now apply counted_rows_positive|].
  split; [now apply counted_rows_positive|].
  split; [now apply counted_rows_positive|].
  split; [now apply counted_rows_positive|].
  split.
  { unfold train. fold all_notes.
    cbn [initial_probabilities transition_matrix pitch_matrix duration_matrix
         velocity_matrix Markov.order Markov.states].
    unfold all_notes at 1.
    rewrite Eip. cbn [obind]. rewrite Etc. cbn [obind]. rewrite Etm. cbn [obind].
    rewrite Ems. cbn [obind]. rewrite Epm. cbn [obind]. rewrite Edm. cbn [obind].
    rewrite Evm. reflexivity. }
  repeat split; assumption.
Qed.

Lemma divide_by_total_positive {X} (row row' : list (X * Q)) :
  row <> [] -> Forall (fun c => 1 <= c) (Dict.values row) ->
  divide_by_total row = Some row' ->
  row' <> [] /\ Forall (fun w => 0 < w) (Dict.values row').
Proof.
  intros Hne Hall E.
  assert (Hpos : 1 <= Qsum (Dict.values row)).
  { apply Qsum_pos; [lra | | exact Hall].
    destruct row; [congruence | discriminate]. }
  assert (Erow : row' = map (fun kc => (fst kc, snd kc / Qsum (Dict.values row))) row).
  { unfold divide_by_total in E. destruct row as [|e row]; [congruence|].
    destruct (Qeq_bool _ 0); [discriminate|]. now injection E as <-. }
  subst row'. split.
  - destruct row; [congruence | discriminate].
  - unfold Dict.values in *. rewrite map_map. apply Forall_map.
    rewrite Forall_map in Hall. eapply Forall_impl; [|exact Hall].
    intros kc Hkc. cbn [snd]. cbv beta in Hkc. apply Qlt_shift_div_l; lra.
Qed.

Lemma divide_by_total_sum {X} (row row' : list (X * Q)) :
  row <> [] -> Forall (fun c => 1 <= c) (Dict.values row) ->
  divide_by_total row = Some row' ->
  Qsum (Dict.values row') == 1.
Proof.
  intros Hne Hall E.
  assert (Hpos : 1 <= Qsum (Dict.values row)).
  { apply Qsum_pos; [lra | | exact Hall].
    destruct row; [congruence | discriminate]. }
  destruct (divide_by_total_ok row Hne) as (row'' & E' & _ & Hs); [lra|].
  rewrite E in E'. injection E' as <-. exact Hs.
Qed.

(** A table built by counting and normalised is fit for sampling: its rows
    are non-empty and carry positive weights only, which sum to 1. *)
Lemma _normalize_matrix_rows_ok {K S} (m m' : list (K * list (S * Q))) :
  counted m -> _normalize_matrix m = Some m' -> rows_ok m'.
Proof.
  revert m'. induction m as [|[state row] m IH]; intros m' Hm E.
  - injection E as <-. constructor.
  - inversion Hm as [|? ? [Hne Hall] Hrest]; subst.
    cbn [_normalize_matrix] in E.
    destruct (divide_by_total row) as [row'|] eqn:Er; [|discriminate].
    destruct (_normalize_matrix m) as [rest'|] eqn:Em; [|discriminate].
    injection E as <-. constructor; [|now apply IH].
    destruct (divide_by_total_positive row row' Hne Hall Er) as [H1 H2].
    split; [exact H1|]. split; [exact H2|].
    rewrite (divide_by_total_sum row row' Hne Hall Er).
    pose proof FLOAT_SAFE_large. lra.
Qed.

Lemma train_rows_sum_to_one_witness :
  sample_corpus <> [] /\
  exists self tc pc dc vc model,
    __init__ sample_corpus 1 = Some self /\
    count_joint (transition_matrix self) 1 sample_corpus = Some tc /\
    count_separate (pitch_matrix self, duration_matrix self, velocity_matrix self)
      sample_corpus = Some (pc, dc, vc) /\
    rows_positive tc /\ rows_positive pc /\ rows_positive dc /\ rows_positive vc /\
    train self sample_corpus = Some model /\
    _normalize_matrix tc = Some (transition_matrix model) /\
    _normalize_matrix pc = Some (pitch_matrix model) /\
    _normalize_matrix dc = Some (duration_matrix model) /\
    _normalize_matrix vc = Some (velocity_matrix model) /\
    rows_stochastic (transition_matrix model) /\
    rows_stochastic (pitch_matrix model) /\
    rows_stochastic (duration_matrix model) /\
    rows_stochastic (velocity_matrix model).
Proof.
  split; [discriminate|].
  apply (train_rows_sum_to_one sample_corpus sample_corpus 1); discriminate.
Defined.

End TrainerFacts.

(** ** Sequence generator *)

Section GeneratorFacts.
Import Markov.

Lemma choice_In {A} (seq : list A) (s : Random.Source) :
  seq <> [] ->
  exists x s', Random.choice seq s = Some (x, s') /\ In x seq.
Proof.
  intro Hne. destruct seq as [|a l]; [congruence|].
  unfold Random.choice, Random.bind, Random.next_word.
  set (len := List.length (a :: l)).
  set (w := Random.word s (Random.cursor s)).
  assert (Hlt : (Z.to_nat (w mod Z.of_nat len) < len)%nat).
  { assert (0 < Z.of_nat len)%Z by (unfold len; simpl; lia).
    pose proof (Z.mod_pos_bound w (Z.of_nat len) H). lia. }
  destruct (nth_error (a :: l) (Z.to_nat (w mod Z.of_nat len))) as [x|] eqn:E.
  - exists x. eexists. split; [reflexivity|]. eapply nth_error_In; exact E.
  - apply nth_error_None in E. fold len in E. lia.
Qed.

Lemma bisect_loop_bounds (fuel : nat) (a : list Q) (x : Q) (lo hi : nat) :
  (lo <= hi)%nat ->
  (lo <= Random.bisect_loop fuel a x lo hi <= hi)%nat.
Proof.
  revert lo hi. induction fuel as [|fuel IH]; intros lo hi Hle;
    cbn [Random.bisect_loop]; [lia|].
  destruct (Nat.ltb_spec lo hi) as [Hlt | Hge]; [|lia].
  set (mid := ((lo + hi) / 2)%nat).
  assert (Hmid : (lo <= mid < hi)%nat).
  { pose proof (Nat.div_mod_eq (lo + hi) 2) as Hd.
    pose proof (Nat.mod_upper_bound (lo + hi) 2) as Hm.
    fold mid in Hd. lia. }
  destruct (Qltb x (nth mid a 0)).
  - specialize (IH lo mid). lia.
  - specialize (IH (mid + 1)%nat hi). lia.
Qed.

(** The fuel [bisect] gives the search, [hi - lo], is enough: more fuel
    does not change the result. *)
Lemma bisect_loop_enough (a : list Q) (x : Q) (f1 f2 lo hi : nat) :
  (hi - lo <= f1)%nat -> (hi - lo <= f2)%nat ->
  Random.bisect_loop f1 a x lo hi = Random.bisect_loop f2 a x lo hi.
Proof.
  revert f2 lo hi. induction f1 as [|f1 IH]; intros f2 lo hi H1 H2.
  - destruct f2 as [|f2]; cbn [Random.bisect_loop]; [reflexivity|].
    destruct (Nat.ltb_spec lo hi); [lia | reflexivity].
  - destruct f2 as [|f2]; cbn [Random.bisect_loop];
      destruct (Nat.ltb_spec lo hi) as [Hlt | Hge]; try reflexivity; try lia.
    set (mid := ((lo + hi) / 2)%nat).
    assert (Hmid : (lo <= mid < hi)%nat).
    { pose proof (Nat.div_mod_eq (lo + hi) 2) as Hd.
      pose proof (Nat.mod_upper_bound (lo + hi) 2) as Hm.
      fold mid in Hd. lia. }
    destruct (Qltb x (nth mid a 0)); apply IH; lia.
Qed.

Lemma last_accumulate_from_pos (acc : Q) (l : list Q) :
  0 < acc -> Forall (fun w => 0 < w) l ->
  0 < last (acc :: Random.accumulate_from acc l) 0.
Proof.
  revert acc. induction l as [|w l IH]; intros acc Hacc Hl.
  - exact Hacc.
  - inversion Hl; subst.
    change (0 < last ((acc + w) :: Random.accumulate_from (acc + w) l) 0).
    apply IH; [lra | assumption].
Qed.

Lemma last_accumulate_from (acc : Q) (l : list Q) :
  last (acc :: Random.accumulate_from acc l) 0 == acc + Qsum l.
Proof.
  revert acc. induction l as [|w l IH]; intro acc.
  - cbn [Random.accumulate_from last]. rewrite Qsum_nil. ring.
  - change (last ((acc + w) :: Random.accumulate_from (acc + w) l) 0
            == acc + Qsum (w :: l)).
    rewrite IH, Qsum_cons. ring.
Qed.

Lemma choices1_In {A} (population : list A) (weights : list Q) (s : Random.Source) :
  population <> [] ->
  List.length population = List.length weights ->
  Forall (fun w => 0 < w) weights ->
  Qsum weights < FLOAT_OVERFLOW ->
  exists x s', Random.choices1 population weights s = Some (x, s') /\ In x population.
Proof.
  intros Hne Hlen Hpos Hfin. unfold Random.choices1.
  rewrite Hlen, Nat.eqb_refl. simpl negb. cbv iota.
  destruct weights as [|w weights].
  { destruct population; [congruence | discriminate]. }
  inversion Hpos as [|? ? Hw Hws]; subst.
  cbn [Random.accumulate].
  pose proof (last_accumulate_from_pos w weights Hw Hws) as Htotal.
  set (cum := w :: Random.accumulate_from w weights) in *.
  set (total := last cum 0) in *.
  destruct (Qle_bool total 0) eqn:E.
  { apply Qle_bool_iff in E. lra. }
  assert (Eo : float_overflows total = false).
  { apply float_overflows_false. rewrite Qabs_pos by lra.
    unfold total, cum. rewrite last_accumulate_from, <- Qsum_cons. exact Hfin. }
  rewrite Eo.
  cbv beta iota delta [negb Random.bind Random.random Random.next_word Random.ret].
  match goal with
  | |- context [Random.bisect cum ?u ?lo ?hi] =>
      pose proof (bisect_loop_bounds (hi - lo) cum u lo hi (Nat.le_0_l _)) as Hb;
      fold (Random.bisect cum u lo hi) in Hb;
      set (i := Random.bisect cum u lo hi) in *
  end.
  destruct (nth_error population i) as [x|] eqn:Ex.
  - exists x. eexists. split; [reflexivity|]. eapply nth_error_In; exact Ex.
  - apply nth_error_None in Ex. rewrite Hlen in *. simpl in *. lia.
Qed.

Lemma generate_loop_ok {K} `{EqDec K} (m : list (K * list (K * Q))) :
  m <> [] -> rows_ok m ->
  forall (n : nat) (cur : K) (seq0 : list K) (s : Random.Source),
    Forall (reachable_symbol m) seq0 ->
    exists seq s',
      generate_loop n m cur seq0 s = Some (seq, s') /\
      List.length seq = (List.length seq0 + n)%nat /\
      Forall (reachable_symbol m) seq.
Proof.
  intros Hne Hrows. induction n as [|n IH]; intros cur seq0 s Hseq0.
  - exists seq0, s. split; [reflexivity|]. split; [lia | exact Hseq0].
  - cbn [generate_loop]. unfold Random.bind at 1.
    assert (Hdraw : exists x s1,
      (match Dict.get cur m with
       | Some row => Random.choices1 (Dict.keys row) (Dict.values row)
       | None => Random.choice (Dict.keys m)
       end) s = Some (x, s1) /\ reachable_symbol m x).
    { destruct (Dict.get cur m) as [row|] eqn:E.
      - destruct (Dict_get_Forall _ _ _ _ E Hrows) as (Hrow & Hw & Hfin).
        destruct (choices1_In (Dict.keys row) (Dict.values row) s)
          as (x & s1 & Ex & Hx).
        + destruct row; [congruence | discriminate].
        + unfold Dict.keys, Dict.values. now rewrite !length_map.
        + exact Hw.
        + eapply Qle_lt_trans; [exact Hfin | exact FLOAT_SAFE_finite].
        + exists x, s1. split; [exact Ex|]. right. exists row. split; [|exact Hx].
          eapply Dict_get_In; exact E.
      - destruct (choice_In (Dict.keys m) s) as (x & s1 & Ex & Hx).
        + destruct m; [congruence | discriminate].
        + exists x, s1. split; [exact Ex|]. left. exact Hx. }
    destruct Hdraw as (x & s1 & Ex & Hx). rewrite Ex.
    destruct (IH x (seq0 ++ [x]) s1) as (seq & s' & E & Hlen & Hall).
    + apply Forall_app. split; [exact Hseq0|]. constructor; [exact Hx | constructor].
    + exists seq, s'. split; [exact E|]. split; [|exact Hall].
      rewrite Hlen, length_app. simpl. lia.
Qed.

(** For any requested length the generator returns the seed symbol
    followed by [length - 1] further symbols, so a request for fewer than
    one symbol still yields one. *)
Lemma _generate_sequence_ok {K} `{EqDec K} (m : list (K * list (K * Q)))
    (n : Z) (s : Random.Source) :
  m <> [] -> rows_ok m ->
  exists seq s',
    _generate_sequence n m s = Some (seq, s') /\
    Z.of_nat (List.length seq) = Z.max 1 n /\
    Forall (reachable_symbol m) seq.
Proof.
  intros Hne Hrows. unfold _generate_sequence.
  destruct m as [|e m']; [congruence|]. set (m := e :: m') in *.
  unfold Random.bind at 1.
  destruct (choice_In (Dict.keys m) s) as (x & s1 & Ex & Hx); [discriminate|].
  rewrite Ex.
  destruct (generate_loop_ok m Hne Hrows (range_len (n - 1)) x [x] s1)
    as (seq & s' & E & Hlen & Hall).
  - constructor; [left; exact Hx | constructor].
  - exists seq, s'. split; [exact E|]. split; [|exact Hall].
    rewrite Hlen. unfold range_len. simpl. lia.
Qed.

(** C4 (as amended): for a non-empty table whose rows are non-empty with
    positive weights of a total of at most 2^1000, well inside the float
    range (as every trained table is: its rows sum to 1), a requested
    length of at least 1 and any random source, the generator returns
    exactly that many symbols, each a key of the table or a successor
    listed in one of its rows. *)
Theorem _generate_sequence_length {K} `{EqDec K} (m : list (K * list (K * Q)))
    (n : Z) (s : Random.Source) :
  m <> [] -> rows_ok m -> (1 <= n)%Z ->
  exists seq s',
    _generate_sequence n m s = Some (seq, s') /\
    Z.of_nat (List.length seq) = n /\
    Forall (reachable_symbol m) seq.
Proof.
  intros Hne Hrows Hn.
  destruct (_generate_sequence_ok m n s Hne Hrows) as (seq & s' & E & Hlen & Hall).
  exists seq, s'. split; [exact E|]. split; [lia | exact Hall].
Qed.

Lemma rows_ok_matrix_A_B : rows_ok matrix_A_B.
Proof.
  unfold rows_ok; simpl. constructor; [|constructor].
  split; [discriminate|]. split; [constructor; [reflexivity | constructor]|].
  vm_compute. discriminate.
Qed.

Lemma _generate_sequence_length_witness :
  matrix_A_B <> [] /\ rows_ok matrix_A_B /\ (1 <= 3)%Z /\
  exists seq s',
    _generate_sequence 3 matrix_A_B zero_source = Some (seq, s') /\
    Z.of_nat (List.length seq) = 3%Z /\
    Forall (reachable_symbol matrix_A_B) seq.
Proof.
  split; [discriminate|]. split; [exact rows_ok_matrix_A_B|]. split; [lia|].
  apply (_generate_sequence_length matrix_A_B 3 zero_source);
    [discriminate | exact rows_ok_matrix_A_B | lia].
Defined.

(** C4, as stated, fails on the code in both respects: a row's successor
    need not be a key of the table (B below), and a requested length of 0
    still returns the seed symbol. *)
Lemma _generate_sequence_not_keys :
  (exists s', _generate_sequence 2 matrix_A_B zero_source
              = Some (["A"; "B"]%string, s')) /\
  ~ In "B"%string (Dict.keys matrix_A_B) /\
  (exists s', _generate_sequence 0 matrix_A_B zero_source
              = Some (["A"]%string, s')).
Proof.
  split; [eexists; vm_compute; reflexivity|]. split.
  - simpl. intros [H | []]. discriminate.
  - eexists; vm_compute; reflexivity.
Qed.

End GeneratorFacts.

(** ** Meter schedule *)

Section ScheduleFacts.
Import Meter.
Local Open Scope Z_scope.

Lemma other_sigs_nonempty (cur : TimeSig) : other_sigs cur <> [].
Proof.
  assert (Hin : In (if eq_dec cur ts_4_4 then ts_3_4 else ts_4_4) (other_sigs cur)).
  { unfold other_sigs. apply filter_In.
    destruct (eq_dec cur ts_4_4) as [E | N].
    - subst cur. split; [simpl; tauto | reflexivity].
    - split; [simpl; tauto|].
      destruct (eq_dec ts_4_4 cur); [congruence | reflexivity]. }
  intro E. rewrite E in Hin. exact Hin.
Qed.

Lemma other_sigs_differ (cur sig : TimeSig) : In sig (other_sigs cur) -> sig <> cur.
Proof.
  unfold other_sigs. rewrite filter_In. intros [_ H].
  destruct (eq_dec sig cur); [discriminate | assumption].
Qed.

Lemma schedule_chain_snoc (l : list (Z * TimeSig)) (x y : Z * TimeSig) :
  schedule_chain (l ++ [x]) -> fst x < fst y -> snd x <> snd y ->
  schedule_chain ((l ++ [x]) ++ [y]).
Proof.
  intros Hl Hlt Hne. induction l as [|a l IH].
  - simpl. auto.
  - destruct l as [|b l].
    + simpl in *. destruct Hl as (H1 & H2 & _). auto.
    + change (fst a < fst b /\ snd a <> snd b /\ schedule_chain ((b :: l) ++ [x]))
        in Hl.
      change (fst a < fst b /\ snd a <> snd b /\
              schedule_chain (((b :: l) ++ [x]) ++ [y])).
      destruct Hl as (H1 & H2 & H3). repeat split; auto.
Qed.

Lemma hd_error_snoc {A} (l : list A) (x y : A) :
  hd_error ((l ++ [x]) ++ [y]) = hd_error (l ++ [x]).
Proof. destruct l; reflexivity. Qed.

(** From measure [k >= 2] on: the sequence built so far ends in the entry
    of the current meter, whose measure number is below [k]. *)
Lemma schedule_loop_ok (len k : nat) :
  forall (l : list (Z * TimeSig)) (j : Z) (cur : TimeSig) (s : Random.Source),
    (2 <= k)%nat -> j < Z.of_nat k ->
    schedule_chain (l ++ [(j, cur)]) ->
    exists r s',
      schedule_loop (map Z.of_nat (seq k len)) (l ++ [(j, cur)]) cur s = Some (r, s') /\
      schedule_chain r /\
      hd_error r = hd_error (l ++ [(j, cur)]).
Proof.
  revert k. induction len as [|len IH]; intros k l j cur s Hk Hj Hchain.
  - exists (l ++ [(j, cur)]), s. repeat split; auto.
  - cbn [seq map schedule_loop].
    destruct (Z.ltb_spec 1 (Z.of_nat k)) as [_ | Hbad]; [|lia].
    unfold Random.bind at 1 2. unfold Random.random, Random.bind at 1.
    unfold Random.next_word, Random.ret at 1 2.
    match goal with
    | |- context [Qltb ?u (15 # 100)] => destruct (Qltb u (15 # 100))
    end.
    + unfold Random.bind at 1.
      match goal with
      | |- context [Random.choice (other_sigs cur) ?s1] =>
          destruct (choice_In (other_sigs cur) s1 (other_sigs_nonempty cur))
            as (new_sig & s2 & E & Hin)
      end.
      rewrite E.
      destruct (IH (S k) (l ++ [(j, cur)]) (Z.of_nat k) new_sig s2)
        as (r & s' & Er & Hr & Hhd); [lia | lia | |].
      * apply schedule_chain_snoc; [exact Hchain | exact Hj |].
        simpl. intro Heq. symmetry in Heq. revert Heq.
        apply other_sigs_differ. exact Hin.
      * exists r, s'. split; [exact Er|]. split; [exact Hr|].
        rewrite Hhd. apply hd_error_snoc.
    + destruct (Z.eqb_spec (Z.of_nat k) 1) as [Hbad | _]; [lia|].
      apply IH; [lia | lia | exact Hchain].
Qed.

(** C9 (as amended): with random changes enabled and an estimated measure
    count of at least 1, the schedule starts with (1, base meter), its
    measure numbers increase strictly, and no entry repeats the meter of
    the entry before it. *)
Theorem generate_time_signature_sequence_chain (base_time_sig : TimeSig)
    (num_measures : Z) (s : Random.Source) :
  1 <= num_measures ->
  exists r s',
    generate_time_signature_sequence base_time_sig num_measures true s = Some (r, s') /\
    hd_error r = Some (1, base_time_sig) /\
    schedule_chain r.
Proof.
  intro Hn. unfold generate_time_signature_sequence, range_from_1. cbn [negb].
  destruct (Z.to_nat num_measures) as [|len] eqn:E; [lia|].
  cbn [seq map schedule_loop].
  change (Z.of_nat 1) with 1. cbn [Z.ltb Z.compare Pos.compare Z.eqb Pos.eqb].
  unfold Random.bind at 1. unfold Random.ret at 1. cbn [app].
  destruct (schedule_loop_ok len 2 [] 1 base_time_sig s) as (r & s' & Er & Hr & Hhd);
    [lia | lia | exact I |].
  exists r, s'. split; [exact Er|]. split; [exact Hhd | exact Hr].
Qed.

Lemma generate_time_signature_sequence_chain_witness :
  1 <= 12 /\
  exists r s',
    generate_time_signature_sequence ts_4_4 12 true Markov.zero_source = Some (r, s') /\
    hd_error r = Some (1, ts_4_4) /\
    schedule_chain r.
Proof.
  split; [lia|].
  apply (generate_time_signature_sequence_chain ts_4_4 12 Markov.zero_source). lia.
Defined.

(** C9, as stated for every estimated measure count, fails on the code:
    with a count of 0 the loop body never runs and the schedule is empty,
    so it has no first entry. *)
Lemma generate_time_signature_sequence_empty :
  generate_time_signature_sequence ts_4_4 0 true Markov.zero_source
  = Some ([], Markov.zero_source) /\
  hd_error (@nil (Z * TimeSig)) <> Some (1, ts_4_4).
Proof.
  split; [reflexivity | discriminate].
Qed.

End ScheduleFacts.

(** ** Layout assembler *)

Section LayoutFacts.
Import Range Meter Layout.

Lemma adjust_pitch_rest (note_pitch : NotePitch) (instrument : string) :
  adjust_pitch note_pitch instrument = R <-> note_pitch = R.
Proof.
  destruct note_pitch as [|p]; [tauto|]. simpl.
  unfold adjust_pitch, adjust_pitch_to_range.
  destruct (instrument_range instrument) as [lo hi].
  destruct (fold_into_range _ lo hi p); split; discriminate.
Qed.

(** [enough_fuel] is enough: with it the range normaliser returns, and
    [adjust_pitch] is the pitch it returns. *)
Lemma adjust_pitch_returns (p : Pitch) (instrument : string) :
  exists p',
    adjust_pitch_to_range (enough_fuel p instrument) (Named p) instrument
    = Some (Named p') /\
    adjust_pitch (Named p) instrument = Named p'.
Proof.
  destruct (instrument_range_bounds instrument) as (_ & _ & Hlo & Hwide & Hhi).
  unfold adjust_pitch, adjust_pitch_to_range, enough_fuel.
  destruct (instrument_range instrument) as [lo hi]. cbn [fst snd] in *.
  rewrite fold_into_range_spec by (lia || apply Nat.le_refl).
  eexists. split; reflexivity.
Qed.

Lemma build_time_sig_changes_Forall (P : TimeSig -> Prop)
    (time_sig_sequence : list (Z * TimeSig)) :
  Forall (fun e => P (snd e)) time_sig_sequence ->
  Forall P (Dict.values (build_time_sig_changes time_sig_sequence)).
Proof.
  unfold build_time_sig_changes.
  assert (G : forall (l d : list (Z * TimeSig)),
              Forall (fun e => P (snd e)) l ->
              Forall P (Dict.values d) ->
              Forall P (Dict.values
                (fold_left (fun d e => Dict.set (fst e) (snd e) d) l d))).
  { induction l as [|e l IH]; intros d Hl Hd; simpl; [exact Hd|].
    inversion Hl; subst. apply IH; [assumption|].
    now apply Dict_set_values_Forall. }
  intro H. apply G; [exact H | constructor].
Qed.

Lemma apply_time_sig_change_below (bound : Q) (changes : list (Z * TimeSig))
    (st : State) :
  0 < bound ->
  Forall (fun ts => bound <= get_time_signature_value ts) (Dict.values changes) ->
  below_capacity bound st ->
  below_capacity bound (apply_time_sig_change changes st).
Proof.
  intros Hb Hch (H0 & H1 & H2). unfold apply_time_sig_change.
  destruct (Dict.get (measure_count st) changes) as [new_ts|] eqn:E;
    [|repeat split; assumption].
  destruct (Qeq_bool (measure_duration st) 0) eqn:Ez; [|repeat split; assumption].
  destruct (eq_dec new_ts (current_ts st)); [repeat split; assumption|].
  apply Qeq_bool_iff in Ez.
  pose proof (Dict_get_Forall _ _ _ _ E Hch) as Hcap. simpl in Hcap.
  unfold below_capacity. cbn [measure_duration measure_length]. lra.
Qed.

Lemma place_note_below (bound : Q) (instr_name : string)
    (changes : list (Z * TimeSig)) (st : State) (nd : NoteData) :
  0 < bound ->
  Forall (fun ts => bound <= get_time_signature_value ts) (Dict.values changes) ->
  0 < duration nd <= bound ->
  below_capacity bound st ->
  below_capacity bound (place_note instr_name changes st nd).
Proof.
  intros Hb Hch Hd Hst.
  pose proof (apply_time_sig_change_below bound changes st Hb Hch Hst) as (H0 & H1 & H2).
  unfold place_note. cbv zeta.
  set (st1 := apply_time_sig_change changes st) in *.
  set (remaining := measure_length st1 - measure_duration st1).
  assert (Hrem : 0 < remaining) by (unfold remaining; lra).
  assert (Erem : Qltb 0 remaining = true) by (apply Qltb_lt; exact Hrem).
  rewrite Erem, andb_true_r.
  destruct (Qltb remaining (duration nd)) eqn:Esplit; cbv iota.
  - pose proof (proj1 (Qltb_lt _ _) Esplit) as Hlt. rewrite Esplit.
    assert (Efull : Qle_bool (measure_length st1) (measure_duration st1 + remaining) = true).
    { apply Qle_bool_iff. unfold remaining. lra. }
    rewrite Efull.
    destruct (adjust_pitch (pitch_name nd) instr_name);
      unfold below_capacity; cbn [measure_duration measure_length]; lra.
  - pose proof (proj1 (Qltb_ge _ _) Esplit) as Hge.
    assert (Ecarry : Qltb (duration nd) (duration nd) = false)
      by (apply Qltb_ge; lra).
    rewrite Ecarry.
    destruct (Qle_bool (measure_length st1) (measure_duration st1 + duration nd)) eqn:Efull;
      [|apply not_true_iff_false in Efull; rewrite Qle_bool_iff in Efull];
      destruct (adjust_pitch (pitch_name nd) instr_name);
      unfold below_capacity; cbn [measure_duration measure_length]; lra.
Qed.

(** The capacity invariant holds while no carried remainder can overflow:
    if every duration is positive and at most [bound], and every meter in
    play holds at least [bound] beats, then after each note the running
    duration is strictly below the capacity (a measure that is reached
    exactly has been closed). *)
Lemma assembler_below_capacity (bound : Q) (instr_name : string)
    (time_signature : TimeSig) (time_sig_sequence : list (Z * TimeSig))
    (melody : list NoteData) :
  0 < bound ->
  roomy_meters bound time_signature time_sig_sequence ->
  short_notes bound melody ->
  let st := run_melody instr_name time_signature time_sig_sequence melody in
  0 <= measure_duration st /\ measure_duration st < measure_length st.
Proof.
  intros Hb [Hbase Hseq] Hmel. cbv zeta. unfold run_melody.
  pose proof (build_time_sig_changes_Forall
                (fun ts => bound <= get_time_signature_value ts) _ Hseq) as Hch.
  set (changes := build_time_sig_changes time_sig_sequence) in *.
  assert (G : forall l st, short_notes bound l -> below_capacity bound st ->
              below_capacity bound (fold_left (place_note instr_name changes) l st)).
  { induction l as [|nd l IH]; intros st Hl Hst; simpl; [exact Hst|].
    inversion Hl; subst. apply IH; [assumption|].
    now apply place_note_below. }
  destruct (G melody (initial_state time_signature) Hmel) as (H0 & H1 & _).
  - unfold below_capacity, initial_state. cbn [measure_duration measure_length]. lra.
  - split; assumption.
Qed.

Lemma measure_beats_append (m : Measure) (es : list Element) :
  measure_beats (append_elements m es)
  == measure_beats m + Markov.Qsum (map element_beats es).
Proof.
  unfold measure_beats, append_elements. cbn [elements].
  rewrite map_app. apply Qsum_app.
Qed.

Lemma measure_beats_tie_last_start (m : Measure) :
  measure_beats (tie_last_start m) == measure_beats m.
Proof.
  unfold tie_last_start.
  destruct (rev (elements m)) as [|e before] eqn:E; [reflexivity|].
  destruct e as [mark | ql | p ql v t]; try reflexivity.
  assert (Eel : elements m = rev before ++ [ENote p ql v t]).
  { rewrite <- (rev_involutive (elements m)), E. reflexivity. }
  unfold measure_beats. cbn [elements]. rewrite Eel, !map_app.
  change (Markov.Qsum (map element_beats (rev before)
                       ++ map element_beats [ENote p ql v (Some TieStart)])
          == Markov.Qsum (map element_beats (rev before)
                          ++ map element_beats [ENote p ql v t])).
  rewrite !Qsum_app. reflexivity.
Qed.

Lemma part_beats_snoc (p : list (Measure * Q)) (m : Measure) (c : Q) :
  part_beats (p ++ [(m, c)]) == part_beats p + measure_beats m.
Proof.
  unfold part_beats. rewrite map_app.
  change (Markov.Qsum (map (fun mc => measure_beats (fst mc)) p ++ [measure_beats m])
          == Markov.Qsum (map (fun mc => measure_beats (fst mc)) p) + measure_beats m).
  rewrite Qsum_app, Qsum_cons, Qsum_nil. ring.
Qed.

Lemma measure_beats_fresh (n : Z) : measure_beats (mkMeasure n [] []) = 0.
Proof. reflexivity. Qed.

Lemma placed_beats_apply_time_sig_change (changes : list (Z * TimeSig)) (st : State) :
  placed_beats (apply_time_sig_change changes st) = placed_beats st.
Proof.
  unfold apply_time_sig_change.
  destruct (Dict.get (measure_count st) changes); [|reflexivity].
  destruct (Qeq_bool (measure_duration st) 0); [|reflexivity].
  destruct (eq_dec t (current_ts st)); reflexivity.
Qed.

Ltac beats_norm :=
  unfold placed_beats; cbn [part current_measure];
  rewrite ?part_beats_snoc, ?measure_beats_tie_last_start, ?measure_beats_append,
          ?measure_beats_fresh;
  cbn [map element_beats app];
  rewrite ?Qsum_cons, ?Qsum_nil.

(** Beats accounted for by one step of the loop: the whole duration,
    except for a rest that overflows the measure, of which only the part
    that fits is placed. *)
Lemma place_note_beats (instr_name : string) (changes : list (Z * TimeSig))
    (st : State) (nd : NoteData) :
  let st1 := apply_time_sig_change changes st in
  let remaining_space := measure_length st1 - measure_duration st1 in
  let cut_rest :=
    is_rest (adjust_pitch (pitch_name nd) instr_name)
    && (Qltb remaining_space (duration nd) && Qltb 0 remaining_space) in
  placed_beats (place_note instr_name changes st nd)
  == placed_beats st + (if cut_rest then remaining_space else duration nd).
Proof.
  cbv zeta. rewrite <- (placed_beats_apply_time_sig_change changes st).
  unfold place_note. cbv zeta.
  set (st1 := apply_time_sig_change changes st).
  set (remaining := measure_length st1 - measure_duration st1).
  set (dyn_changed := match current_dynamic st1 with
                      | Some d => if string_dec (dyn nd) d then false else true
                      | None => true
                      end).
  destruct (Qltb remaining (duration nd) && Qltb 0 remaining) eqn:Esplit.
  - apply andb_true_iff in Esplit. destruct Esplit as [E1 E2].
    pose proof (proj1 (Qltb_lt _ _) E1) as Hlt. rewrite E1.
    assert (Efull : Qle_bool (measure_length st1) (measure_duration st1 + remaining) = true).
    { apply Qle_bool_iff. unfold remaining. lra. }
    rewrite Efull.
    destruct (adjust_pitch (pitch_name nd) instr_name) as [|p];
      cbn [is_rest andb]; [|destruct dyn_changed]; beats_norm; ring.
  - assert (Ecarry : Qltb (duration nd) (duration nd) = false)
      by (apply Qltb_ge; lra).
    rewrite Ecarry, andb_false_r.
    destruct (Qle_bool (measure_length st1) (measure_duration st1 + duration nd));
      (destruct (adjust_pitch (pitch_name nd) instr_name) as [|p];
       [|destruct dyn_changed]); beats_norm; ring.
Qed.

(** A melody without rests is placed in full, split notes included. *)
Lemma assembler_places_pitched_in_full (instr_name : string)
    (time_signature : TimeSig) (time_sig_sequence : list (Z * TimeSig))
    (melody : list NoteData) :
  Forall (fun nd => pitch_name nd <> R) melody ->
  placed_beats (run_melody instr_name time_signature time_sig_sequence melody)
  == melody_beats melody.
Proof.
  intro Hp. unfold run_melody, melody_beats.
  set (changes := build_time_sig_changes time_sig_sequence).
  assert (G : forall l st, Forall (fun nd => pitch_name nd <> R) l ->
              placed_beats (fold_left (place_note instr_name changes) l st)
              == placed_beats st + Markov.Qsum (map duration l)).
  { induction l as [|nd l IH]; intros st Hl; simpl.
    - rewrite Qsum_nil. ring.
    - inversion Hl as [|? ? Hnd Hl']; subst.
      rewrite (IH _ Hl'), Qsum_cons.
      pose proof (place_note_beats instr_name changes st nd) as Hstep.
      cbv zeta in Hstep.
      assert (Enr : is_rest (adjust_pitch (pitch_name nd) instr_name) = false).
      { destruct (adjust_pitch (pitch_name nd) instr_name) eqn:E; [|reflexivity].
        apply adjust_pitch_rest in E. contradiction. }
      rewrite Enr in Hstep. cbn [andb] in Hstep. rewrite Hstep. ring. }
  rewrite (G melody _ Hp).
  change (placed_beats (initial_state time_signature)) with (0 + 0).
  change (fold_left Qplus (map duration melody) 0)
    with (Markov.Qsum (map duration melody)).
  ring.
Qed.

(** C1 fails on the code.  In 2/4, a one-beat note followed by a four-beat
    note: the second note is cut to the one beat left, the measure is
    closed, and the three remaining beats are put into the new measure
    unchecked, so the running duration (3) exceeds the capacity (2) and
    the part ends with a measure of three beats.  With the four-beat note
    alone the carried remainder fills the new measure exactly and the
    measure stays open. *)
Theorem assembler_measure_overfull :
  let st := run_melody "Piano" ts_2_4 [] [c5 1; c5 4] in
  let st' := run_melody "Piano" ts_2_4 [] [c5 4] in
  measure_length st == 2 /\
  measure_duration st == 3 /\
  ~ measure_duration st <= measure_length st /\
  Forall2 (fun mc beats => snd mc == 2 /\ measure_beats (fst mc) == beats)
          (assemble_part "Piano" ts_2_4 [] [c5 1; c5 4]) [2; 3] /\
  measure_duration st' == measure_length st' /\
  List.length (part st') = 1%nat /\
  elements (current_measure st') <> [].
Proof.
  cbv zeta. repeat split; try (vm_compute; reflexivity).
  - vm_compute. intro H. apply H. reflexivity.
  - vm_compute.
    repeat constructor.
  - vm_compute. discriminate.
Qed.

(** C2 fails on the code.  In 4/4, a one-beat note followed by a four-beat
    rest: the rest is cut to the three beats left and its last beat is
    never placed; the part is one measure and holds four of the melody's
    five beats. *)
Theorem assembler_rest_remainder_dropped :
  let melody := [c5 1; rest 4] in
  let p := assemble_part "Piano" ts_4_4 [] melody in
  (exists r, map (fun mc => elements (fst mc)) p
             = [[EDynamic "mf"; ENote (natural Cn 5) 1 64 None; ERest r]]
             /\ r == 3) /\
  part_beats p == 4 /\
  melody_beats melody == 5.
Proof.
  cbv zeta. repeat split; try (vm_compute; reflexivity).
  eexists. split; vm_compute; reflexivity.
Qed.

(** C3 fails on the code.  Under the schedule {1: 4/4, 5: 3/4}, when the
    note that completes measure 4 is longer than the space left, its tied
    remainder opens measure 5; the measure is then not empty when the
    next note is read, the change to 3/4 is skipped, and since later
    measures have no entry it is never made: all eight measures are
    filled against a capacity of 4 and none carries the 3/4 signature. *)
Theorem assembler_scheduled_change_skipped :
  let melody := [c5 4; c5 4; c5 4; c5 3; c5 2; c5 3; c5 4; c5 4; c5 4] in
  let p := assemble_part "Piano" ts_4_4 [(1%Z, ts_4_4); (5%Z, ts_3_4)] melody in
  List.length p = 8%nat /\
  Forall (fun mc => snd mc == 4) p /\
  Forall (fun mc => measure_beats (fst mc) == 4) p /\
  Forall (fun mc => ~ In ts_3_4 (time_signatures (fst mc))) p.
Proof.
  cbv zeta. repeat split.
  - vm_compute. repeat constructor.
  - vm_compute. repeat constructor.
  - vm_compute. repeat constructor; intro H; repeat destruct H as [H | H];
      try discriminate H; try exact H.
Qed.

(** The same schedule when measure 4 ends on a note boundary, or on a
    rest cut at the bar line: the change is made at measure 5. *)
Example assembler_scheduled_change_taken :
  Forall2 (fun mc cap => snd mc == cap)
    (assemble_part "Piano" ts_4_4 [(1%Z, ts_4_4); (5%Z, ts_3_4)]
       [c5 4; c5 4; c5 4; c5 4; c5 3; c5 3; c5 3; c5 3])
    [4; 4; 4; 4; 3; 3; 3; 3] /\
  Forall2 (fun mc cap => snd mc == cap)
    (assemble_part "Piano" ts_4_4 [(1%Z, ts_4_4); (5%Z, ts_3_4)]
       [c5 4; c5 4; c5 4; c5 3; rest 2; c5 3; c5 3; c5 3; c5 3])
    [4; 4; 4; 4; 3; 3; 3; 3].
Proof.
  split; vm_compute; repeat constructor.
Qed.

End LayoutFacts.

(** * Further properties *)

(** ** Range normaliser: least move, fixed points, doubled instruments *)

Section RangeMoreFacts.
Import Range Layout.
Local Open Scope Z_scope.

Lemma raise_while_below_fixed (fuel : nat) (lo : Z) (p : Pitch) :
  lo <= midi p -> raise_while_below fuel lo p = Some p.
Proof.
  intro H. destruct fuel; cbn [raise_while_below];
    destruct (Z.ltb_spec (midi p) lo); solve [reflexivity | lia].
Qed.

Lemma lower_while_above_fixed (fuel : nat) (hi : Z) (p : Pitch) :
  midi p <= hi -> lower_while_above fuel hi p = Some p.
Proof.
  intro H. destruct fuel; cbn [lower_while_above];
    destruct (Z.ltb_spec hi (midi p)); solve [reflexivity | lia].
Qed.

(** X1: the range normaliser moves a pitch by the fewest octaves that
    bring it into the instrument's range.  The pitch returned is the
    input shifted by [k] octaves and lies in the range, and no shift by
    fewer octaves lands in the range; so a pitch inside the range is
    returned as it is, a pitch below ends less than an octave above the
    lowest pitch, a pitch above ends less than an octave below the
    highest. *)
Theorem adjust_pitch_to_range_least_move (instrument : string) (p : Pitch) :
  let lo := midi (fst (instrument_range instrument)) in
  let hi := midi (snd (instrument_range instrument)) in
  exists (p' : Pitch) (k : Z),
    p' = octave_shift p k /\
    (forall fuel, (enough_fuel p instrument <= fuel)%nat ->
       adjust_pitch_to_range fuel (Named p) instrument = Some (Named p')) /\
    lo <= midi p' <= hi /\
    (forall j, lo <= midi (octave_shift p j) <= hi -> Z.abs k <= Z.abs j) /\
    (lo <= midi p <= hi -> p' = p) /\
    (midi p < lo -> lo <= midi p' < lo + 12) /\
    (hi < midi p -> hi - 12 < midi p' <= hi).
Proof.
  cbv zeta.
  destruct (instrument_range_bounds instrument) as (_ & _ & Hlo & Hwide & Hhi).
  unfold adjust_pitch_to_range, enough_fuel.
  destruct (instrument_range instrument) as [min_p max_p]. cbn [fst snd] in *.
  destruct (fold_into_range_lands _ _ p Hlo Hwide Hhi)
    as (Em & Hin & Hsame & Hbelow & Habove).
  set (ups := octaves_up (midi min_p) p) in *.
  set (p1 := octave_shift p (Z.of_nat ups)) in *.
  set (downs := octaves_down (midi max_p) p1) in *.
  set (p2 := octave_shift p1 (- Z.of_nat downs)) in *.
  assert (Ek : p2 = octave_shift p (Z.of_nat ups + - Z.of_nat downs)).
  { unfold p2, p1. apply octave_shift_shift. }
  assert (Eps : ps p2 = ps p + 12 * (Z.of_nat ups + - Z.of_nat downs)).
  { rewrite Ek. apply ps_octave_shift. }
  assert (Hb : midi p < midi min_p <-> ps p < midi min_p).
  { rewrite <- !Z.ltb_lt, (midi_below (midi min_p) p) by lia. reflexivity. }
  assert (Ha : midi max_p < midi p <-> midi max_p < ps p).
  { rewrite <- !Z.ltb_lt, (midi_above (midi max_p) p) by lia. reflexivity. }
  exists p2, (Z.of_nat ups + - Z.of_nat downs).
  split; [exact Ek|]. split; [|split; [|split; [|split; [|split]]]].
  - intros fuel Hfuel.
    rewrite (fold_into_range_spec fuel min_p max_p p) by (lia || exact Hfuel).
    reflexivity.
  - rewrite Em. exact Hin.
  - intros j Hj.
    pose proof (midi_in_window _ _ _ Hlo Hhi Hj) as Ej.
    rewrite Ej, ps_octave_shift in Hj.
    destruct (Z_lt_le_dec (ps p) (midi min_p)) as [Hlow | Hnlow].
    + specialize (Hbelow Hlow). lia.
    + destruct (Z_lt_le_dec (midi max_p) (ps p)) as [Hhigh | Hnhigh].
      * specialize (Habove Hhigh). lia.
      * assert (E : p2 = p) by (apply Hsame; lia). rewrite E in Eps. lia.
  - intro H. apply Hsame. rewrite <- (midi_in_window _ _ _ Hlo Hhi H). exact H.
  - intro H. rewrite Em. split; [apply Hin | apply Hbelow, Hb, H].
  - intro H. rewrite Em. split; [apply Habove, Ha, H | apply Hin].
Qed.

(** X2: what the range normaliser returns is a fixed point of it.  The
    desktop front end normalises each melody before passing it to the
    assembler, which normalises again; the second pass changes nothing
    and runs no loop iteration. *)
Theorem adjust_pitch_to_range_idempotent (note_pitch : NotePitch) (instrument : string) :
  exists q fuel0,
    (forall fuel, (fuel0 <= fuel)%nat ->
       adjust_pitch_to_range fuel note_pitch instrument = Some q) /\
    (forall fuel, adjust_pitch_to_range fuel q instrument = Some q).
Proof.
  destruct note_pitch as [|p].
  - exists R, O. split; reflexivity.
  - destruct (instrument_range_bounds instrument) as (_ & _ & Hlo12 & Hwide & Hhi114).
    unfold adjust_pitch_to_range.
    destruct (instrument_range instrument) as [min_p max_p].
    cbn [fst snd] in *.
    destruct (fold_into_range_lands _ _ p Hlo12 Hwide Hhi114) as (Em & [Hlo Hhi] & _).
    rewrite <- Em in Hlo, Hhi.
    eexists. exists (Nat.max (octaves_up (midi min_p) p)
                       (octaves_down (midi max_p)
                          (octave_shift p (Z.of_nat (octaves_up (midi min_p) p))))).
    split.
    + intros fuel Hfuel.
      rewrite (fold_into_range_spec fuel min_p max_p p) by (lia || exact Hfuel).
      reflexivity.
    + intro fuel. cbv beta iota. unfold fold_into_range.
      rewrite raise_while_below_fixed by exact Hlo.
      rewrite lower_while_above_fixed by exact Hhi. reflexivity.
Qed.

(** X3: a doubled instance, named by the base name followed by [" #"] and
    any suffix, is normalised into the range of its base instrument. *)
Theorem adjust_pitch_to_range_doubled (name suffix : string) :
  In name (Dict.keys INSTRUMENT_RANGES) ->
  instrument_range (name ++ " #" ++ suffix) = instrument_range name /\
  forall fuel note_pitch,
    adjust_pitch_to_range fuel note_pitch (name ++ " #" ++ suffix)
    = adjust_pitch_to_range fuel note_pitch name.
Proof.
  intro Hin.
  assert (E : instrument_range (name ++ " #" ++ suffix) = instrument_range name).
  { simpl in Hin.
    repeat (destruct Hin as [Hin | Hin];
            [subst name; destruct suffix; reflexivity|]).
    contradiction. }
  split; [exact E|].
  intros fuel note_pitch. unfold adjust_pitch_to_range. rewrite E. reflexivity.
Qed.

Lemma adjust_pitch_to_range_doubled_witness :
  In "Violin I"%string (Dict.keys INSTRUMENT_RANGES) /\
  instrument_range ("Violin I" ++ " #" ++ "2") = instrument_range "Violin I" /\
  forall fuel note_pitch,
    adjust_pitch_to_range fuel note_pitch ("Violin I" ++ " #" ++ "2")
    = adjust_pitch_to_range fuel note_pitch "Violin I".
Proof.
  split; [simpl; tauto|].
  apply (adjust_pitch_to_range_doubled "Violin I" "2"). simpl; tauto.
Defined.

End RangeMoreFacts.

(** ** Fitting a duration into the space left in a measure *)

Section MeasureFitFacts.
Import Quantizer MeasureFit.

Lemma Qfloor_unique (x : Q) (k : Z) :
  inject_Z k <= x -> x < inject_Z (k + 1) -> Qfloor x = k.
Proof.
  intros Hle Hlt.
  pose proof (Qfloor_le x) as H1. pose proof (Qlt_floor x) as H2.
  assert (A : (k < Qfloor x + 1)%Z).
  { rewrite Zlt_Qlt. eapply Qle_lt_trans; eassumption. }
  assert (B : (Qfloor x < k + 1)%Z).
  { rewrite Zlt_Qlt. eapply Qle_lt_trans; eassumption. }
  lia.
Qed.

Lemma Qfloor_minus_1 (x : Q) : Qfloor (x - 1) = (Qfloor x - 1)%Z.
Proof.
  pose proof (Qfloor_le x) as H1. pose proof (Qlt_floor x) as H2.
  apply Qfloor_unique.
  - replace (Qfloor x - 1)%Z with (Qfloor x + (-1))%Z by lia.
    rewrite inject_Z_plus. change (inject_Z (-1)) with (-1 # 1).
    generalize dependent (inject_Z (Qfloor x)). intros; lra.
  - replace (Qfloor x - 1 + 1)%Z with (Qfloor x) by lia.
    rewrite inject_Z_plus in H2. change (inject_Z 1) with 1 in H2.
    generalize dependent (inject_Z (Qfloor x)). intros; lra.
Qed.

Lemma iterations_stop (t rem q : Q) : rem < t -> iterations t rem q = O.
Proof.
  intro H. unfold iterations.
  destruct (Qle_bool t rem) eqn:E; [|reflexivity].
  apply Qle_bool_iff in E. lra.
Qed.

Lemma iterations_step (t rem q : Q) :
  0 < q -> t <= rem -> iterations t rem q = S (iterations (t + q) rem q).
Proof.
  intros Hq Hle. unfold iterations.
  assert (E : Qle_bool t rem = true) by (apply Qle_bool_iff; exact Hle).
  rewrite E.
  assert (Hnn : 0 <= (rem - t) / q).
  { apply Qle_shift_div_l; lra. }
  assert (Hfl : (0 <= Qfloor ((rem - t) / q))%Z).
  { change 0%Z with (Qfloor 0). apply Qfloor_resp_le. exact Hnn. }
  destruct (Qle_bool (t + q) rem) eqn:E2.
  - assert (Ex : (rem - (t + q)) / q == (rem - t) / q - 1) by (field; lra).
    rewrite (Qfloor_comp _ _ Ex), Qfloor_minus_1. lia.
  - assert (Hlt : rem < t + q).
    { apply Qnot_le_lt. intro H. apply Qle_bool_iff in H. congruence. }
    assert (E0 : Qfloor ((rem - t) / q) = 0%Z).
    { apply Qfloor_unique; [exact Hnn|].
      change (inject_Z (0 + 1)) with 1. apply Qlt_shift_div_r; lra. }
    rewrite E0. reflexivity.
Qed.

(** With fuel for [iterations] rounds the loop ends, having collected
    that many grid steps. *)
Lemma collect_durations_enough (fuel : nat) (rem q : Q) :
  0 < q ->
  forall (t : Q) (pd : list Q),
    (iterations t rem q <= fuel)%nat ->
    collect_durations fuel t rem q pd
    = Some (pd ++ grid_from t q (iterations t rem q)).
Proof.
  intro Hq. induction fuel as [|fuel IH]; intros t pd Hfuel;
    cbn [collect_durations]; destruct (Qle_bool t rem) eqn:E.
  - apply Qle_bool_iff in E. rewrite (iterations_step t rem q Hq E) in Hfuel. lia.
  - unfold iterations. rewrite E. cbn [grid_from]. now rewrite app_nil_r.
  - apply Qle_bool_iff in E. rewrite (iterations_step t rem q Hq E) in *.
    rewrite IH by lia. cbn [grid_from]. now rewrite <- app_assoc.
  - unfold iterations. rewrite E. cbn [grid_from]. now rewrite app_nil_r.
Qed.

(** The collected values: each a whole number of grid steps from the
    first, none above the space left, the last within one step of it. *)
Lemma grid_from_iterations (rem q : Q) :
  0 < q ->
  forall (n : nat) (t : Q),
    n = iterations t rem q ->
    Forall (fun x => x <= rem /\
                     exists j : Z, (0 <= j)%Z /\ x == t + inject_Z j * q)
           (grid_from t q n) /\
    (n <> O -> rem < last (grid_from t q n) 0 + q).
Proof.
  intro Hq. induction n as [|n IH]; intros t Hn.
  - split; [constructor | congruence].
  - assert (Hle : t <= rem).
    { destruct (Qlt_le_dec rem t) as [Hlt | Hle]; [|exact Hle].
      rewrite (iterations_stop t rem q Hlt) in Hn. discriminate. }
    rewrite (iterations_step t rem q Hq Hle) in Hn. injection Hn as Hn.
    destruct (IH (t + q) Hn) as [Hall Hlast]. cbn [grid_from]. split.
    + constructor.
      * split; [exact Hle|]. exists 0%Z. split; [lia|].
        change (inject_Z 0) with 0. ring.
      * eapply Forall_impl; [|exact Hall].
        intros x [Hx (j & Hj & Ej)]. split; [exact Hx|].
        exists (j + 1)%Z. split; [lia|].
        rewrite Ej, inject_Z_plus. change (inject_Z 1) with 1. ring.
    + intros _. destruct n as [|n].
      * cbn [grid_from last].
        destruct (Qlt_le_dec rem (t + q)) as [Hlt | Hge]; [exact Hlt|].
        rewrite (iterations_step (t + q) rem q Hq Hge) in Hn. discriminate.
      * change (last (t :: grid_from (t + q) q (S n)) 0)
          with (last (grid_from (t + q) q (S n)) 0).
        apply Hlast. discriminate.
Qed.

Lemma rev_last_head {A} (l : list A) (d : A) :
  l <> [] -> exists l', rev l = last l d :: l'.
Proof.
  intro Hne. exists (rev (removelast l)).
  rewrite (app_removelast_last d Hne) at 1.
  rewrite rev_app_distr. reflexivity.
Qed.

Lemma offered_grid_bounds (g : Q) : offered_grid g -> 1 # 4 <= g <= 2.
Proof.
  intros (name & g' & Hin & Eg). rewrite Eg. simpl in Hin.
  destruct Hin as [H | [H | [H | [H | []]]]]; inversion H; subst g';
    split; discriminate.
Qed.

Lemma offered_grid_half : offered_grid (1 # 2).
Proof.
  exists "Colcheia"%string, (1 # 2). split; [|reflexivity].
  simpl. right. right. left. reflexivity.
Qed.

Lemma clamp_positive (q0 : Q) : 1 # 8 <= clamp q0.
Proof.
  destruct (clamp_cases q0) as [[_ E] | [[_ E] | [[H _] E]]]; rewrite E; lra.
Qed.

(** X4: for a grid the program offers, a duration whose quotient by the
    grid does not overflow a float and a space left of at most 2^40
    beats (so that the loop adds the grid exactly), [quantize_to_measure]
    returns, and what it returns fits the space left in the measure; when
    there is space left at all the result is a positive duration. *)
Theorem quantize_to_measure_fits (duration remaining_space quantization : Q) :
  offered_grid quantization ->
  Qabs (duration / quantization) < FLOAT_OVERFLOW ->
  remaining_space <= FLOAT_EXACT ->
  exists r fuel0,
    (forall fuel, (fuel0 <= fuel)%nat ->
       quantize_to_measure fuel duration remaining_space quantization = Returned r) /\
    r <= remaining_space /\
    (0 < remaining_space -> 0 < r).
Proof.
  intros Hoff Hfin _. pose proof (offered_grid_bounds _ Hoff) as Hg.
  assert (Hq : 0 < quantization) by lra.
  unfold quantize_to_measure.
  rewrite (quantize_duration_unfold duration quantization) by (lra || exact Hfin).
  set (quantized := clamp _).
  pose proof (clamp_positive (inject_Z (py_round (duration / quantization)) * quantization))
    as Hqpos. fold quantized in Hqpos.
  destruct (Qle_bool quantized remaining_space) eqn:E.
  - apply Qle_bool_iff in E. exists quantized, O. repeat split; [exact E | lra].
  - set (n := iterations quantization remaining_space quantization).
    destruct (grid_from_iterations remaining_space quantization Hq n quantization eq_refl)
      as [Hall _].
    destruct n as [|n'] eqn:En.
    + exists remaining_space, O. split; [|split; [lra | tauto]].
      intros fuel _.
      rewrite (collect_durations_enough fuel remaining_space quantization Hq) by (fold n; lia).
      fold n. rewrite En. reflexivity.
    + destruct (rev_last_head (grid_from quantization quantization (S n')) 0)
        as (l' & El); [discriminate|].
      exists (last (grid_from quantization quantization (S n')) 0), (S n').
      assert (Hin : In (last (grid_from quantization quantization (S n')) 0)
                       (grid_from quantization quantization (S n'))).
      { rewrite (in_rev (grid_from quantization quantization (S n'))), El. now left. }
      rewrite Forall_forall in Hall.
      destruct (Hall _ Hin) as [Hle (j & Hj & Ej)].
      split; [|split; [exact Hle|]].
      * intros fuel Hfuel.
        rewrite (collect_durations_enough fuel remaining_space quantization Hq)
          by (fold n; lia).
        fold n. rewrite En. cbn [app]. rewrite El. reflexivity.
      * intros _. rewrite Ej. rewrite Zle_Qle in Hj.
        change (inject_Z 0) with 0 in Hj.
        generalize dependent (inject_Z j). intros; nra.
Qed.

Lemma quantize_to_measure_fits_witness :
  offered_grid (1 # 2) /\
  exists r fuel0,
    (forall fuel, (fuel0 <= fuel)%nat ->
       quantize_to_measure fuel 3 (7 # 4) (1 # 2) = Returned r) /\
    r <= 7 # 4 /\
    (0 < 7 # 4 -> 0 < r).
Proof.
  split; [exact offered_grid_half|].
  apply (quantize_to_measure_fits 3 (7 # 4) (1 # 2));
    [exact offered_grid_half | vm_compute; reflexivity | vm_compute; discriminate].
Defined.

(** X5: for a grid the program offers, a duration whose quotient by the
    grid does not overflow a float and a space left of at most 2^40
    beats: when the quantized duration does not fit but at least one grid
    step does, [quantize_to_measure] returns the largest whole number of
    grid steps that fits: one more step would pass the end of the
    measure. *)
Theorem quantize_to_measure_largest_step (duration remaining_space quantization : Q) :
  offered_grid quantization ->
  Qabs (duration / quantization) < FLOAT_OVERFLOW ->
  remaining_space <= FLOAT_EXACT ->
  quantization <= remaining_space ->
  (forall quantized, quantize_duration duration quantization = Some quantized ->
                     remaining_space < quantized) ->
  exists (r : Q) (k : Z) (fuel0 : nat),
    (forall fuel, (fuel0 <= fuel)%nat ->
       quantize_to_measure fuel duration remaining_space quantization = Returned r) /\
    (1 <= k)%Z /\
    r == inject_Z k * quantization /\
    r <= remaining_space /\
    remaining_space < r + quantization.
Proof.
  intros Hoff Hfin _ Hfit Hover. pose proof (offered_grid_bounds _ Hoff) as Hg.
  assert (Hq : 0 < quantization) by lra.
  unfold quantize_to_measure.
  rewrite (quantize_duration_unfold duration quantization) in * by (lra || exact Hfin).
  set (quantized := clamp _) in *.
  specialize (Hover quantized eq_refl).
  assert (E : Qle_bool quantized remaining_space = false).
  { apply not_true_iff_false. intro H. apply Qle_bool_iff in H. lra. }
  rewrite E.
  set (n := iterations quantization remaining_space quantization).
  destruct (grid_from_iterations remaining_space quantization Hq n quantization eq_refl)
    as [Hall Hlast].
  assert (Hn : n <> O).
  { unfold n. rewrite (iterations_step _ _ _ Hq Hfit). discriminate. }
  destruct (rev_last_head (grid_from quantization quantization n) 0) as (l' & El).
  { destruct n; [congruence | discriminate]. }
  assert (Hin : In (last (grid_from quantization quantization n) 0)
                   (grid_from quantization quantization n)).
  { rewrite (in_rev (grid_from quantization quantization n)), El. now left. }
  rewrite Forall_forall in Hall.
  destruct (Hall _ Hin) as [Hle (j & Hj & Ej)].
  exists (last (grid_from quantization quantization n) 0), (j + 1)%Z, n.
  split; [|split; [lia | split; [|split; [exact Hle | exact (Hlast Hn)]]]].
  - intros fuel Hfuel.
    rewrite (collect_durations_enough fuel remaining_space quantization Hq)
      by (fold n; lia).
    fold n. cbn [app]. rewrite El. reflexivity.
  - rewrite Ej, inject_Z_plus. change (inject_Z 1) with 1. ring.
Qed.

Lemma quantize_to_measure_largest_step_witness :
  offered_grid (1 # 2) /\ 1 # 2 <= 7 # 4 /\
  (forall quantized, quantize_duration 3 (1 # 2) = Some quantized -> 7 # 4 < quantized) /\
  exists (r : Q) (k : Z) (fuel0 : nat),
    (forall fuel, (fuel0 <= fuel)%nat ->
       quantize_to_measure fuel 3 (7 # 4) (1 # 2) = Returned r) /\
    (1 <= k)%Z /\
    r == inject_Z k * (1 # 2) /\
    r <= 7 # 4 /\
    7 # 4 < r + (1 # 2).
Proof.
  assert (H : forall quantized,
             quantize_duration 3 (1 # 2) = Some quantized -> 7 # 4 < quantized).
  { intros quantized E. vm_compute in E. injection E as <-. reflexivity. }
  split; [exact offered_grid_half|]. split; [discriminate|]. split; [exact H|].
  apply (quantize_to_measure_largest_step 3 (7 # 4) (1 # 2));
    [exact offered_grid_half | vm_compute; reflexivity | vm_compute; discriminate
     | discriminate | exact H].
Defined.

Example quantize_to_measure_example :
  quantize_to_measure 3 3 (7 # 4) (1 # 2)
  = Returned ((1 # 2) + (1 # 2) + (1 # 2)).
Proof. reflexivity. Qed.

End MeasureFitFacts.

(** ** Dynamics *)

Section DynamicsFacts.
Import Dynamics.
Local Open Scope Z_scope.

(** X6: a velocity is mapped to the level numbered by its bucket of
    sixteen velocities: level [v / 16] of the eight levels ordered from
    [ppp] to [fff], with everything below 0 in the first and everything
    from 112 up in the last.  A louder velocity therefore never gets a
    softer mark. *)
Theorem map_velocity_to_dynamic_bucket (v : Z) :
  map_velocity_to_dynamic (Some v)
  = nth (Z.to_nat (Z.min 7 (v / 16))) DYNAMIC_LEVELS "ppp"%string.
Proof.
  unfold map_velocity_to_dynamic.
  assert (Hb : forall k, 0 <= k ->
             (v <? 16 * k) = false -> (v <? 16 * (k + 1)) = true ->
             Z.min 7 (v / 16) = Z.min 7 k).
  { intros k Hk H1 H2. apply Z.ltb_ge in H1. apply Z.ltb_lt in H2.
    assert (v / 16 = k) by (Z.to_euclidean_division_equations; lia).
    congruence. }
  destruct (v <? 16) eqn:E1.
  { apply Z.ltb_lt in E1.
    assert (Z.to_nat (Z.min 7 (v / 16)) = O)
      by (Z.to_euclidean_division_equations; lia).
    rewrite H. reflexivity. }
  destruct (v <? 32) eqn:E2; [rewrite (Hb 1); [reflexivity | lia | exact E1 | exact E2]|].
  destruct (v <? 48) eqn:E3; [rewrite (Hb 2); [reflexivity | lia | exact E2 | exact E3]|].
  destruct (v <? 64) eqn:E4; [rewrite (Hb 3); [reflexivity | lia | exact E3 | exact E4]|].
  destruct (v <? 80) eqn:E5; [rewrite (Hb 4); [reflexivity | lia | exact E4 | exact E5]|].
  destruct (v <? 96) eqn:E6; [rewrite (Hb 5); [reflexivity | lia | exact E5 | exact E6]|].
  destruct (v <? 112) eqn:E7; [rewrite (Hb 6); [reflexivity | lia | exact E6 | exact E7]|].
  apply Z.ltb_ge in E7.
  assert (Z.min 7 (v / 16) = 7) by (Z.to_euclidean_division_equations; lia).
  rewrite H. reflexivity.
Qed.

End DynamicsFacts.

(** ** Dictionaries and loops, continued *)

Section DictMoreFacts.
Context {K V : Type} `{EqDec K}.

Lemma Dict_get_set_eq (k : K) (v : V) (d : list (K * V)) :
  Dict.get k (Dict.set k v d) = Some v.
Proof.
  induction d as [|[k' v'] d IH]; simpl.
  - destruct (eq_dec k k); [reflexivity | congruence].
  - destruct (eq_dec k k') as [E | N]; simpl.
    + destruct (eq_dec k k'); [reflexivity | congruence].
    + destruct (eq_dec k k'); [congruence | exact IH].
Qed.

Lemma Dict_get_set_neq (k k' : K) (v : V) (d : list (K * V)) :
  k <> k' -> Dict.get k' (Dict.set k v d) = Dict.get k' d.
Proof.
  intro N. induction d as [|[k0 v0] d IH]; simpl.
  - destruct (eq_dec k' k); [congruence | reflexivity].
  - destruct (eq_dec k k0) as [E | N0]; simpl.
    + destruct (eq_dec k' k0); [congruence | reflexivity].
    + destruct (eq_dec k' k0); [reflexivity | exact IH].
Qed.

Lemma Dict_set_keys_Forall (P : K -> Prop) (k : K) (v : V) (d : list (K * V)) :
  Forall P (Dict.keys d) -> P k -> Forall P (Dict.keys (Dict.set k v d)).
Proof.
  intros Hd Hk. induction d as [|[k' v'] d IH]; simpl.
  - constructor; [exact Hk | constructor].
  - inversion Hd; subst. destruct (eq_dec k k'); simpl.
    + constructor; assumption.
    + constructor; [assumption | now apply IH].
Qed.

Lemma Dict_keys_set (k : K) (v : V) (d : list (K * V)) (x : K) :
  In x (Dict.keys (Dict.set k v d)) <-> x = k \/ In x (Dict.keys d).
Proof.
  induction d as [|[k' v'] d IH]; simpl.
  - intuition congruence.
  - destruct (eq_dec k k') as [E | N]; simpl.
    + subst. intuition congruence.
    + rewrite IH. intuition congruence.
Qed.

Lemma Dict_get_Some_key (k : K) (d : list (K * V)) :
  In k (Dict.keys d) -> exists v, Dict.get k d = Some v.
Proof.
  induction d as [|[k' v'] d IH]; simpl; [tauto|].
  intros [E | Hin]; destruct (eq_dec k k') as [E' | N]; eauto; congruence.
Qed.

(** Assigning keeps keys unique. *)
Lemma Dict_set_NoDup (k : K) (v : V) (d : list (K * V)) :
  NoDup (Dict.keys d) -> NoDup (Dict.keys (Dict.set k v d)).
Proof.
  induction d as [|[k' v'] d IH]; simpl; intro Hnd.
  - constructor; [simpl; tauto | constructor].
  - inversion Hnd; subst. destruct (eq_dec k k') as [E | N]; simpl.
    + constructor; assumption.
    + constructor; [|now apply IH].
      intro Hin. apply Dict_keys_set in Hin. destruct Hin; [congruence | contradiction].
Qed.

End DictMoreFacts.

Section LoopFacts.
Import Markov.

Lemma for_range_S {A} (n : nat) (body : nat -> A -> option A) (init : A) :
  for_range (S n) body init
  = match for_range n body init with
    | Some a => body n a
    | None => None
    end.
Proof.
  unfold for_range. rewrite seq_S, fold_left_app. reflexivity.
Qed.

Lemma for_range_indexed {A} (P : nat -> A -> Prop) (n : nat)
    (body : nat -> A -> option A) (init : A) :
  (forall i a, (i < n)%nat -> P i a -> exists a', body i a = Some a' /\ P (S i) a') ->
  P O init ->
  exists r, for_range n body init = Some r /\ P n r.
Proof.
  intros Hbody Hinit. induction n as [|n IH].
  - exists init. split; [reflexivity | exact Hinit].
  - destruct IH as (r & E & Hr).
    + intros i a Hi. apply Hbody. lia.
    + rewrite for_range_S, E. apply Hbody; [lia | exact Hr].
Qed.

End LoopFacts.

(** ** Trainer: which symbols the tables hold *)

Section TrainMoreFacts.
Import Range Markov Generation.

Lemma count_transition_keys_in {K S} `{EqDec K} `{EqDec S} (P : K -> Prop)
    (m : list (K * list (S * Q))) (cur : K) (next : S) :
  keys_in P m -> P cur -> keys_in P (count_transition m cur next).
Proof.
  intros Hm Hc. unfold count_transition, keys_in.
  now apply Dict_set_keys_Forall.
Qed.

Lemma count_transition_successors_in {K S} `{EqDec K} `{EqDec S} (P : S -> Prop)
    (m : list (K * list (S * Q))) (cur : K) (next : S) :
  successors_in P m -> P next -> successors_in P (count_transition m cur next).
Proof.
  intros Hm Hn. unfold count_transition, successors_in.
  apply Dict_set_values_Forall; [exact Hm|].
  apply Dict_set_keys_Forall; [|exact Hn].
  destruct (Dict.get cur m) as [r|] eqn:E; [|constructor].
  exact (Dict_get_Forall _ _ _ _ E Hm).
Qed.

Lemma count_transition_nonempty {K S} `{EqDec K} `{EqDec S}
    (m : list (K * list (S * Q))) (cur : K) (next : S) :
  count_transition m cur next <> [].
Proof. apply Dict_set_nonempty. Qed.

Lemma keys_map_values {X A B} (g : X * A -> B) (l : list (X * A)) :
  Dict.keys (map (fun kc => (fst kc, g kc)) l) = Dict.keys l.
Proof.
  induction l as [|e l IH]; [reflexivity|]. simpl. f_equal. exact IH.
Qed.

Lemma divide_by_total_keys {X} (row row' : list (X * Q)) :
  divide_by_total row = Some row' -> Dict.keys row' = Dict.keys row.
Proof.
  unfold divide_by_total. destruct row as [|e row].
  - intro E. injection E as <-. reflexivity.
  - destruct (Qeq_bool _ 0); [discriminate|]. intro E.
    apply (f_equal (fun o => match o with Some r => Dict.keys r | None => [] end)) in E.
    rewrite <- E. apply (keys_map_values (fun kc => snd kc / _) (e :: row)).
Qed.

Lemma _normalize_matrix_keeps {K S} (PK : K -> Prop) (PS : S -> Prop)
    (m m' : list (K * list (S * Q))) :
  _normalize_matrix m = Some m' ->
  Dict.keys m' = Dict.keys m /\
  (successors_in PS m -> successors_in PS m').
Proof.
  revert m'. induction m as [|[state row] m IH]; intros m' E.
  - injection E as <-. split; [reflexivity | auto].
  - cbn [_normalize_matrix] in E.
    destruct (divide_by_total row) as [row'|] eqn:Er; [|discriminate].
    destruct (_normalize_matrix m) as [rest'|] eqn:Em; [|discriminate].
    injection E as <-. destruct (IH rest' eq_refl) as [Hk Hs]. split.
    + simpl. f_equal. exact Hk.
    + unfold successors_in. simpl. intro Hall. inversion Hall; subst.
      constructor; [|now apply Hs].
      rewrite (divide_by_total_keys row row' Er). assumption.
Qed.

Lemma _normalize_matrix_symbols {K} (P : K -> Prop) (m m' : list (K * list (K * Q))) :
  _normalize_matrix m = Some m' -> symbols_in P m -> symbols_in P m'.
Proof.
  intros E [Hk Hs]. destruct (_normalize_matrix_keeps P P m m' E) as [Ek Hs'].
  split; [rewrite Ek; exact Hk | now apply Hs'].
Qed.

Lemma _normalize_matrix_nonempty {K S} (m m' : list (K * list (S * Q))) :
  _normalize_matrix m = Some m' -> (m = [] <-> m' = []).
Proof.
  intro E.
  destruct (_normalize_matrix_keeps (fun _ => True) (fun _ => True) m m' E) as [Ek _].
  destruct m, m'; simpl in Ek; try discriminate; split; congruence.
Qed.

(** The counting loop of the axis tables: it cannot fail, every key and
    successor it records is an attribute of a corpus note, and the tables
    are empty exactly when the corpus has no pair of neighbours. *)
Lemma count_separate_symbols (notes : list Note) :
  exists pc dc vc,
    count_separate ([], [], []) notes = Some (pc, dc, vc) /\
    (counted pc /\ counted dc /\ counted vc) /\
    (symbols_in (fun x => In x (map pitch notes)) pc /\
     symbols_in (fun x => In x (map duration notes)) dc /\
     symbols_in (fun x => In x (map velocity notes)) vc) /\
    ((2 <= List.length notes)%nat -> pc <> [] /\ dc <> [] /\ vc <> []) /\
    ((List.length notes <= 1)%nat -> pc = [] /\ dc = [] /\ vc = []).
Proof.
  set (body := fun (i : nat)
      (ms : list (NotePitch * list (NotePitch * Q))
            * list (Qc * list (Qc * Q)) * list (Z * list (Z * Q))) =>
      let '(pm, dm, vm) := ms in
      match nth_error notes i, nth_error notes (i + 1) with
      | Some current_state, Some next_state =>
          Some (count_transition pm (pitch current_state) (pitch next_state),
                count_transition dm (duration current_state) (duration next_state),
                count_transition vm (velocity current_state) (velocity next_state))
      | _, _ => None
      end).
  set (n := range_len (Z.of_nat (List.length notes) - 1)).
  assert (Hrun : exists ms, for_range n body ([], [], []) = Some ms /\
            (counted (fst (fst ms)) /\ counted (snd (fst ms)) /\ counted (snd ms)) /\
            (symbols_in (fun x => In x (map pitch notes)) (fst (fst ms)) /\
             symbols_in (fun x => In x (map duration notes)) (snd (fst ms)) /\
             symbols_in (fun x => In x (map velocity notes)) (snd ms))).
  { apply (for_range_invariant
             (fun ms => (counted (fst (fst ms)) /\ counted (snd (fst ms)) /\ counted (snd ms)) /\
                (symbols_in (fun x => In x (map pitch notes)) (fst (fst ms)) /\
                 symbols_in (fun x => In x (map duration notes)) (snd (fst ms)) /\
                 symbols_in (fun x => In x (map velocity notes)) (snd ms)))).
    - intros i [[pm dm] vm] Hi ((Cp & Cd & Cv) & ([Kp Sp] & [Kd Sd] & [Kv Sv])).
      cbn [fst snd] in *. unfold n, range_len in Hi. unfold body.
      destruct (nth_error notes i) as [cur|] eqn:E1;
        [|apply nth_error_None in E1; lia].
      destruct (nth_error notes (i + 1)) as [nxt|] eqn:E2;
        [|apply nth_error_None in E2; lia].
      apply nth_error_In in E1, E2.
      eexists. split; [reflexivity|]. cbn [fst snd].
      split; [repeat split; now apply count_transition_counted|].
      repeat split;
        first [ apply count_transition_keys_in; [assumption | now apply in_map]
              | apply count_transition_successors_in; [assumption | now apply in_map] ].
    - cbn [fst snd]. repeat split; constructor. }
  destruct Hrun as ([[pc dc] vc] & E & HC & HS). cbn [fst snd] in *.
  exists pc, dc, vc. unfold count_separate. fold body. fold n.
  split; [exact E|]. split; [exact HC|]. split; [exact HS|]. split.
  - intro Hlen. destruct n as [|k] eqn:En; [unfold n, range_len in En; lia|].
    rewrite for_range_S in E.
    destruct (for_range k body ([], [], [])) as [[[pm dm] vm]|]; [|discriminate].
    unfold body in E.
    destruct (nth_error notes k); [|discriminate].
    destruct (nth_error notes (k + 1)); [|discriminate].
    injection E as <- <- <-. repeat split; apply count_transition_nonempty.
  - intro Hlen. assert (En : n = O) by (unfold n, range_len; lia).
    rewrite En in E. injection E as <- <- <-. auto.
Qed.

Lemma train_returns (states notes : list Note) (order : nat) :
  notes <> [] ->
  exists model, train (fresh_model states order) notes = Some model.
Proof.
  intro Hne. destruct notes as [|n0 notes]; [congruence|].
  set (all_notes := n0 :: notes).
  destruct (divide_initial_ok order all_notes) as (ip & Eip).
  destruct (count_joint_counted order all_notes) as (tc & Etc & Htc).
  destruct (count_separate_counted all_notes) as (pc & dc & vc & Ems & Hpc & Hdc & Hvc).
  destruct (_normalize_matrix_ok tc Htc) as (tm & Etm & _).
  destruct (_normalize_matrix_ok pc Hpc) as (pm & Epm & _).
  destruct (_normalize_matrix_ok dc Hdc) as (dm & Edm & _).
  destruct (_normalize_matrix_ok vc Hvc) as (vm & Evm & _).
  exists (mkModel states order ip tm pm dm vm).
  unfold train, fresh_model. fold all_notes.
  cbn [initial_probabilities transition_matrix pitch_matrix duration_matrix
       velocity_matrix Markov.order Markov.states].
  unfold all_notes at 1.
  rewrite Eip. cbn [obind]. rewrite Etc. cbn [obind]. rewrite Etm. cbn [obind].
  rewrite Ems. cbn [obind]. rewrite Epm. cbn [obind]. rewrite Edm. cbn [obind].
  rewrite Evm. reflexivity.
Qed.

(** What a successful [train] did. *)
Lemma train_inversion (self model : Model) (notes : list Note) :
  train self notes = Some model ->
  states model = states self /\ order model = order self /\
  divide_by_total (count_initial (initial_probabilities self) (order self) notes)
    = Some (initial_probabilities model) /\
  (exists tc, count_joint (transition_matrix self) (order self) notes = Some tc /\
              _normalize_matrix tc = Some (transition_matrix model)) /\
  (exists pc dc vc,
     count_separate (pitch_matrix self, duration_matrix self, velocity_matrix self) notes
       = Some (pc, dc, vc) /\
     _normalize_matrix pc = Some (pitch_matrix model) /\
     _normalize_matrix dc = Some (duration_matrix model) /\
     _normalize_matrix vc = Some (velocity_matrix model)).
Proof.
  unfold train. destruct notes as [|n0 notes]; [discriminate|].
  set (all_notes := n0 :: notes).
  destruct (divide_by_total _) as [ip|] eqn:Eip; [|discriminate]. cbn [obind].
  destruct (count_joint _ _ _) as [tc|] eqn:Etc; [|discriminate]. cbn [obind].
  destruct (_normalize_matrix tc) as [tm|] eqn:Etm; [|discriminate]. cbn [obind].
  destruct (count_separate _ _) as [[[pc dc] vc]|] eqn:Ems; [|discriminate]. cbn [obind].
  destruct (_normalize_matrix pc) as [pm|] eqn:Epm; [|discriminate]. cbn [obind].
  destruct (_normalize_matrix dc) as [dm|] eqn:Edm; [|discriminate]. cbn [obind].
  destruct (_normalize_matrix vc) as [vm|] eqn:Evm; [|discriminate]. cbn [obind].
  intro E. injection E as <-.
  cbn [initial_probabilities transition_matrix pitch_matrix duration_matrix
       velocity_matrix Markov.order Markov.states].
  repeat split; try reflexivity.
  - exists tc. split; [reflexivity | exact Etm].
  - exists pc, dc, vc. repeat split; assumption.
Qed.

End TrainMoreFacts.

(** ** Melody generation *)

Section GenerationFacts.
Import Range Markov Dynamics Generation.

Lemma combine_sequences_ok (length : Z) (ps : list NotePitch) (ds : list Qc)
    (vs : list Z) :
  (range_len length <= List.length ps)%nat ->
  (range_len length <= List.length ds)%nat ->
  (range_len length <= List.length vs)%nat ->
  exists melody,
    combine_sequences length ps ds vs = Some melody /\
    List.length melody = range_len length /\
    Forall (fun n => well_formed_note n /\
                     In (pitch n) ps /\ In (duration n) ds /\ In (velocity n) vs)
           melody.
Proof.
  intros Hp Hd Hv. unfold combine_sequences.
  apply (for_range_indexed
           (fun i melody =>
              List.length melody = i /\
              Forall (fun n => well_formed_note n /\
                               In (pitch n) ps /\ In (duration n) ds /\ In (velocity n) vs)
                     melody)).
  - intros i melody Hi [Hlen Hall].
    destruct (nth_error ps i) as [p|] eqn:Ep; [|apply nth_error_None in Ep; lia].
    destruct (nth_error ds i) as [d|] eqn:Ed; [|apply nth_error_None in Ed; lia].
    destruct (nth_error vs i) as [v|] eqn:Ev; [|apply nth_error_None in Ev; lia].
    apply nth_error_In in Ep, Ed, Ev.
    eexists. split; [reflexivity|]. split.
    + rewrite length_app. simpl. lia.
    + apply Forall_app. split; [exact Hall|].
      constructor; [|constructor]. cbn. repeat split; assumption.
  - split; [reflexivity | constructor].
Qed.

Lemma generate_all_loop_ok (self : Model) (length : Z) :
  axes_ready self ->
  forall (instruments : list string) (md : list (string * list Note))
         (sd : list (string * Sequences)) (src : Random.Source),
    (forall i m, Dict.get i md = Some m -> generated_melody self length m) ->
    exists md' sd' src',
      generate_all_loop self instruments length md sd src = Some ((md', sd'), src') /\
      (forall i m, Dict.get i md' = Some m -> generated_melody self length m) /\
      (forall i, In i instruments \/ In i (Dict.keys md) -> In i (Dict.keys md')).
Proof.
  intros ((Np & Rp) & (Nd & Rd) & (Nv & Rv)).
  induction instruments as [|instrument rest IH]; intros md sd src Hmd.
  - exists md, sd, src. split; [reflexivity|]. split; [exact Hmd|].
    intros i [[] | Hi]; exact Hi.
  - cbn [generate_all_loop]. unfold Random.bind.
    destruct (_generate_sequence_ok (pitch_matrix self) length src Np Rp)
      as (ps & s1 & E1 & L1 & A1).
    destruct (_generate_sequence_ok (duration_matrix self) length s1 Nd Rd)
      as (ds & s2 & E2 & L2 & A2).
    destruct (_generate_sequence_ok (velocity_matrix self) length s2 Nv Rv)
      as (vs & s3 & E3 & L3 & A3).
    rewrite E1, E2, E3.
    destruct (combine_sequences_ok length ps ds vs) as (melody & Ec & Lm & Am);
      try (unfold range_len; lia).
    rewrite Ec.
    destruct (IH (Dict.set instrument melody md)
                 (Dict.set instrument (mkSequences ps ds vs) sd) s3)
      as (md' & sd' & src' & E & Hgood & Hkeys).
    + intros i m. destruct (string_dec instrument i) as [<- | N].
      * rewrite Dict_get_set_eq. intro Em. injection Em as <-.
        split; [unfold range_len in Lm; lia|].
        rewrite Forall_forall in A1, A2, A3, Am. apply Forall_forall.
        intros n Hn. destruct (Am n Hn) as (Hw & Hp & Hd & Hv).
        split; [exact Hw|]. split; [apply A1; exact Hp|].
        split; [apply A2; exact Hd | apply A3; exact Hv].
      * rewrite Dict_get_set_neq by exact N. apply Hmd.
    + exists md', sd', src'. split; [exact E|]. split; [exact Hgood|].
      intros i Hi. apply Hkeys.
      destruct Hi as [[<- | Hi] | Hi].
      * right. apply Dict_keys_set. now left.
      * left. exact Hi.
      * right. apply Dict_keys_set. now right.
Qed.

Lemma reachable_symbols_in {K} (P : K -> Prop) (m : list (K * list (K * Q))) (x : K) :
  symbols_in P m -> reachable_symbol m x -> P x.
Proof.
  intros [Hk Hs] [Hin | (row & Hrow & Hin)].
  - rewrite Forall_forall in Hk. now apply Hk.
  - unfold successors_in in *. rewrite Forall_forall in Hs.
    specialize (Hs row Hrow). rewrite Forall_forall in Hs. now apply Hs.
Qed.

Lemma __init___fresh (states : list Note) (order : nat) (self : Model) :
  __init__ states order = Some self -> self = fresh_model states order.
Proof.
  unfold __init__. destruct states; [discriminate|].
  intro E. injection E as <-. reflexivity.
Qed.

(** X7: when the three axis tables are non-empty and their rows are
    non-empty with positive weights of a total of at most 2^1000 (so that
    the sampler finds a finite positive total, as for trained tables),
    [generate_all_sequences] returns a melody for every instrument asked
    for; each melody has exactly [length] notes (none for a request of 0
    or less, although each axis sequence then still holds its seed), and
    every note has articulation ["normal"] and the dynamic its velocity
    maps to. *)
Theorem generate_all_sequences_melodies (self : Model) (instruments : list string)
    (length : Z) (src : Random.Source) :
  axes_ready self ->
  exists melodies sequences src',
    generate_all_sequences self instruments length src
    = Some ((melodies, sequences), src') /\
    forall instrument, In instrument instruments ->
      exists melody,
        Dict.get instrument melodies = Some melody /\
        generated_melody self length melody.
Proof.
  intro Hready. unfold generate_all_sequences.
  destruct (generate_all_loop_ok self length Hready instruments [] [] src)
    as (md & sd & src' & E & Hgood & Hkeys); [discriminate|].
  exists md, sd, src'. split; [exact E|].
  intros instrument Hin.
  destruct (Dict_get_Some_key instrument md) as (melody & Em).
  - apply Hkeys. now left.
  - exists melody. split; [exact Em | exact (Hgood _ _ Em)].
Qed.

Lemma axes_ready_rests_model : axes_ready rests_model.
Proof.
  unfold axes_ready, rows_ok; simpl.
  repeat split; try discriminate;
    (constructor; [|constructor]); split; try discriminate;
    (split; [constructor; [reflexivity | constructor] | vm_compute; discriminate]).
Qed.

Lemma generate_all_sequences_melodies_witness :
  axes_ready rests_model /\
  exists melodies sequences src',
    generate_all_sequences rests_model ["Flute"; "Viola"]%string 4 zero_source
    = Some ((melodies, sequences), src') /\
    forall instrument, In instrument ["Flute"; "Viola"]%string ->
      exists melody,
        Dict.get instrument melodies = Some melody /\
        generated_melody rests_model 4 melody.
Proof.
  split; [exact axes_ready_rests_model|].
  apply (generate_all_sequences_melodies rests_model ["Flute"; "Viola"]%string 4 zero_source).
  exact axes_ready_rests_model.
Defined.

(** After training a fresh model the axis tables hold attributes of
    corpus notes only, and can be sampled as soon as the corpus has two
    notes. *)
Lemma train_axes (states notes : list Note) (order : nat) (model : Model) :
  train (fresh_model states order) notes = Some model ->
  symbols_in (fun x => In x (map pitch notes)) (pitch_matrix model) /\
  symbols_in (fun x => In x (map duration notes)) (duration_matrix model) /\
  symbols_in (fun x => In x (map velocity notes)) (velocity_matrix model) /\
  ((2 <= List.length notes)%nat -> axes_ready model) /\
  ((List.length notes <= 1)%nat ->
   pitch_matrix model = [] /\ duration_matrix model = [] /\ velocity_matrix model = []).
Proof.
  intro Et.
  destruct (train_inversion _ _ _ Et) as (_ & _ & _ & _ & pc & dc & vc & Ec & Ep & Ed & Ev).
  cbn [fresh_model pitch_matrix duration_matrix velocity_matrix] in Ec.
  destruct (count_separate_symbols notes)
    as (pc' & dc' & vc' & Ec' & (Cp & Cd & Cv) & (Sp & Sd & Sv) & Hfull & Hempty).
  rewrite Ec in Ec'. injection Ec' as <- <- <-.
  split; [exact (_normalize_matrix_symbols _ _ _ Ep Sp)|].
  split; [exact (_normalize_matrix_symbols _ _ _ Ed Sd)|].
  split; [exact (_normalize_matrix_symbols _ _ _ Ev Sv)|].
  split.
  - intro Hlen. destruct (Hfull Hlen) as (Np & Nd & Nv).
    repeat split;
      first [ intro H; apply (_normalize_matrix_nonempty _ _ Ep) in H; contradiction
            | intro H; apply (_normalize_matrix_nonempty _ _ Ed) in H; contradiction
            | intro H; apply (_normalize_matrix_nonempty _ _ Ev) in H; contradiction
            | eapply _normalize_matrix_rows_ok; eassumption ].
  - intro Hlen. destruct (Hempty Hlen) as (-> & -> & ->).
    cbn in Ep, Ed, Ev. injection Ep as <-. injection Ed as <-. injection Ev as <-.
    auto.
Qed.

(** X8: training on a corpus of at least two notes and then generating
    never fails, whatever the random source, and never invents a symbol:
    every generated note takes its pitch, its duration and its velocity
    from notes of the corpus. *)
Theorem train_then_generate_all (states notes : list Note) (order : nat)
    (instruments : list string) (length : Z) (src : Random.Source) :
  states <> [] -> (2 <= List.length notes)%nat ->
  exists self model melodies sequences src',
    __init__ states order = Some self /\
    train self notes = Some model /\
    generate_all_sequences model instruments length src
    = Some ((melodies, sequences), src') /\
    forall instrument, In instrument instruments ->
      exists melody,
        Dict.get instrument melodies = Some melody /\
        Z.of_nat (List.length melody) = Z.max 0 length /\
        Forall (fun n => In (pitch n) (map pitch notes) /\
                         In (duration n) (map duration notes) /\
                         In (velocity n) (map velocity notes))
               melody.
Proof.
  intros Hstates Hlen.
  destruct (train_returns states notes order) as (model & Et).
  { destruct notes; [simpl in Hlen; lia | discriminate]. }
  destruct (train_axes states notes order model Et) as (Sp & Sd & Sv & Hready & _).
  specialize (Hready Hlen).
  destruct (generate_all_loop_ok model length Hready instruments [] [] src)
    as (md & sd & src' & E & Hgood & Hkeys); [discriminate|].
  exists (fresh_model states order), model, md, sd, src'.
  split. { unfold __init__, fresh_model. destruct states; [congruence | reflexivity]. }
  split; [exact Et|]. split; [exact E|].
  intros instrument Hin.
  destruct (Dict_get_Some_key instrument md) as (melody & Em).
  { apply Hkeys. now left. }
  exists melody. split; [exact Em|].
  destruct (Hgood _ _ Em) as [Hl Hall]. split; [exact Hl|].
  eapply Forall_impl; [|exact Hall].
  intros n (_ & Hp & Hd & Hv). repeat split.
  - exact (reachable_symbols_in _ _ _ Sp Hp).
  - exact (reachable_symbols_in _ _ _ Sd Hd).
  - exact (reachable_symbols_in _ _ _ Sv Hv).
Qed.

Lemma train_then_generate_all_witness :
  sample_corpus <> [] /\ (2 <= List.length sample_corpus)%nat /\
  exists self model melodies sequences src',
    __init__ sample_corpus 1 = Some self /\
    train self sample_corpus = Some model /\
    generate_all_sequences model ["Flute"]%string 8 zero_source
    = Some ((melodies, sequences), src') /\
    forall instrument, In instrument ["Flute"]%string ->
      exists melody,
        Dict.get instrument melodies = Some melody /\
        Z.of_nat (List.length melody) = Z.max 0 8 /\
        Forall (fun n => In (pitch n) (map pitch sample_corpus) /\
                         In (duration n) (map duration sample_corpus) /\
                         In (velocity n) (map velocity sample_corpus))
               melody.
Proof.
  split; [discriminate|]. split; [simpl; lia|].
  apply (train_then_generate_all sample_corpus sample_corpus 1 ["Flute"]%string 8 zero_source);
    [discriminate | simpl; lia].
Defined.

(** X9: a corpus of a single note trains without error but leaves the
    three axis tables empty, and generating for any instrument then
    raises. *)
Theorem one_note_corpus_cannot_generate (states : list Note) (order : nat)
    (note : Note) (self : Model) :
  __init__ states order = Some self ->
  exists model,
    train self [note] = Some model /\
    pitch_matrix model = [] /\ duration_matrix model = [] /\ velocity_matrix model = [] /\
    forall instrument rest length src,
      generate_all_sequences model (instrument :: rest) length src = None.
Proof.
  intro Hinit. apply __init___fresh in Hinit. subst self.
  destruct (train_returns states [note] order) as (model & Et); [discriminate|].
  destruct (train_axes states [note] order model Et) as (_ & _ & _ & _ & Hempty).
  destruct Hempty as (Ep & Ed & Ev); [simpl; lia|].
  exists model. split; [exact Et|]. repeat split; try assumption.
  intros instrument rest length src.
  unfold generate_all_sequences. cbn [generate_all_loop].
  rewrite Ep. reflexivity.
Qed.

Lemma one_note_corpus_cannot_generate_witness :
  __init__ sample_corpus 1 = Some (fresh_model sample_corpus 1) /\
  exists model,
    train (fresh_model sample_corpus 1) [mkNote R (Q2Qc 1) "mf" "normal" 64]
    = Some model /\
    pitch_matrix model = [] /\ duration_matrix model = [] /\ velocity_matrix model = [] /\
    forall instrument rest length src,
      generate_all_sequences model (instrument :: rest) length src = None.
Proof.
  split; [reflexivity|].
  apply (one_note_corpus_cannot_generate sample_corpus 1
           (mkNote R (Q2Qc 1) "mf" "normal" 64) (fresh_model sample_corpus 1)).
  reflexivity.
Defined.

End GenerationFacts.

(** ** The joint chain: initial distribution and [generate] *)

Section JointFacts.
Import Range Markov Generation.

Lemma In_firstn {A} (n : nat) (l : list A) (x : A) : In x (firstn n l) -> In x l.
Proof.
  intro H. rewrite <- (firstn_skipn n l). apply in_or_app. now left.
Qed.

Lemma In_skipn {A} (n : nat) (l : list A) (x : A) : In x (skipn n l) -> In x l.
Proof.
  intro H. rewrite <- (firstn_skipn n l). apply in_or_app. now right.
Qed.

Lemma corpus_window_notes (notes : list Note) (order : nat) (w : list Note) :
  corpus_window notes order w ->
  List.length w = order /\ Forall (fun n => In n notes) w.
Proof.
  intros (i & Hi & ->). unfold window. split.
  - rewrite length_firstn, length_skipn. lia.
  - apply Forall_forall. intros x Hx. eapply In_skipn, In_firstn, Hx.
Qed.

Lemma count_initial_keys (order : nat) (notes : list Note) :
  Forall (corpus_window notes order) (Dict.keys (count_initial [] order notes)).
Proof.
  unfold count_initial.
  set (n := range_len (Z.of_nat (List.length notes) - Z.of_nat order + 1)).
  assert (G : forall l ip,
             (forall i, In i l -> (i < n)%nat) ->
             Forall (corpus_window notes order) (Dict.keys ip) ->
             Forall (corpus_window notes order) (Dict.keys (fold_left
               (fun (ip : list (list Note * Q)) (i : nat) =>
                  Dict.set (window notes i order)
                    (match Dict.get (window notes i order) ip with
                     | Some c => c | None => 0 end + 1) ip) l ip))).
  { induction l as [|i l IH]; intros ip Hl Hip; simpl; [exact Hip|].
    apply IH; [intros j Hj; apply Hl; now right|].
    apply Dict_set_keys_Forall; [exact Hip|].
    exists i. split; [|reflexivity].
    specialize (Hl i (or_introl eq_refl)). unfold n, range_len in Hl. lia. }
  apply G; [|constructor].
  intros i Hi. apply in_seq in Hi. lia.
Qed.

Lemma count_initial_nonempty (order : nat) (notes : list Note) :
  (order <= List.length notes)%nat -> count_initial [] order notes <> [].
Proof.
  intro Hle. unfold count_initial.
  destruct (range_len (Z.of_nat (List.length notes) - Z.of_nat order + 1)) as [|k] eqn:E.
  - unfold range_len in E. lia.
  - rewrite seq_S, fold_left_app. simpl. apply Dict_set_nonempty.
Qed.

Lemma count_initial_short (order : nat) (notes : list Note) :
  (List.length notes < order)%nat -> count_initial [] order notes = [].
Proof.
  intro Hlt. unfold count_initial.
  replace (range_len (Z.of_nat (List.length notes) - Z.of_nat order + 1)) with O
    by (unfold range_len; lia).
  reflexivity.
Qed.

Lemma count_joint_symbols (order : nat) (notes : list Note) :
  exists tc, count_joint [] order notes = Some tc /\ counted tc /\
             keys_in (corpus_window notes order) tc /\
             successors_in (fun n => In n notes) tc.
Proof.
  unfold count_joint.
  apply (for_range_invariant
           (fun tc => counted tc /\ keys_in (corpus_window notes order) tc /\
                      successors_in (fun n => In n notes) tc)).
  - intros i tm Hi (Hc & Hk & Hs). unfold range_len in Hi.
    destruct (nth_error notes (i + order)) as [next_state|] eqn:E.
    + eexists. split; [reflexivity|]. split; [now apply count_transition_counted|].
      split.
      * apply count_transition_keys_in; [exact Hk|]. exists i. split; [lia | reflexivity].
      * apply count_transition_successors_in; [exact Hs|].
        eapply nth_error_In; exact E.
    + apply nth_error_None in E. lia.
  - repeat split; constructor.
Qed.

(** The joint tables of a freshly trained model. *)
Lemma train_joint (states notes : list Note) (order : nat) (model : Model) :
  train (fresh_model states order) notes = Some model ->
  Markov.states model = states /\ Markov.order model = order /\
  Forall (corpus_window notes order) (Dict.keys (initial_probabilities model)) /\
  Forall (fun w => 0 < w) (Dict.values (initial_probabilities model)) /\
  ((order <= List.length notes)%nat ->
   initial_probabilities model <> [] /\
   Qsum (Dict.values (initial_probabilities model)) == 1) /\
  ((List.length notes < order)%nat -> initial_probabilities model = []) /\
  rows_ok (transition_matrix model) /\
  rows_stochastic (transition_matrix model) /\
  keys_in (corpus_window notes order) (transition_matrix model) /\
  successors_in (fun n => In n notes) (transition_matrix model).
Proof.
  intro Et.
  destruct (train_inversion _ _ _ Et) as (Es & Eo & Eip & (tc & Etc & Etm) & _).
  cbn [fresh_model initial_probabilities transition_matrix Markov.order Markov.states]
    in Es, Eo, Eip, Etc.
  split; [exact Es|]. split; [exact Eo|].
  pose proof (count_initial_keys order notes) as Hk.
  pose proof (count_initial_counted order notes) as Hc.
  rewrite <- (divide_by_total_keys _ _ Eip) in Hk. split; [exact Hk|].
  destruct (count_joint_symbols order notes) as (tc' & Etc' & Ctc & Ktc & Stc).
  rewrite Etc in Etc'. injection Etc' as <-.
  destruct (_normalize_matrix_keeps (corpus_window notes order) (fun n => In n notes)
              _ _ Etm) as [Ekeys Hsucc].
  destruct (_normalize_matrix_ok tc Ctc) as (tm' & Etm' & _ & Hstoch).
  rewrite Etm in Etm'. injection Etm' as <-.
  assert (Hvals : Forall (fun w => 0 < w) (Dict.values (initial_probabilities model))).
  { destruct (count_initial [] order notes) as [|e d] eqn:Ec.
    - cbn in Eip. injection Eip as <-. constructor.
    - apply (divide_by_total_positive (e :: d) _); [discriminate | exact Hc | exact Eip]. }
  split; [exact Hvals|]. split.
  { intro Hle. pose proof (count_initial_nonempty order notes Hle) as Hne.
    assert (Hpos : 1 <= Qsum (Dict.values (count_initial [] order notes))).
    { apply Qsum_pos; [lra | | exact Hc].
      destruct (count_initial [] order notes); [congruence | discriminate]. }
    destruct (divide_by_total_ok _ Hne) as (ip & Eip' & Hkeys & Hsum); [lra|].
    rewrite Eip in Eip'. injection Eip' as <-. split; [|exact Hsum].
    intro H. rewrite H in Hkeys.
    destruct (count_initial [] order notes); [congruence | discriminate]. }
  split.
  { intro Hlt. rewrite (count_initial_short order notes Hlt) in Eip.
    cbn in Eip. now injection Eip as <-. }
  split; [exact (_normalize_matrix_rows_ok _ _ Ctc Etm)|].
  split; [exact Hstoch|].
  split; [unfold keys_in; rewrite Ekeys; exact Ktc | exact (Hsucc Stc)].
Qed.

Lemma extend_melody_ok (model : Model) (P : Note -> Prop) :
  states model <> [] ->
  rows_ok (transition_matrix model) ->
  (forall x, In x (states model) -> P x) ->
  successors_in P (transition_matrix model) ->
  forall (n : nat) (melody : list Note) (src : Random.Source),
    Forall P melody ->
    exists r src',
      extend_melody n model melody src = Some (r, src') /\
      List.length r = (List.length melody + n)%nat /\
      Forall P r /\
      firstn (List.length melody) r = melody.
Proof.
  intros Hst Hrows Hstates Hsucc.
  induction n as [|n IH]; intros melody src Hmel.
  - exists melody, src. split; [reflexivity|]. split; [lia|]. split; [exact Hmel|].
    apply firstn_all.
  - cbn [extend_melody]. unfold Random.bind, _generate_next_state.
    assert (Hdraw : exists x s1,
      (match Dict.get (last_states (order model) melody) (transition_matrix model) with
       | Some row => Random.choices1 (Dict.keys row) (Dict.values row)
       | None => Random.choice (states model)
       end) src = Some (x, s1) /\ P x).
    { destruct (Dict.get _ (transition_matrix model)) as [row|] eqn:E.
      - destruct (Dict_get_Forall _ _ _ _ E Hrows) as (Hrow & Hw & Hfin).
        pose proof (Dict_get_Forall _ _ _ _ E Hsucc) as Hkeys. simpl in Hkeys.
        destruct (choices1_In (Dict.keys row) (Dict.values row) src)
          as (x & s1 & Ex & Hx).
        + destruct row; [congruence | discriminate].
        + unfold Dict.keys, Dict.values. now rewrite !length_map.
        + exact Hw.
        + eapply Qle_lt_trans; [exact Hfin | exact FLOAT_SAFE_finite].
        + exists x, s1. split; [exact Ex|].
          rewrite Forall_forall in Hkeys. now apply Hkeys.
      - destruct (choice_In (states model) src Hst) as (x & s1 & Ex & Hx).
        exists x, s1. split; [exact Ex | now apply Hstates]. }
    destruct Hdraw as (x & s1 & Ex & Hx). rewrite Ex.
    destruct (IH (melody ++ [x]) s1) as (r & src' & E & Hlen & Hall & Hpre).
    + apply Forall_app. split; [exact Hmel | constructor; [exact Hx | constructor]].
    + exists r, src'. split; [exact E|]. rewrite length_app in Hlen, Hpre. simpl in *.
      split; [lia|]. split; [exact Hall|].
      apply (f_equal (firstn (List.length melody))) in Hpre.
      rewrite firstn_firstn in Hpre.
      replace (Nat.min (List.length melody) (List.length melody + 1))
        with (List.length melody) in Hpre by lia.
      rewrite Hpre, firstn_app, firstn_all, Nat.sub_diag. simpl. apply app_nil_r.
Qed.

(** X10: after training on a corpus at least as long as the chain order,
    the initial distribution is not empty, every state in it is [order]
    consecutive notes of the corpus, its probabilities are positive and
    they sum to 1. *)
Theorem train_initial_distribution (states notes : list Note) (order : nat)
    (self : Model) :
  __init__ states order = Some self ->
  notes <> [] -> (order <= List.length notes)%nat ->
  exists model,
    train self notes = Some model /\
    initial_probabilities model <> [] /\
    Forall (corpus_window notes order) (Dict.keys (initial_probabilities model)) /\
    Forall (fun w => 0 < w) (Dict.values (initial_probabilities model)) /\
    Qsum (Dict.values (initial_probabilities model)) == 1.
Proof.
  intros Hinit Hne Hle. apply __init___fresh in Hinit. subst self.
  destruct (train_returns states notes order Hne) as (model & Et).
  destruct (train_joint states notes order model Et)
    as (_ & _ & Hk & Hv & Hfull & _).
  destruct (Hfull Hle) as [Hn Hsum].
  exists model. repeat split; assumption.
Qed.

Lemma train_initial_distribution_witness :
  __init__ sample_corpus 2 = Some (fresh_model sample_corpus 2) /\
  sample_corpus <> [] /\ (2 <= List.length sample_corpus)%nat /\
  exists model,
    train (fresh_model sample_corpus 2) sample_corpus = Some model /\
    initial_probabilities model <> [] /\
    Forall (corpus_window sample_corpus 2) (Dict.keys (initial_probabilities model)) /\
    Forall (fun w => 0 < w) (Dict.values (initial_probabilities model)) /\
    Qsum (Dict.values (initial_probabilities model)) == 1.
Proof.
  split; [reflexivity|]. split; [discriminate|]. split; [simpl; lia|].
  apply (train_initial_distribution sample_corpus sample_corpus 2
           (fresh_model sample_corpus 2));
    [reflexivity | discriminate | simpl; lia].
Defined.

(** X11: after training with an order between 1 and the corpus length,
    [generate] returns for any requested length and any random source.
    The melody has [max(order, length)] notes: it opens with [order]
    consecutive notes of the corpus and every later note is a note of the
    corpus or, where the chain has no row, one of the model's states. *)
Theorem generate_after_train (states notes : list Note) (order : nat)
    (self : Model) (length : Z) (src : Random.Source) :
  __init__ states order = Some self ->
  (1 <= order)%nat -> (order <= List.length notes)%nat ->
  exists model melody src',
    train self notes = Some model /\
    generate model length src = Some (melody, src') /\
    Z.of_nat (List.length melody) = Z.max (Z.of_nat order) length /\
    corpus_window notes order (firstn order melody) /\
    Forall (fun n => In n notes \/ In n states) melody.
Proof.
  intros Hinit H1 Hle.
  assert (Hst : states <> []) by (unfold __init__ in Hinit; destruct states; congruence).
  apply __init___fresh in Hinit. subst self.
  destruct (train_returns states notes order) as (model & Et).
  { destruct notes; [simpl in Hle; lia | discriminate]. }
  destruct (train_joint states notes order model Et)
    as (Es & Eo & Hk & Hv & Hfull & _ & Hrows & _ & _ & Hsucc).
  destruct (Hfull Hle) as [Hn Hsum].
  exists model. unfold generate. rewrite Es.
  destruct states as [|s0 states'] eqn:Estates; [congruence|]. rewrite <- Estates in *.
  unfold Random.bind, _generate_starting_state.
  destruct (choices1_In (Dict.keys (initial_probabilities model))
              (Dict.values (initial_probabilities model)) src)
    as (w & s1 & Ew & Hw).
  { destruct (initial_probabilities model); [congruence | discriminate]. }
  { unfold Dict.keys, Dict.values. now rewrite !length_map. }
  { exact Hv. }
  { rewrite Hsum. pose proof FLOAT_OVERFLOW_large. lra. }
  rewrite Ew. rewrite Forall_forall in Hk. specialize (Hk w Hw).
  destruct (corpus_window_notes notes order w Hk) as [Hlen Hall].
  destruct w as [|n0 w'] eqn:Ewl; [simpl in Hlen; lia|]. rewrite <- Ewl in *.
  destruct (extend_melody_ok model (fun n => In n notes \/ In n states))
    with (n := range_len (length - Z.of_nat (Markov.order model)))
         (melody := w) (src := s1)
    as (r & src' & Er & Hrl & Hrall & Hpre).
  - rewrite Es. exact Hst.
  - exact Hrows.
  - rewrite Es. intros x Hx. now right.
  - unfold successors_in in *. eapply Forall_impl; [|exact Hsucc].
    intros row Hrow. eapply Forall_impl; [|exact Hrow]. intros x Hx. now left.
  - eapply Forall_impl; [|exact Hall]. intros x Hx. now left.
  - exists r, src'. split; [exact Et|]. split; [exact Er|].
    rewrite Eo in Hrl. rewrite Hlen in Hrl, Hpre.
    split; [unfold range_len in Hrl; lia|]. split; [|exact Hrall].
    rewrite Hpre. exact Hk.
Qed.

Lemma generate_after_train_witness :
  __init__ sample_corpus 2 = Some (fresh_model sample_corpus 2) /\
  (1 <= 2)%nat /\ (2 <= List.length sample_corpus)%nat /\
  exists model melody src',
    train (fresh_model sample_corpus 2) sample_corpus = Some model /\
    generate model 6 zero_source = Some (melody, src') /\
    Z.of_nat (List.length melody) = Z.max (Z.of_nat 2) 6 /\
    corpus_window sample_corpus 2 (firstn 2 melody) /\
    Forall (fun n => In n sample_corpus \/ In n sample_corpus) melody.
Proof.
  split; [reflexivity|]. split; [lia|]. split; [simpl; lia|].
  apply (generate_after_train sample_corpus sample_corpus 2
           (fresh_model sample_corpus 2) 6 zero_source);
    [reflexivity | lia | simpl; lia].
Defined.

(** X12: when the corpus is shorter than the chain order, training still
    succeeds, with an empty initial distribution and no division, and
    [generate] then raises for every requested length. *)
Theorem generate_short_corpus_raises (states notes : list Note) (order : nat)
    (self : Model) :
  __init__ states order = Some self ->
  notes <> [] -> (List.length notes < order)%nat ->
  exists model,
    train self notes = Some model /\
    initial_probabilities model = [] /\
    forall length src, generate model length src = None.
Proof.
  intros Hinit Hne Hlt. apply __init___fresh in Hinit. subst self.
  destruct (train_returns states notes order Hne) as (model & Et).
  destruct (train_joint states notes order model Et)
    as (_ & _ & _ & _ & _ & Hshort & _).
  specialize (Hshort Hlt).
  exists model. split; [exact Et|]. split; [exact Hshort|].
  intros length src. unfold generate.
  destruct (Markov.states model); [reflexivity|].
  unfold Random.bind, _generate_starting_state. rewrite Hshort. reflexivity.
Qed.

Lemma generate_short_corpus_raises_witness :
  __init__ sample_corpus 5 = Some (fresh_model sample_corpus 5) /\
  sample_corpus <> [] /\ (List.length sample_corpus < 5)%nat /\
  exists model,
    train (fresh_model sample_corpus 5) sample_corpus = Some model /\
    initial_probabilities model = [] /\
    forall length src, generate model length src = None.
Proof.
  split; [reflexivity|]. split; [discriminate|]. split; [simpl; lia|].
  apply (generate_short_corpus_raises sample_corpus sample_corpus 5
           (fresh_model sample_corpus 5));
    [reflexivity | discriminate | simpl; lia].
Defined.

End JointFacts.

(** ** Layout assembler: what every emitted measure satisfies *)

Section LayoutMoreFacts.
Import Range Meter Layout.

Ltac beats_simpl :=
  cbn [part current_measure measure_duration];
  rewrite ?measure_beats_tie_last_start, ?measure_beats_append, ?measure_beats_fresh;
  cbn [map element_beats app];
  rewrite ?Qsum_cons, ?Qsum_nil.

Lemma tie_last_start_nonempty (m : Measure) :
  elements m <> [] -> elements (tie_last_start m) <> [].
Proof.
  intro Hne. unfold tie_last_start.
  destruct (rev (elements m)) as [|e before]; [exact Hne|].
  destruct e; try exact Hne. cbn [elements].
  destruct (rev before); discriminate.
Qed.

Lemma tie_last_start_number (m : Measure) : number (tie_last_start m) = number m.
Proof.
  unfold tie_last_start. destruct (rev (elements m)) as [|e before]; [reflexivity|].
  destruct e; reflexivity.
Qed.

Lemma apply_time_sig_change_keeps (changes : list (Z * TimeSig)) (st : State) :
  let st1 := apply_time_sig_change changes st in
  part st1 = part st /\
  elements (current_measure st1) = elements (current_measure st) /\
  number (current_measure st1) = number (current_measure st) /\
  measure_duration st1 = measure_duration st /\
  current_dynamic st1 = current_dynamic st /\
  measure_count st1 = measure_count st.
Proof.
  cbv zeta. unfold apply_time_sig_change.
  destruct (Dict.get (measure_count st) changes); [|repeat split].
  destruct (Qeq_bool (measure_duration st) 0); [|repeat split].
  destruct (eq_dec t (current_ts st)); repeat split.
Qed.

(** One step of the loop, seen from the part: either nothing is appended,
    or one measure is, numbered as the open measure was, not empty,
    holding at least the capacity in force, and no more than it when the
    open measure was below capacity before the note.  The open measure's
    running duration stays equal to the beats it holds. *)
Lemma place_note_closes (instr_name : string) (changes : list (Z * TimeSig))
    (st : State) (nd : NoteData) :
  measure_beats (current_measure st) == measure_duration st ->
  let st1 := apply_time_sig_change changes st in
  let st' := place_note instr_name changes st nd in
  measure_beats (current_measure st') == measure_duration st' /\
  (part st' = part st /\
   number (current_measure st') = number (current_measure st) /\
   measure_count st' = measure_count st
   \/
   exists closed,
     part st' = part st ++ [(closed, measure_length st1)] /\
     number closed = number (current_measure st) /\
     number (current_measure st') = (Z.of_nat (List.length (part st)) + 1 + 1)%Z /\
     measure_count st' = (measure_count st + 1)%Z /\
     elements closed <> [] /\
     measure_length st1 <= measure_beats closed /\
     (measure_duration st1 < measure_length st1 ->
      measure_beats closed <= measure_length st1)).
Proof.
  intro Hbeats. cbv zeta.
  destruct (apply_time_sig_change_keeps changes st) as (Ep & Ee & En & Ed & _ & Ec).
  cbv zeta in Ep, Ee, En, Ed, Ec.
  assert (Hb1 : measure_beats (current_measure (apply_time_sig_change changes st))
                == measure_duration (apply_time_sig_change changes st)).
  { unfold measure_beats. rewrite Ee, Ed. exact Hbeats. }
  unfold place_note. cbv zeta.
  set (st1 := apply_time_sig_change changes st) in *.
  set (remaining := measure_length st1 - measure_duration st1).
  set (dyn_changed := match current_dynamic st1 with
                      | Some d => if string_dec (dyn nd) d then false else true
                      | None => true
                      end).
  set (adjusted := if Qltb remaining (duration nd) && Qltb 0 remaining
                   then remaining else duration nd).
  assert (Hadj : 0 < remaining -> adjusted <= remaining).
  { intro Hr. unfold adjusted. rewrite (proj2 (Qltb_lt 0 remaining) Hr), andb_true_r.
    destruct (Qltb remaining (duration nd)) eqn:E1.
    - lra.
    - apply Qltb_ge in E1. exact E1. }
  destruct (Qle_bool (measure_length st1) (measure_duration st1 + adjusted)) eqn:Efull.
  - apply Qle_bool_iff in Efull.
    destruct (adjust_pitch (pitch_name nd) instr_name) as [|p].
    + split; [beats_simpl; ring|]. right. eexists.
      split; [cbn [part]; rewrite Ep; reflexivity|].
      cbn [part current_measure measure_count number append_elements].
      rewrite Ep, En, Ec, length_app. cbn [List.length].
      split; [reflexivity|].
      split; [rewrite Nat2Z.inj_add; reflexivity|]. split; [reflexivity|].
      split; [cbn [append_elements elements]; destruct (elements (current_measure st1)); discriminate|].
      split.
      * rewrite measure_beats_append. cbn [map element_beats].
        rewrite Qsum_cons, Qsum_nil, Hb1. lra.
      * intro Hlt. rewrite measure_beats_append. cbn [map element_beats].
        rewrite Qsum_cons, Qsum_nil, Hb1.
        assert (adjusted <= remaining) by (apply Hadj; unfold remaining; lra).
        unfold remaining in *. lra.
    + destruct (Qltb adjusted (duration nd)) eqn:Ecarry.
      * split; [destruct dyn_changed; beats_simpl; ring|]. right. eexists.
        split; [cbn [part]; rewrite Ep; reflexivity|].
        rewrite tie_last_start_number.
        cbn [part current_measure measure_count number append_elements].
        rewrite Ep, En, Ec, length_app. cbn [List.length].
        split; [reflexivity|].
        split; [rewrite Nat2Z.inj_add; reflexivity|]. split; [reflexivity|].
        split.
        { apply tie_last_start_nonempty. cbn [elements append_elements].
          destruct (elements (current_measure st1)), dyn_changed; discriminate. }
        rewrite measure_beats_tie_last_start.
        change (mkMeasure (number (current_measure st1))
                  (time_signatures (current_measure st1))
                  (elements (current_measure st1)
                   ++ (if dyn_changed then [EDynamic (dyn nd)] else [])
                   ++ [ENote p adjusted (vel nd) None]))
          with (append_elements (current_measure st1)
                  ((if dyn_changed then [EDynamic (dyn nd)] else [])
                   ++ [ENote p adjusted (vel nd) None])).
        rewrite measure_beats_append.
        assert (Es : Markov.Qsum (map element_beats
                        ((if dyn_changed then [EDynamic (dyn nd)] else [])
                         ++ [ENote p adjusted (vel nd) None])) == adjusted).
        { destruct dyn_changed; cbn [map element_beats app];
            rewrite ?Qsum_cons, ?Qsum_nil; ring. }
        rewrite Es, Hb1. split; [lra|].
        intro Hlt.
        assert (adjusted <= remaining) by (apply Hadj; unfold remaining; lra).
        unfold remaining in *. lra.
      * split; [destruct dyn_changed; beats_simpl; ring|]. right. eexists.
        split; [cbn [part]; rewrite Ep; reflexivity|].
        cbn [part current_measure measure_count number append_elements].
        rewrite Ep, En, Ec, length_app. cbn [List.length].
        split; [reflexivity|].
        split; [rewrite Nat2Z.inj_add; reflexivity|]. split; [reflexivity|].
        split.
        { cbn [elements append_elements].
          destruct (elements (current_measure st1)), dyn_changed; discriminate. }
        change (mkMeasure (number (current_measure st1))
                  (time_signatures (current_measure st1))
                  (elements (current_measure st1)
                   ++ (if dyn_changed then [EDynamic (dyn nd)] else [])
                   ++ [ENote p adjusted (vel nd) None]))
          with (append_elements (current_measure st1)
                  ((if dyn_changed then [EDynamic (dyn nd)] else [])
                   ++ [ENote p adjusted (vel nd) None])).
        rewrite measure_beats_append.
        assert (Es : Markov.Qsum (map element_beats
                        ((if dyn_changed then [EDynamic (dyn nd)] else [])
                         ++ [ENote p adjusted (vel nd) None])) == adjusted).
        { destruct dyn_changed; cbn [map element_beats app];
            rewrite ?Qsum_cons, ?Qsum_nil; ring. }
        rewrite Es, Hb1. split; [lra|].
        intro Hlt.
        assert (adjusted <= remaining) by (apply Hadj; unfold remaining; lra).
        unfold remaining in *. lra.
  - destruct (adjust_pitch (pitch_name nd) instr_name) as [|p].
    + split; [beats_simpl; rewrite Hb1; ring|]. left.
      cbn [part current_measure measure_count number append_elements].
      rewrite Ep, En, Ec. repeat split.
    + split; [destruct dyn_changed; beats_simpl; rewrite Hb1; ring|]. left.
      cbn [part current_measure measure_count number append_elements].
      rewrite Ep, En, Ec. repeat split.
Qed.

Lemma measure_numbers_snoc (p : list (Measure * Q)) (m : Measure) (c : Q) :
  measure_numbers p = map Z.of_nat (seq 1 (List.length p)) ->
  number m = (Z.of_nat (List.length p) + 1)%Z ->
  measure_numbers (p ++ [(m, c)])
  = map Z.of_nat (seq 1 (List.length (p ++ [(m, c)]))).
Proof.
  intros Hp Hm. unfold measure_numbers in *.
  rewrite map_app, length_app, Hp. cbn [map fst List.length].
  rewrite Nat.add_1_r, seq_S, map_app. cbn [map]. rewrite Hm.
  do 2 f_equal. lia.
Qed.

Lemma place_note_assembling (instr_name : string) (changes : list (Z * TimeSig))
    (st : State) (nd : NoteData) :
  assembling st -> assembling (place_note instr_name changes st nd).
Proof.
  intros (Hb & Hall & Hnum & Hcur & Hcount).
  destruct (place_note_closes instr_name changes st nd Hb) as [Hb' Hcase].
  cbv zeta in Hb', Hcase. unfold assembling.
  destruct Hcase as [(Ep & En & Ec) | (closed & Ep & En & En' & Ec & Hne & Hge & _)].
  - rewrite Ep, En, Ec. repeat split; assumption.
  - rewrite Ep, En', Ec. split; [exact Hb'|]. split.
    + apply Forall_app. split; [exact Hall|].
      constructor; [split; assumption | constructor].
    + split; [apply measure_numbers_snoc; [exact Hnum | congruence]|].
      rewrite length_app. cbn [List.length]. split; lia.
Qed.

Lemma run_melody_assembling (instr_name : string) (time_signature : TimeSig)
    (time_sig_sequence : list (Z * TimeSig)) (melody : list NoteData) :
  assembling (run_melody instr_name time_signature time_sig_sequence melody).
Proof.
  unfold run_melody.
  set (changes := build_time_sig_changes time_sig_sequence).
  assert (G : forall l st, assembling st ->
              assembling (fold_left (place_note instr_name changes) l st)).
  { induction l as [|nd l IH]; intros st Hst; simpl; [exact Hst|].
    apply IH. now apply place_note_assembling. }
  apply G. unfold assembling, initial_state.
  cbn [part current_measure measure_duration measure_count number List.length].
  repeat split; try reflexivity. constructor.
Qed.

Lemma measure_beats_positive_nonempty (m : Measure) :
  0 < measure_beats m -> elements m <> [].
Proof.
  intros Hpos E. unfold measure_beats in Hpos. rewrite E in Hpos.
  cbn in Hpos. lra.
Qed.

(** X13: the measures of an assembled part are numbered 1, 2, 3, ... in
    order, whatever the melody and the schedule. *)
Theorem assemble_part_numbered (instr_name : string) (time_signature : TimeSig)
    (time_sig_sequence : list (Z * TimeSig)) (melody : list NoteData) :
  let p := assemble_part instr_name time_signature time_sig_sequence melody in
  measure_numbers p = map Z.of_nat (seq 1 (List.length p)).
Proof.
  cbv zeta. unfold assemble_part, finish_part.
  destruct (run_melody_assembling instr_name time_signature time_sig_sequence melody)
    as (_ & _ & Hnum & Hcur & _).
  set (st := run_melody instr_name time_signature time_sig_sequence melody) in *.
  destruct (Qltb 0 (measure_duration st)); [|exact Hnum].
  apply measure_numbers_snoc; [exact Hnum|].
  destruct (Qltb (measure_duration st) (measure_length st)); exact Hcur.
Qed.

(** X14: no measure of an assembled part is empty, and none holds fewer
    beats than the capacity it was filled against: a measure is appended
    only once full, and the last one is padded with a rest. *)
Theorem assemble_part_no_short_measure (instr_name : string)
    (time_signature : TimeSig) (time_sig_sequence : list (Z * TimeSig))
    (melody : list NoteData) :
  Forall (fun mc => elements (fst mc) <> [] /\ snd mc <= measure_beats (fst mc))
         (assemble_part instr_name time_signature time_sig_sequence melody).
Proof.
  unfold assemble_part, finish_part.
  destruct (run_melody_assembling instr_name time_signature time_sig_sequence melody)
    as (Hb & Hall & _).
  set (st := run_melody instr_name time_signature time_sig_sequence melody) in *.
  destruct (Qltb 0 (measure_duration st)) eqn:Epos; [|exact Hall].
  apply Qltb_lt in Epos.
  apply Forall_app. split; [exact Hall|]. constructor; [|constructor]. cbn [fst snd].
  destruct (Qltb (measure_duration st) (measure_length st)) eqn:Elt.
  - apply Qltb_lt in Elt. split.
    + cbn [append_elements elements]. destruct (elements (current_measure st)); discriminate.
    + rewrite measure_beats_append. cbn [map element_beats].
      rewrite Qsum_cons, Qsum_nil, Hb. lra.
  - apply Qltb_ge in Elt. split.
    + apply measure_beats_positive_nonempty. rewrite Hb. exact Epos.
    + rewrite Hb. exact Elt.
Qed.

Lemma run_melody_full (bound : Q) (instr_name : string) (time_signature : TimeSig)
    (time_sig_sequence : list (Z * TimeSig)) (melody : list NoteData) :
  0 < bound ->
  roomy_meters bound time_signature time_sig_sequence ->
  short_notes bound melody ->
  let st := run_melody instr_name time_signature time_sig_sequence melody in
  below_capacity bound st /\
  measure_beats (current_measure st) == measure_duration st /\
  Forall (fun mc => measure_beats (fst mc) <= snd mc) (part st).
Proof.
  intros Hb [Hbase Hseq] Hmel. cbv zeta. unfold run_melody.
  pose proof (build_time_sig_changes_Forall
                (fun ts => bound <= get_time_signature_value ts) _ Hseq) as Hch.
  set (changes := build_time_sig_changes time_sig_sequence) in *.
  assert (G : forall l st, short_notes bound l ->
              below_capacity bound st /\
              measure_beats (current_measure st) == measure_duration st /\
              Forall (fun mc => measure_beats (fst mc) <= snd mc) (part st) ->
              let st' := fold_left (place_note instr_name changes) l st in
              below_capacity bound st' /\
              measure_beats (current_measure st') == measure_duration st' /\
              Forall (fun mc => measure_beats (fst mc) <= snd mc) (part st')).
  { induction l as [|nd l IH]; intros st Hl Hst; simpl; [exact Hst|].
    inversion Hl as [|? ? Hnd Hl']; subst. apply IH; [exact Hl'|].
    destruct Hst as (Hbelow & Hbeats & Hall).
    split; [now apply place_note_below|].
    destruct (place_note_closes instr_name changes st nd Hbeats) as [Hb' Hcase].
    cbv zeta in Hb', Hcase. split; [exact Hb'|].
    destruct Hcase as [(Ep & _) | (closed & Ep & _ & _ & _ & _ & _ & Hle)].
    - rewrite Ep. exact Hall.
    - rewrite Ep. apply Forall_app. split; [exact Hall|].
      constructor; [|constructor]. cbn [fst snd]. apply Hle.
      destruct (apply_time_sig_change_below bound changes st Hb Hch Hbelow)
        as (_ & Hlt & _). exact Hlt. }
  apply (G melody (initial_state time_signature) Hmel).
  unfold below_capacity, initial_state.
  cbn [measure_duration measure_length part current_measure].
  split; [lra|]. split; [reflexivity | constructor].
Qed.

(** Closed measures are exactly full and the last one is padded up to its
    capacity, whenever no carried remainder can overflow. *)
Lemma finish_part_full (bound : Q) (instr_name : string)
    (time_signature : TimeSig) (time_sig_sequence : list (Z * TimeSig))
    (melody : list NoteData) :
  0 < bound ->
  roomy_meters bound time_signature time_sig_sequence ->
  short_notes bound melody ->
  Forall (fun mc => measure_beats (fst mc) == snd mc)
         (finish_part (run_melody instr_name time_signature time_sig_sequence melody)).
Proof.
  intros Hb Hroomy Hshort.
  pose proof (run_melody_assembling instr_name time_signature time_sig_sequence melody)
    as (_ & Hge & _).
  destruct (run_melody_full bound instr_name time_signature time_sig_sequence melody
              Hb Hroomy Hshort) as ((_ & Hlt & _) & Hbeats & Hle).
  cbv zeta in Hlt, Hbeats, Hle.
  unfold finish_part.
  set (st := run_melody instr_name time_signature time_sig_sequence melody) in *.
  assert (Hpart : Forall (fun mc => measure_beats (fst mc) == snd mc) (part st)).
  { rewrite Forall_forall in *. intros mc Hin.
    destruct (Hge mc Hin) as [_ H1]. specialize (Hle mc Hin). lra. }
  destruct (Qltb 0 (measure_duration st)); [|exact Hpart].
  apply Forall_app. split; [exact Hpart|]. constructor; [|constructor]. cbn [fst snd].
  assert (E : Qltb (measure_duration st) (measure_length st) = true)
    by (apply Qltb_lt; exact Hlt).
  rewrite E, measure_beats_append. cbn [map element_beats].
  rewrite Qsum_cons, Qsum_nil, Hbeats. ring.
Qed.

(** X15: for meters among the six on offer and durations that are whole
    numbers of thirty-second notes (so that the running sums are exact in
    floats): when every duration is no longer than the shortest measure
    in play, every measure of the assembled part holds exactly the
    capacity it was filled against, the padded last measure included. *)
Theorem assemble_part_measures_full (bound : Q) (instr_name : string)
    (time_signature : TimeSig) (time_sig_sequence : list (Z * TimeSig))
    (melody : list NoteData) :
  0 < bound ->
  offered_meters time_signature time_sig_sequence ->
  roomy_meters bound time_signature time_sig_sequence ->
  plain_durations melody ->
  short_notes bound melody ->
  Forall (fun mc => measure_beats (fst mc) == snd mc)
         (assemble_part instr_name time_signature time_sig_sequence melody).
Proof.
  intros Hb _ Hroomy _ Hshort. unfold assemble_part.
  now apply (finish_part_full bound).
Qed.

Lemma sample_schedule_offered : offered_meters ts_4_4 sample_schedule.
Proof.
  split; [simpl; tauto|]. repeat constructor; simpl; tauto.
Qed.

Lemma sample_melody_plain : plain_durations sample_melody.
Proof.
  unfold plain_durations, sample_melody, plain_duration.
  repeat first
    [ apply Forall_nil
    | apply Forall_cons;
      [ first [ exists 8%Z; split; [lia|]; split; [vm_compute; reflexivity|]
              | exists 16%Z; split; [lia|]; split; [vm_compute; reflexivity|]
              | exists 4%Z; split; [lia|]; split; [vm_compute; reflexivity|] ];
        vm_compute; discriminate | ] ].
Qed.

Lemma sample_schedule_roomy : roomy_meters 2 ts_4_4 sample_schedule.
Proof.
  split; [discriminate|]. repeat constructor; discriminate.
Qed.

Lemma sample_melody_short : short_notes 2 sample_melody.
Proof.
  repeat constructor; discriminate.
Qed.

Lemma assemble_part_measures_full_witness :
  0 < 2 /\ roomy_meters 2 ts_4_4 sample_schedule /\ short_notes 2 sample_melody /\
  Forall (fun mc => measure_beats (fst mc) == snd mc)
         (assemble_part "Viola" ts_4_4 sample_schedule sample_melody).
Proof.
  split; [reflexivity|]. split; [exact sample_schedule_roomy|].
  split; [exact sample_melody_short|].
  apply (assemble_part_measures_full 2 "Viola" ts_4_4 sample_schedule sample_melody);
    [reflexivity | exact sample_schedule_offered | exact sample_schedule_roomy
     | exact sample_melody_plain | exact sample_melody_short].
Defined.

Lemma quantize_duration_bounds (d g q : Q) :
  Quantizer.quantize_duration d g = Some q -> 1 # 8 <= q <= 4.
Proof.
  intro E. destruct (Qeq_dec g 0) as [Z0 | NZ].
  - rewrite (quantize_duration_zero_grid d g Z0) in E. discriminate.
  - destruct (Qlt_le_dec (Qabs (d / g)) FLOAT_OVERFLOW) as [Hfin | Hinf].
    + rewrite (quantize_duration_unfold d g NZ Hfin) in E. injection E as <-.
      destruct (clamp_cases (inject_Z (Quantizer.py_round (d / g)) * g))
        as [[_ Ec] | [[_ Ec] | [[H1 H2] Ec]]]; rewrite Ec; lra.
    + rewrite (quantize_duration_overflow d g Hinf) in E. discriminate.
Qed.

(** Without a meter schedule the capacity never changes. *)
Lemma place_note_unscheduled (instr_name : string) (st : State) (nd : NoteData) :
  let st' := place_note instr_name [] st nd in
  measure_length st' = measure_length st /\
  (part st' = part st \/
   exists closed, part st' = part st ++ [(closed, measure_length st)]).
Proof.
  cbv zeta. unfold place_note. cbv zeta.
  change (apply_time_sig_change [] st) with st.
  destruct (adjust_pitch (pitch_name nd) instr_name) as [|p].
  - destruct (Qle_bool _ _); cbn [measure_length part];
      (split; [reflexivity|]); [right; eexists; reflexivity | left; reflexivity].
  - destruct (Qle_bool _ _).
    + destruct (Qltb _ (duration nd)); cbn [measure_length part];
        (split; [reflexivity|]; right; eexists; reflexivity).
    + cbn [measure_length part]. split; [reflexivity|]. left. reflexivity.
Qed.

Lemma finish_part_unscheduled (instr_name : string) (time_signature : TimeSig)
    (melody : list NoteData) :
  Forall (fun mc => snd mc = get_time_signature_value time_signature)
         (finish_part (run_melody instr_name time_signature [] melody)).
Proof.
  unfold run_melody. change (build_time_sig_changes []) with (@nil (Z * TimeSig)).
  set (V := get_time_signature_value time_signature).
  assert (G : forall l st,
              measure_length st = V -> Forall (fun mc => snd mc = V) (part st) ->
              let st' := fold_left (place_note instr_name []) l st in
              measure_length st' = V /\ Forall (fun mc => snd mc = V) (part st')).
  { induction l as [|nd l IH]; intros st Hml Hpart; simpl; [split; assumption|].
    destruct (place_note_unscheduled instr_name st nd) as [Eml Ecase].
    cbv zeta in Eml, Ecase. apply IH; [congruence|].
    destruct Ecase as [-> | (closed & ->)]; [exact Hpart|].
    apply Forall_app. split; [exact Hpart|]. constructor; [exact Hml | constructor]. }
  destruct (G melody (initial_state time_signature) eq_refl (Forall_nil _))
    as [Hml Hpart].
  cbv zeta in Hml, Hpart. unfold finish_part.
  destruct (Qltb 0 _); [|exact Hpart].
  apply Forall_app. split; [exact Hpart|]. constructor; [exact Hml | constructor].
Qed.

(** With no meter schedule and durations no longer than the measure,
    every measure holds exactly the beats of the meter. *)
Lemma finish_part_unscheduled_full (bound : Q) (instr_name : string)
    (time_signature : TimeSig) (melody : list NoteData) :
  0 < bound -> bound <= get_time_signature_value time_signature ->
  short_notes bound melody ->
  Forall (fun mc => snd mc == get_time_signature_value time_signature /\
                    measure_beats (fst mc) == get_time_signature_value time_signature)
         (finish_part (run_melody instr_name time_signature [] melody)).
Proof.
  intros Hb Hcap Hshort.
  pose proof (finish_part_full bound instr_name time_signature [] melody Hb
                (conj Hcap (Forall_nil _)) Hshort) as Hfull.
  pose proof (finish_part_unscheduled instr_name time_signature melody) as Hcapy.
  rewrite Forall_forall in *. intros mc Hin.
  specialize (Hfull mc Hin). specialize (Hcapy mc Hin).
  rewrite Hfull, Hcapy. split; reflexivity.
Qed.

(** X16: the front ends' default pipeline.  When every duration of the
    melody is what [quantize_duration] returns for one of the grids on
    offer, the meter is one of those on offer that holds at least four
    beats (4/4, 12/8) and no meter change is scheduled, every measure of
    the assembled part was filled against the beats of the meter and
    holds exactly that many. *)
Theorem assemble_part_quantized_full (instr_name : string) (time_signature : TimeSig)
    (melody : list NoteData) :
  In time_signature available_time_sigs ->
  4 <= get_time_signature_value time_signature ->
  Forall (fun nd => exists d g q,
            Quantizer.offered_grid g /\
            Quantizer.quantize_duration d g = Some q /\ duration nd == q) melody ->
  Forall (fun mc => snd mc == get_time_signature_value time_signature /\
                    measure_beats (fst mc) == get_time_signature_value time_signature)
         (assemble_part instr_name time_signature [] melody).
Proof.
  intros _ Hcap Hq. unfold assemble_part.
  apply (finish_part_unscheduled_full 4); [reflexivity | exact Hcap |].
  unfold short_notes. eapply Forall_impl; [|exact Hq].
  intros nd (d & g & q & _ & E & Eq).
  pose proof (quantize_duration_bounds d g q E). lra.
Qed.

Lemma assemble_part_quantized_full_witness :
  In ts_4_4 available_time_sigs /\
  4 <= get_time_signature_value ts_4_4 /\
  Forall (fun mc => snd mc == get_time_signature_value ts_4_4 /\
                    measure_beats (fst mc) == get_time_signature_value ts_4_4)
         (assemble_part "Flute" ts_4_4 [] [c5 (3 # 2); rest 4]).
Proof.
  assert (H : Forall (fun nd => exists d g q,
                Quantizer.offered_grid g /\
                Quantizer.quantize_duration d g = Some q /\ duration nd == q)
              [c5 (3 # 2); rest 4]).
  { constructor; [|constructor; [|constructor]].
    - exists (8 # 5), (1 # 2). eexists. split; [exact offered_grid_half|].
      split; [reflexivity|]. vm_compute. reflexivity.
    - exists 9, (1 # 2). eexists. split; [exact offered_grid_half|].
      split; [reflexivity|]. vm_compute. reflexivity. }
  split; [simpl; tauto|]. split; [vm_compute; discriminate|].
  apply (assemble_part_quantized_full "Flute" ts_4_4 [c5 (3 # 2); rest 4]);
    [simpl; tauto | vm_compute; discriminate | exact H].
Defined.

(** X17: for meters among the six on offer and durations that are
    positive whole numbers of thirty-second notes, the loop never places
    more beats than the melody holds: before the final padding, the beats
    in the part and the open measure are at most the sum of the
    durations, and exactly that sum when the melody has no rest. *)
Theorem assembler_never_adds_beats (instr_name : string) (time_signature : TimeSig)
    (time_sig_sequence : list (Z * TimeSig)) (melody : list NoteData) :
  offered_meters time_signature time_sig_sequence ->
  plain_durations melody ->
  let st := run_melody instr_name time_signature time_sig_sequence melody in
  placed_beats st <= melody_beats melody /\
  (Forall (fun nd => pitch_name nd <> R) melody ->
   placed_beats st == melody_beats melody).
Proof.
  intros _ _. cbv zeta. split;
    [|apply assembler_places_pitched_in_full].
  unfold run_melody, melody_beats.
  set (changes := build_time_sig_changes time_sig_sequence).
  assert (G : forall l st,
              placed_beats (fold_left (place_note instr_name changes) l st)
              <= placed_beats st + Markov.Qsum (map duration l)).
  { induction l as [|nd l IH]; intro st; simpl.
    - rewrite Qsum_nil. lra.
    - rewrite Qsum_cons. eapply Qle_trans; [apply IH|].
      pose proof (place_note_beats instr_name changes st nd) as Hstep.
      cbv zeta in Hstep. rewrite Hstep.
      destruct (is_rest _ && (Qltb _ (duration nd) && Qltb 0 _)) eqn:E.
      + apply andb_true_iff in E. destruct E as [_ E].
        apply andb_true_iff in E. destruct E as [E _]. apply Qltb_lt in E. lra.
      + lra. }
  specialize (G melody (initial_state time_signature)).
  change (placed_beats (initial_state time_signature)) with (0 + 0) in G.
  change (fold_left Qplus (map duration melody) 0)
    with (Markov.Qsum (map duration melody)).
  lra.
Qed.

Lemma assembler_never_adds_beats_witness :
  offered_meters ts_4_4 sample_schedule /\ plain_durations sample_melody /\
  let st := run_melody "Viola" ts_4_4 sample_schedule sample_melody in
  placed_beats st <= melody_beats sample_melody /\
  (Forall (fun nd => pitch_name nd <> R) sample_melody ->
   placed_beats st == melody_beats sample_melody).
Proof.
  split; [exact sample_schedule_offered|]. split; [exact sample_melody_plain|].
  apply (assembler_never_adds_beats "Viola" ts_4_4 sample_schedule sample_melody);
    [exact sample_schedule_offered | exact sample_melody_plain].
Defined.

End LayoutMoreFacts.


(** ** Dynamic marks and ties of an assembled part *)

Section LayoutTokenFacts.
Import Range Meter Layout.

Lemma token_marks_app (a b : list (option Element)) :
  token_marks (a ++ b) = token_marks a ++ token_marks b.
Proof.
  induction a as [|[[mark|ql|p ql v t]|] a IH]; cbn [app token_marks];
    rewrite ?IH; reflexivity.
Qed.

Lemma token_marks_elements_free (l : list Element) :
  Forall (fun e => match e with EDynamic _ => False | _ => True end) l ->
  token_marks (map Some l) = [].
Proof.
  induction 1 as [|e l He _ IH]; [reflexivity|].
  destruct e; [contradiction | exact IH | exact IH].
Qed.

Lemma ties_paired_app (D : Q -> Q -> Prop) (a b : list (option Element)) :
  ties_paired D a -> ties_paired D b -> ties_paired D (a ++ b).
Proof.
  intros Ha Hb.
  assert (G : forall n a, (List.length a <= n)%nat ->
              ties_paired D a -> ties_paired D (a ++ b)).
  { induction n as [|n IH]; intros l Hn Hl.
    - destruct l; [exact Hb | cbn in Hn; lia].
    - destruct l as [|[[mark|ql|p ql v [[|]|]]|] l]; cbn [app];
        [exact Hb | | | | | |];
        try (cbn [ties_paired] in *; apply IH; [cbn in Hn; lia | exact Hl]).
      + destruct l as [|[e1|] l]; [contradiction | contradiction |].
        destruct l as [|[[mark'|ql'|p' ql' v' [[|]|]]|] l]; try contradiction.
        cbn [app]. cbn [ties_paired] in *.
        destruct Hl as (Hp & Hv & Hd & Hl). repeat split; try assumption.
        apply IH; [cbn in Hn; lia | exact Hl].
      + contradiction. }
  apply (G (List.length a)); [apply Nat.le_refl | exact Ha].
Qed.

Lemma ties_paired_impl (D D' : Q -> Q -> Prop) :
  (forall q q', D q q' -> D' q q') ->
  forall l, ties_paired D l -> ties_paired D' l.
Proof.
  intros HD.
  assert (G : forall n l, (List.length l <= n)%nat ->
              ties_paired D l -> ties_paired D' l).
  { induction n as [|n IH]; intros l Hn Hl.
    - destruct l; [exact I | cbn in Hn; lia].
    - destruct l as [|[[mark|ql|p ql v [[|]|]]|] l];
        [exact I | | | | | |];
        try (cbn [ties_paired] in *; apply IH; [cbn in Hn; lia | exact Hl]).
      + destruct l as [|[e1|] l]; [contradiction | contradiction |].
        destruct l as [|[[mark'|ql'|p' ql' v' [[|]|]]|] l]; try contradiction.
        cbn [ties_paired] in *.
        destruct Hl as (Hp & Hv & Hd & Hl). repeat split; try assumption.
        * apply HD. exact Hd.
        * apply IH; [cbn in Hn; lia | exact Hl].
      + contradiction. }
  intros l. apply (G (List.length l)). apply Nat.le_refl.
Qed.

Lemma part_tokens_snoc (p : list (Measure * Q)) (m : Measure) (c : Q) :
  part_tokens (p ++ [(m, c)]) = part_tokens p ++ measure_tokens m.
Proof.
  unfold part_tokens. rewrite flat_map_app. cbn [flat_map fst].
  rewrite app_nil_r. reflexivity.
Qed.

Lemma tie_last_start_append (m : Measure) (l : list Element)
    (p : Pitch) (q : Q) (v : Z) (t : option TieKind) :
  elements (tie_last_start (append_elements m (l ++ [ENote p q v t])))
  = elements m ++ l ++ [ENote p q v (Some TieStart)].
Proof.
  unfold tie_last_start, append_elements. cbn [elements].
  rewrite app_assoc, rev_unit. cbn [elements].
  rewrite rev_involutive, app_assoc. reflexivity.
Qed.

Lemma state_tokens_apply_time_sig_change (changes : list (Z * TimeSig)) (st : State) :
  state_tokens (apply_time_sig_change changes st) = state_tokens st.
Proof.
  destruct (apply_time_sig_change_keeps changes st) as (Ep & Ee & _).
  cbv zeta in Ep, Ee. unfold state_tokens. rewrite Ep, Ee. reflexivity.
Qed.

(** The pitch the loop writes for a pitched note lies within the range
    looked up for the instrument. *)
Lemma adjust_pitch_in_range (p0 : Pitch) (instr_name : string) :
  exists p,
    adjust_pitch (Named p0) instr_name = Named p /\
    (midi (fst (instrument_range instr_name)) <= midi p
     <= midi (snd (instrument_range instr_name)))%Z.
Proof.
  destruct (instrument_range_bounds instr_name) as (_ & _ & Hlo & Hwide & Hhi).
  unfold adjust_pitch, adjust_pitch_to_range, enough_fuel.
  destruct (instrument_range instr_name) as [lo hi]. cbn [fst snd] in *.
  rewrite fold_into_range_spec by (lia || apply Nat.le_refl).
  eexists. split; [reflexivity|].
  destruct (fold_into_range_lands (midi lo) (midi hi) p0 Hlo Hwide Hhi) as (Em & Hin & _).
  rewrite Em. exact Hin.
Qed.

(** One step of the loop, seen from the tokens: tokens are only appended;
    those appended pair their ties, the two lengths of a pair adding up to
    the note's duration; the marks appended are the ones expected from
    the dynamic in force; and the notes appended lie within the range of
    the instrument. *)
Lemma place_note_tokens (instr_name : string) (changes : list (Z * TimeSig))
    (st : State) (nd : NoteData) :
  let st' := place_note instr_name changes st nd in
  exists new,
    state_tokens st' = state_tokens st ++ new /\
    ties_paired (fun q q' => q + q' == duration nd) new /\
    (forall later,
       token_marks new ++ dynamic_changes (current_dynamic st') later
       = dynamic_changes (current_dynamic st) (pitched_dynamics [nd] ++ later)) /\
    Forall (token_in_range instr_name) new.
Proof.
  cbv zeta.
  rewrite <- (state_tokens_apply_time_sig_change changes st).
  destruct (apply_time_sig_change_keeps changes st) as (_ & _ & _ & _ & Edyn & _).
  cbv zeta in Edyn. rewrite <- Edyn.
  unfold place_note, pitched_dynamics. cbv zeta. cbn [filter].
  set (st1 := apply_time_sig_change changes st).
  set (remaining := measure_length st1 - measure_duration st1).
  set (adjusted := if Qltb remaining (duration nd) && Qltb 0 remaining
                   then remaining else duration nd).
  destruct (pitch_name nd) as [|p0] eqn:Epn.
  - cbn [adjust_pitch is_rest negb map app].
    destruct (Qle_bool (measure_length st1) (measure_duration st1 + adjusted)).
    + exists [Some (ERest adjusted); None].
      split; [|split; [exact I | split; [intro later; reflexivity|]]];
        [|repeat (apply Forall_cons; [exact I|]); apply Forall_nil].
      unfold state_tokens. cbn [part current_measure elements map].
      rewrite part_tokens_snoc, app_nil_r. unfold measure_tokens.
      cbn [append_elements elements]. rewrite map_app, <- !app_assoc. reflexivity.
    + exists [Some (ERest adjusted)].
      split; [|split; [exact I | split; [intro later; reflexivity|]]];
        [|repeat (apply Forall_cons; [exact I|]); apply Forall_nil].
      unfold state_tokens. cbn [part current_measure append_elements elements].
      rewrite map_app, <- !app_assoc. reflexivity.
  - destruct (adjust_pitch_in_range p0 instr_name) as (p & -> & Hrange).
    cbn [is_rest negb map app].
    set (dyn_changed := match current_dynamic st1 with
                        | Some d => if string_dec (dyn nd) d then false else true
                        | None => true
                        end).
    set (marks := if dyn_changed then [EDynamic (dyn nd)] else []).
    assert (Hmarks : forall tail later,
              Forall (fun e => match e with EDynamic _ => False | _ => True end) tail ->
              token_marks (map Some (marks ++ tail))
              ++ dynamic_changes (if dyn_changed then Some (dyn nd)
                                  else current_dynamic st1) later
              = dynamic_changes (current_dynamic st1) (dyn nd :: later)).
    { intros tail later Htail. unfold marks, dyn_changed.
      cbn [dynamic_changes].
      destruct (current_dynamic st1) as [d|].
      - destruct (string_dec (dyn nd) d); cbn [app map token_marks];
          rewrite (token_marks_elements_free tail Htail); reflexivity.
      - cbn [app map token_marks].
        rewrite (token_marks_elements_free tail Htail). reflexivity. }
    assert (Hfree : forall l, ties_paired (fun q q' => q + q' == duration nd) l ->
              ties_paired (fun q q' => q + q' == duration nd) (map Some marks ++ l)).
    { intros l Hl. unfold marks. destruct dyn_changed; exact Hl. }
    assert (Hin : forall l,
              Forall (fun t => match t with
                               | Some (ENote p' _ _ _) => p' = p
                               | _ => True
                               end) l ->
              Forall (token_in_range instr_name) (map Some marks ++ l)).
    { intros l Hl. apply Forall_app. split.
      - unfold marks. destruct dyn_changed;
          repeat (apply Forall_cons; [exact I|]); apply Forall_nil.
      - eapply Forall_impl; [|exact Hl].
        intros [[mark|ql|p' ql v t]|] Ht; try exact I.
        cbn [token_in_range]. rewrite Ht. exact Hrange. }
    destruct (Qle_bool (measure_length st1) (measure_duration st1 + adjusted)).
    + destruct (Qltb adjusted (duration nd)) eqn:Ecarry.
      * exists (map Some marks
                ++ [Some (ENote p adjusted (vel nd) (Some TieStart)); None;
                    Some (ENote p (duration nd - adjusted) (vel nd) (Some TieStop))]).
        split; [|split; [|split]].
        -- unfold state_tokens. cbn [part current_measure].
           rewrite part_tokens_snoc. unfold measure_tokens.
           rewrite tie_last_start_append.
           cbn [append_elements elements app map].
           rewrite !map_app, <- !app_assoc. reflexivity.
        -- apply Hfree. cbn [ties_paired].
           repeat split; try reflexivity. ring.
        -- intro later. rewrite token_marks_app. cbn [token_marks app].
           rewrite app_nil_r.
           rewrite <- (Hmarks [] later (Forall_nil _)), app_nil_r. reflexivity.
        -- apply Hin. repeat (apply Forall_cons; [first [reflexivity | exact I]|]).
           apply Forall_nil.
      * exists (map Some marks ++ [Some (ENote p adjusted (vel nd) None); None]).
        split; [|split; [|split]].
        -- unfold state_tokens. cbn [part current_measure elements map].
           rewrite part_tokens_snoc, app_nil_r. unfold measure_tokens.
           cbn [append_elements elements].
           rewrite !map_app, <- !app_assoc. reflexivity.
        -- apply Hfree. exact I.
        -- intro later. rewrite token_marks_app. cbn [token_marks app].
           rewrite app_nil_r.
           rewrite <- (Hmarks [] later (Forall_nil _)), app_nil_r. reflexivity.
        -- apply Hin. repeat (apply Forall_cons; [first [reflexivity | exact I]|]).
           apply Forall_nil.
    + exists (map Some marks ++ [Some (ENote p adjusted (vel nd) None)]).
      split; [|split; [|split]].
      * unfold state_tokens. cbn [part current_measure append_elements elements].
        rewrite !map_app, <- !app_assoc. reflexivity.
      * apply Hfree. exact I.
      * intro later. rewrite token_marks_app. cbn [token_marks app].
        rewrite app_nil_r.
        rewrite <- (Hmarks [] later (Forall_nil _)), app_nil_r. reflexivity.
      * apply Hin. repeat (apply Forall_cons; [first [reflexivity | exact I]|]).
        apply Forall_nil.
Qed.

Lemma place_note_counted (instr_name : string) (changes : list (Z * TimeSig))
    (st : State) (nd : NoteData) :
  0 < duration nd ->
  open_measure_counted st ->
  open_measure_counted (place_note instr_name changes st nd).
Proof.
  intros Hd [H0 _]. unfold open_measure_counted.
  destruct (apply_time_sig_change_keeps changes st) as (_ & _ & _ & Ed & _).
  cbv zeta in Ed. rewrite <- Ed in H0.
  unfold place_note. cbv zeta.
  set (st1 := apply_time_sig_change changes st) in *.
  set (remaining := measure_length st1 - measure_duration st1).
  set (adjusted := if Qltb remaining (duration nd) && Qltb 0 remaining
                   then remaining else duration nd).
  assert (Hadj : 0 < adjusted).
  { unfold adjusted. destruct (Qltb remaining (duration nd));
      destruct (Qltb 0 remaining) eqn:E2; cbn [andb]; try exact Hd.
    apply Qltb_lt in E2. exact E2. }
  destruct (Qle_bool (measure_length st1) (measure_duration st1 + adjusted)).
  - destruct (adjust_pitch (pitch_name nd) instr_name) as [|p].
    + cbn [measure_duration current_measure elements]. split; [lra | left; reflexivity].
    + destruct (Qltb adjusted (duration nd)) eqn:Ecarry.
      * apply Qltb_lt in Ecarry. cbn [measure_duration]. split; [lra | right; lra].
      * cbn [measure_duration current_measure elements].
        split; [lra | left; reflexivity].
  - destruct (adjust_pitch (pitch_name nd) instr_name) as [|p];
      cbn [measure_duration]; (split; [lra | right; lra]).
Qed.

Lemma run_melody_counted (instr_name : string) (time_signature : TimeSig)
    (time_sig_sequence : list (Z * TimeSig)) (melody : list NoteData) :
  positive_durations melody ->
  open_measure_counted (run_melody instr_name time_signature time_sig_sequence melody).
Proof.
  unfold run_melody.
  set (changes := build_time_sig_changes time_sig_sequence).
  assert (G : forall l st, positive_durations l -> open_measure_counted st ->
              open_measure_counted (fold_left (place_note instr_name changes) l st)).
  { induction l as [|nd l IH]; intros st Hl Hst; simpl; [exact Hst|].
    inversion Hl as [|? ? Hnd Hl']; subst.
    apply IH; [exact Hl' | now apply place_note_counted]. }
  intro Hpos. apply G; [exact Hpos|].
  split; [cbn; lra | left; reflexivity].
Qed.

(** The marks written while a melody is placed are the ones expected from
    the dynamics of its pitched notes. *)
Lemma run_melody_marks (instr_name : string) (time_signature : TimeSig)
    (time_sig_sequence : list (Z * TimeSig)) (melody : list NoteData) :
  token_marks (state_tokens
                 (run_melody instr_name time_signature time_sig_sequence melody))
  = dynamic_changes None (pitched_dynamics melody).
Proof.
  unfold run_melody.
  set (changes := build_time_sig_changes time_sig_sequence).
  assert (G : forall l st,
              token_marks (state_tokens (fold_left (place_note instr_name changes) l st))
              = token_marks (state_tokens st)
                ++ dynamic_changes (current_dynamic st) (pitched_dynamics l)).
  { induction l as [|nd l IH]; intro st; simpl.
    - rewrite app_nil_r. reflexivity.
    - rewrite IH.
      destruct (place_note_tokens instr_name changes st nd) as (new & Et & _ & Hm & _).
      cbv zeta in Et, Hm. rewrite Et, token_marks_app, <- app_assoc, Hm.
      f_equal. f_equal. unfold pitched_dynamics. cbn [filter].
      destruct (negb (is_rest (pitch_name nd))); reflexivity. }
  rewrite G. reflexivity.
Qed.

Lemma run_melody_ties (instr_name : string) (time_signature : TimeSig)
    (time_sig_sequence : list (Z * TimeSig)) (melody : list NoteData) :
  ties_paired (fun q q' => exists nd, In nd melody /\ q + q' == duration nd)
    (state_tokens (run_melody instr_name time_signature time_sig_sequence melody)).
Proof.
  unfold run_melody.
  set (changes := build_time_sig_changes time_sig_sequence).
  set (D := fun q q' => exists nd, In nd melody /\ q + q' == duration nd).
  assert (G : forall l st, (forall nd, In nd l -> In nd melody) ->
              ties_paired D (state_tokens st) ->
              ties_paired D (state_tokens (fold_left (place_note instr_name changes) l st))).
  { induction l as [|nd l IH]; intros st Hl Hst; simpl; [exact Hst|].
    apply IH; [intros x Hx; apply Hl; right; exact Hx|].
    destruct (place_note_tokens instr_name changes st nd) as (new & Et & Hties & _ & _).
    cbv zeta in Et. rewrite Et. apply ties_paired_app; [exact Hst|].
    apply (ties_paired_impl (fun q q' => q + q' == duration nd)); [|exact Hties].
    intros q q' E. exists nd. split; [apply Hl; left; reflexivity | exact E]. }
  apply G; [auto | exact I].
Qed.

(** Lines 731-737 seen from the tokens: the open measure gets its padding
    rest and its bar line, unless it holds nothing. *)
Lemma finish_part_tokens (st : State) :
  open_measure_counted st ->
  exists pad,
    part_tokens (finish_part st) = state_tokens st ++ pad /\
    token_marks pad = [] /\
    forall D, ties_paired D pad.
Proof.
  intros [H0 Hopen]. unfold finish_part.
  destruct (Qltb 0 (measure_duration st)) eqn:Epos.
  - destruct (Qltb (measure_duration st) (measure_length st)).
    + exists [Some (ERest (measure_length st - measure_duration st)); None].
      split; [|split; [reflexivity | intro D; exact I]].
      rewrite part_tokens_snoc. unfold state_tokens, measure_tokens.
      cbn [append_elements elements]. rewrite map_app, <- !app_assoc. reflexivity.
    + exists [None]. split; [|split; [reflexivity | intro D; exact I]].
      rewrite part_tokens_snoc. unfold state_tokens, measure_tokens.
      rewrite <- app_assoc. reflexivity.
  - exists []. split; [|split; [reflexivity | intro D; exact I]].
    apply Qltb_ge in Epos. destruct Hopen as [E | Hlt]; [|lra].
    unfold state_tokens. rewrite E. cbn [map]. rewrite !app_nil_r. reflexivity.
Qed.

Lemma dynamic_changes_no_repeat (dyns : list string) :
  forall current,
    no_repeat (dynamic_changes current dyns) /\
    forall d rest, dynamic_changes current dyns = d :: rest -> current <> Some d.
Proof.
  induction dyns as [|d dyns IH]; intro current; cbn [dynamic_changes].
  - split; [exact I | discriminate].
  - assert (Hnew : no_repeat (d :: dynamic_changes (Some d) dyns)).
    { destruct (IH (Some d)) as [Hn Hh]. cbn [no_repeat].
      destruct (dynamic_changes (Some d) dyns) as [|y rest] eqn:E; [exact I|].
      split; [|exact Hn]. intro Ey. apply (Hh y rest eq_refl). now subst. }
    destruct current as [c|].
    + destruct (string_dec d c) as [-> | Hne]; [apply IH|].
      split; [exact Hnew|]. intros d' rest E. injection E as <- _. congruence.
    + split; [exact Hnew | discriminate].
Qed.

Lemma no_repeat_prefix (a b : list string) : no_repeat (a ++ b) -> no_repeat a.
Proof.
  induction a as [|x a IH]; [intros; exact I|].
  destruct a as [|y a]; [intros; exact I|].
  cbn [app no_repeat]. intros [Hne H]. split; [exact Hne | exact (IH H)].
Qed.

(** X18: the dynamic marks of an assembled part, read in order, are
    exactly the changes of dynamic along the pitched notes of the melody:
    the first pitched note gets a mark, a later one gets a mark when its
    dynamic differs from that of the pitched note before it, and rests
    neither get a mark nor reset the dynamic in force. *)
Theorem assemble_part_dynamic_marks (instr_name : string) (time_signature : TimeSig)
    (time_sig_sequence : list (Z * TimeSig)) (melody : list NoteData) :
  positive_durations melody ->
  token_marks (part_tokens
                 (assemble_part instr_name time_signature time_sig_sequence melody))
  = dynamic_changes None (pitched_dynamics melody).
Proof.
  intro Hpos. unfold assemble_part.
  destruct (finish_part_tokens _
              (run_melody_counted instr_name time_signature time_sig_sequence
                 melody Hpos)) as (pad & Et & Em & _).
  rewrite Et, token_marks_app, Em, app_nil_r. apply run_melody_marks.
Qed.

Lemma sample_melody_positive : positive_durations sample_melody.
Proof.
  repeat constructor.
Qed.

Lemma assemble_part_dynamic_marks_witness :
  positive_durations sample_melody /\
  token_marks (part_tokens (assemble_part "Viola" ts_4_4 sample_schedule sample_melody))
  = dynamic_changes None (pitched_dynamics sample_melody).
Proof.
  split; [exact sample_melody_positive|].
  apply (assemble_part_dynamic_marks "Viola" ts_4_4 sample_schedule sample_melody).
  exact sample_melody_positive.
Defined.

(** X19: whatever the melody, no dynamic mark of an assembled part repeats
    the mark before it. *)
Theorem assemble_part_no_repeated_mark (instr_name : string)
    (time_signature : TimeSig) (time_sig_sequence : list (Z * TimeSig))
    (melody : list NoteData) :
  no_repeat (token_marks
               (part_tokens
                  (assemble_part instr_name time_signature time_sig_sequence melody))).
Proof.
  pose proof (run_melody_marks instr_name time_signature time_sig_sequence melody) as Hm.
  pose proof (proj1 (dynamic_changes_no_repeat (pitched_dynamics melody) None)) as Hn.
  rewrite <- Hm in Hn. clear Hm.
  unfold assemble_part, finish_part.
  set (st := run_melody instr_name time_signature time_sig_sequence melody) in *.
  unfold state_tokens in Hn. rewrite token_marks_app in Hn.
  destruct (Qltb 0 (measure_duration st)).
  - rewrite part_tokens_snoc, token_marks_app. unfold measure_tokens.
    rewrite token_marks_app. cbn [token_marks]. rewrite app_nil_r.
    destruct (Qltb (measure_duration st) (measure_length st)); [|exact Hn].
    cbn [append_elements elements]. rewrite map_app, token_marks_app.
    cbn [map token_marks]. rewrite app_nil_r. exact Hn.
  - exact (no_repeat_prefix _ _ Hn).
Qed.

(** X20: in a part assembled from a melody of positive durations, tie
    marks occur only in pairs across a bar line: a tie-start note is the
    last element of its measure and the next measure opens with a
    tie-stop note of the same pitch and velocity, and the lengths of the
    two add up to the duration of a note of the melody. *)
Theorem assemble_part_ties_paired (instr_name : string) (time_signature : TimeSig)
    (time_sig_sequence : list (Z * TimeSig)) (melody : list NoteData) :
  positive_durations melody ->
  ties_paired (fun q q' => exists nd, In nd melody /\ q + q' == duration nd)
    (part_tokens (assemble_part instr_name time_signature time_sig_sequence melody)).
Proof.
  intro Hpos. unfold assemble_part.
  destruct (finish_part_tokens _
              (run_melody_counted instr_name time_signature time_sig_sequence
                 melody Hpos)) as (pad & Et & _ & Hpad).
  rewrite Et. apply ties_paired_app; [apply run_melody_ties | apply Hpad].
Qed.

Lemma assemble_part_ties_paired_witness :
  positive_durations sample_melody /\
  ties_paired (fun q q' => exists nd, In nd sample_melody /\ q + q' == duration nd)
    (part_tokens (assemble_part "Viola" ts_4_4 sample_schedule sample_melody)).
Proof.
  split; [exact sample_melody_positive|].
  apply (assemble_part_ties_paired "Viola" ts_4_4 sample_schedule sample_melody).
  exact sample_melody_positive.
Defined.

Lemma finish_part_in_range (instr_name : string)
    (time_signature : TimeSig) (time_sig_sequence : list (Z * TimeSig))
    (melody : list NoteData) :
  Forall (token_in_range instr_name)
         (part_tokens
            (finish_part
               (run_melody instr_name time_signature time_sig_sequence melody))).
Proof.
  unfold run_melody.
  set (changes := build_time_sig_changes time_sig_sequence).
  assert (G : forall l st,
              Forall (token_in_range instr_name) (state_tokens st) ->
              Forall (token_in_range instr_name)
                     (state_tokens (fold_left (place_note instr_name changes) l st))).
  { induction l as [|nd l IH]; intros st Hst; simpl; [exact Hst|].
    apply IH.
    destruct (place_note_tokens instr_name changes st nd) as (new & Et & _ & _ & Hnew).
    cbv zeta in Et. rewrite Et. apply Forall_app. split; assumption. }
  specialize (G melody (initial_state time_signature) (Forall_nil _)).
  set (st := fold_left (place_note instr_name changes) melody
                       (initial_state time_signature)) in *.
  unfold state_tokens in G. apply Forall_app in G. destruct G as [Hpart Hopen].
  unfold finish_part.
  destruct (Qltb 0 (measure_duration st)); [|exact Hpart].
  rewrite part_tokens_snoc. apply Forall_app. split; [exact Hpart|].
  unfold measure_tokens. apply Forall_app. split; [|repeat constructor].
  destruct (Qltb (measure_duration st) (measure_length st)); [|exact Hopen].
  cbn [append_elements elements]. rewrite map_app.
  apply Forall_app. split; [exact Hopen | repeat constructor].
Qed.

(** X21: every note of an assembled part, tied fragments included, lies
    within the range looked up for the instrument of the part, whatever
    pitches the melody holds. *)
Theorem assemble_part_pitches_in_range (instr_name : string)
    (time_signature : TimeSig) (time_sig_sequence : list (Z * TimeSig))
    (melody : list NoteData) :
  Forall (token_in_range instr_name)
         (part_tokens
            (assemble_part instr_name time_signature time_sig_sequence melody)).
Proof.
  apply finish_part_in_range.
Qed.

End LayoutTokenFacts.


(** ** Meter schedule, continued *)

Section ScheduleMoreFacts.
Import Meter Layout Workflow.
Local Open Scope Z_scope.

Lemma other_sigs_available (cur sig : TimeSig) :
  In sig (other_sigs cur) -> In sig available_time_sigs.
Proof.
  unfold other_sigs. rewrite filter_In. tauto.
Qed.

(** Past measure 1 the loop only appends entries, each for a measure it
    visits and with one of the six meters on offer. *)
Lemma schedule_loop_entries (measures : list Z) :
  forall (acc : list (Z * TimeSig)) (cur : TimeSig) (s : Random.Source),
    Forall (fun m => 1 < m) measures ->
    exists added s',
      schedule_loop measures acc cur s = Some (acc ++ added, s') /\
      Forall (fun e => In (fst e) measures /\ In (snd e) available_time_sigs) added.
Proof.
  induction measures as [|m measures IH]; intros acc cur s Hm.
  - exists [], s. rewrite app_nil_r. split; [reflexivity | constructor].
  - inversion Hm as [|? ? Hlt Hrest]; subst.
    cbn [schedule_loop].
    destruct (Z.ltb_spec 1 m) as [_ | Hbad]; [|lia].
    unfold Random.bind at 1 2. unfold Random.random, Random.bind at 1.
    unfold Random.next_word, Random.ret at 1 2.
    match goal with
    | |- context [Qltb ?u (15 # 100)] => destruct (Qltb u (15 # 100))
    end.
    + unfold Random.bind at 1.
      match goal with
      | |- context [Random.choice (other_sigs cur) ?s1] =>
          destruct (choice_In (other_sigs cur) s1 (other_sigs_nonempty cur))
            as (new_sig & s2 & E & Hin)
      end.
      rewrite E.
      destruct (IH (acc ++ [(m, new_sig)]) new_sig s2 Hrest)
        as (added & s' & Er & Hadded).
      exists ((m, new_sig) :: added), s'. split.
      * rewrite Er, <- app_assoc. reflexivity.
      * constructor.
        -- split; [left; reflexivity | exact (other_sigs_available _ _ Hin)].
        -- eapply Forall_impl; [|exact Hadded].
           intros e [H1 H2]. split; [right; exact H1 | exact H2].
    + destruct (Z.eqb_spec m 1) as [Hbad | _]; [lia|].
      match goal with
      | |- context [schedule_loop measures acc cur ?s1] =>
          destruct (IH acc cur s1 Hrest) as (added & s'' & Er & Hadded)
      end.
      exists added, s''. split; [exact Er|].
      eapply Forall_impl; [|exact Hadded].
      intros e [H1 H2]. split; [right; exact H1 | exact H2].
Qed.

Lemma schedule_after_first (base_time_sig : TimeSig) (num_measures : Z)
    (s : Random.Source) :
  1 <= num_measures ->
  exists added s',
    generate_time_signature_sequence base_time_sig num_measures true s
    = Some ((1, base_time_sig) :: added, s') /\
    Forall (fun e => 2 <= fst e <= num_measures /\ In (snd e) available_time_sigs)
           added.
Proof.
  intro Hn. unfold generate_time_signature_sequence, range_from_1. cbn [negb].
  destruct (Z.to_nat num_measures) as [|len] eqn:E; [lia|].
  cbn [seq map schedule_loop].
  change (Z.of_nat 1) with 1. cbn [Z.ltb Z.compare Pos.compare Z.eqb Pos.eqb].
  unfold Random.bind at 1. unfold Random.ret at 1. cbn [app].
  assert (Hms : Forall (fun m => 1 < m) (map Z.of_nat (seq 2 len))).
  { apply Forall_forall. intros m Hin. apply in_map_iff in Hin.
    destruct Hin as (x & <- & Hx). apply in_seq in Hx. lia. }
  destruct (schedule_loop_entries _ [(1, base_time_sig)] base_time_sig s Hms)
    as (added & s' & Er & Hadded).
  exists added, s'. split; [exact Er|].
  eapply Forall_impl; [|exact Hadded].
  intros e [H1 H2]. split; [|exact H2].
  apply in_map_iff in H1. destruct H1 as (x & <- & Hx). apply in_seq in Hx. lia.
Qed.

(** X22: with random changes enabled and at least one measure, the
    schedule is the entry (1, base meter) followed by entries for
    measures 2 to [num_measures] only, each with one of the six meters on
    offer, whatever the base meter is. *)
Theorem generate_time_signature_sequence_entries (base_time_sig : TimeSig)
    (num_measures : Z) (s : Random.Source) :
  1 <= num_measures ->
  exists added s',
    generate_time_signature_sequence base_time_sig num_measures true s
    = Some ((1, base_time_sig) :: added, s') /\
    Forall (fun e => 2 <= fst e <= num_measures /\ In (snd e) available_time_sigs)
           added.
Proof.
  apply schedule_after_first.
Qed.

Lemma generate_time_signature_sequence_entries_witness :
  1 <= 12 /\
  exists added s',
    generate_time_signature_sequence (mkTimeSig 5 4) 12 true Markov.zero_source
    = Some ((1, mkTimeSig 5 4) :: added, s') /\
    Forall (fun e => 2 <= fst e <= 12 /\ In (snd e) available_time_sigs) added.
Proof.
  split; [lia|].
  apply (generate_time_signature_sequence_entries (mkTimeSig 5 4) 12 Markov.zero_source).
  lia.
Defined.

Lemma generate_time_signature_sequence_returns (base_time_sig : TimeSig)
    (num_measures : Z) (random_changes : bool) (s : Random.Source) :
  exists r s',
    generate_time_signature_sequence base_time_sig num_measures random_changes s
    = Some (r, s') /\
    schedule_chain r.
Proof.
  unfold generate_time_signature_sequence, range_from_1.
  destruct random_changes; cbn [negb].
  - destruct (Z.to_nat num_measures) as [|len] eqn:E.
    + exists [], s. split; [reflexivity | exact I].
    + cbn [seq map schedule_loop].
      change (Z.of_nat 1) with 1. cbn [Z.ltb Z.compare Pos.compare Z.eqb Pos.eqb].
      unfold Random.bind at 1. unfold Random.ret at 1. cbn [app].
      destruct (schedule_loop_ok len 2 [] 1 base_time_sig s)
        as (r & s' & Er & Hr & _); [lia | lia | exact I |].
      exists r, s'. split; [exact Er | exact Hr].
  - exists [(1, base_time_sig)], s. split; [reflexivity | exact I].
Qed.

Lemma schedule_chain_first_least (x : Z * TimeSig) (l : list (Z * TimeSig)) :
  schedule_chain (x :: l) -> Forall (fun y => fst x < fst y) l.
Proof.
  revert x. induction l as [|y l IH]; intros x Hc; [constructor|].
  destruct Hc as (Hlt & _ & Hc). constructor; [exact Hlt|].
  eapply Forall_impl; [|exact (IH y Hc)]. intros z Hz. cbv beta in *. lia.
Qed.

Lemma schedule_chain_NoDup (l : list (Z * TimeSig)) :
  schedule_chain l -> NoDup (map fst l).
Proof.
  induction l as [|x l IH]; intro Hc; [constructor|].
  pose proof (schedule_chain_first_least x l Hc) as Hlt.
  cbn [map]. constructor.
  - intro Hin. apply in_map_iff in Hin. destruct Hin as (y & Ey & Hy).
    rewrite Forall_forall in Hlt. specialize (Hlt y Hy). lia.
  - apply IH. destruct l as [|y l]; [exact I|]. destruct Hc as (_ & _ & Hc). exact Hc.
Qed.

(** With distinct measure numbers the lookup table holds the entries of
    the schedule and nothing else. *)
Lemma build_time_sig_changes_lookup (l : list (Z * TimeSig)) (k : Z) (ts : TimeSig) :
  NoDup (map fst l) ->
  Dict.get k (build_time_sig_changes l) = Some ts <-> In (k, ts) l.
Proof.
  intro Hnd. unfold build_time_sig_changes.
  assert (G : forall l d,
              NoDup (map fst l) ->
              (forall x, In x (map fst l) -> ~ In x (Dict.keys d)) ->
              Dict.get k (fold_left (fun d e => Dict.set (fst e) (snd e) d) l d) = Some ts
              <-> Dict.get k d = Some ts \/ In (k, ts) l).
  { clear l Hnd. induction l as [|[k0 v0] l IH]; intros d Hnd Hfresh.
    - cbn [fold_left]. simpl. tauto.
    - cbn [fold_left fst snd]. cbn [map fst] in Hnd, Hfresh.
      inversion Hnd as [|? ? Hk0 Hnd']; subst.
      rewrite IH; [|exact Hnd'|].
      + assert (Hnot : Dict.get k0 d = None).
        { destruct (Dict.get k0 d) as [v|] eqn:E; [|reflexivity].
          exfalso. apply (Hfresh k0); [left; reflexivity|].
          eapply Dict_get_key_In; exact E. }
        destruct (Z.eq_dec k0 k) as [-> | N].
        * rewrite Dict_get_set_eq, Hnot. simpl. split.
          -- intros [E | Hin]; [injection E as <-; right; left; reflexivity
                               | right; right; exact Hin].
          -- intros [E | [E | Hin]]; [discriminate | injection E as <-; left; reflexivity
                                       | right; exact Hin].
        * rewrite (Dict_get_set_neq k0 k v0 d N). simpl. split.
          -- intros [E | Hin]; [left; exact E | right; right; exact Hin].
          -- intros [E | [E | Hin]]; [left; exact E | congruence | right; exact Hin].
      + intros x Hx Hin. apply Dict_keys_set in Hin. destruct Hin as [-> | Hin].
        * exact (Hk0 Hx).
        * apply (Hfresh x); [right; exact Hx | exact Hin]. }
  rewrite (G l [] Hnd); [simpl; split; [intros [E | Hin]; [discriminate | exact Hin]
                                        | intro Hin; right; exact Hin]|].
  intros x _ [].
Qed.

(** X23: the schedule generator always returns, and the table the
    assembler builds from its result holds exactly the entries of the
    schedule: no entry is lost or replaced by another. *)
Theorem generated_schedule_lookup (base_time_sig : TimeSig) (num_measures : Z)
    (random_changes : bool) (s : Random.Source) :
  exists r s',
    generate_time_signature_sequence base_time_sig num_measures random_changes s
    = Some (r, s') /\
    forall k ts, Dict.get k (build_time_sig_changes r) = Some ts <-> In (k, ts) r.
Proof.
  destruct (generate_time_signature_sequence_returns base_time_sig num_measures
              random_changes s) as (r & s' & Er & Hr).
  exists r, s'. split; [exact Er|]. intros k ts.
  apply build_time_sig_changes_lookup, schedule_chain_NoDup, Hr.
Qed.

Lemma estimated_measures_closed (melody_length : Z) :
  0 <= melody_length ->
  estimated_measures melody_length = 3 * melody_length / 14 + 10.
Proof.
  intro Hm. unfold estimated_measures, py_int. cbv zeta.
  set (x := (inject_Z melody_length * (75 # 100) / (35 # 10))%Q).
  assert (Hx : (x == (3 * melody_length) # 14)%Q).
  { unfold x, Qeq, Qdiv, Qmult, Qinv, inject_Z. cbn [Qnum Qden]. lia. }
  assert (Hneg : Qltb x 0 = false).
  { destruct (Qltb x 0) eqn:E; [|reflexivity].
    apply Qltb_lt in E. rewrite Hx in E. unfold Qlt in E. cbn [Qnum Qden] in E. lia. }
  rewrite Hneg, (Qfloor_comp _ _ Hx). reflexivity.
Qed.

(** X24: for a melody length from 0 to 2^40, where the float quotient
    has the integer part of the exact one, the front end asks for
    [3 * melody_length / 14 + 10] measures (integer division), at least
    ten, so the schedule it gets always opens with (1, base meter). *)
Theorem estimated_measures_schedule (base_time_sig : TimeSig) (melody_length : Z)
    (s : Random.Source) :
  0 <= melody_length <= 2 ^ 40 ->
  estimated_measures melody_length = 3 * melody_length / 14 + 10 /\
  10 <= estimated_measures melody_length /\
  exists added s',
    generate_time_signature_sequence base_time_sig
      (estimated_measures melody_length) true s
    = Some ((1, base_time_sig) :: added, s').
Proof.
  intros [Hm _]. pose proof (estimated_measures_closed melody_length Hm) as E.
  assert (H10 : 10 <= estimated_measures melody_length).
  { rewrite E. assert (0 <= 3 * melody_length / 14) by (apply Z.div_pos; lia). lia. }
  split; [exact E|]. split; [exact H10|].
  destruct (schedule_after_first base_time_sig (estimated_measures melody_length) s)
    as (added & s' & Er & _); [lia|].
  exists added, s'. exact Er.
Qed.

Lemma estimated_measures_schedule_witness :
  0 <= 32 <= 2 ^ 40 /\
  estimated_measures 32 = 3 * 32 / 14 + 10 /\
  10 <= estimated_measures 32 /\
  exists added s',
    generate_time_signature_sequence ts_3_4 (estimated_measures 32) true
      Markov.zero_source
    = Some ((1, ts_3_4) :: added, s').
Proof.
  split; [lia|].
  apply (estimated_measures_schedule ts_3_4 32 Markov.zero_source). lia.
Defined.

End ScheduleMoreFacts.


(** ** Instrument groups *)

Section GroupingFacts.
Import Range Workflow.

Lemma of_base_app (b : string) (l1 l2 : list string) :
  of_base b (l1 ++ l2) = of_base b l1 ++ of_base b l2.
Proof.
  unfold of_base. apply filter_app.
Qed.

Lemma Dict_In_get {K V} `{EqDec K} (k : K) (v : V) (d : list (K * V)) :
  NoDup (Dict.keys d) -> In (k, v) d -> Dict.get k d = Some v.
Proof.
  induction d as [|[k' v'] d IH]; simpl; intros Hnd Hin; [contradiction|].
  inversion Hnd as [|? ? Hk Hnd']; subst.
  destruct Hin as [E | Hin].
  - injection E as -> ->. destruct (eq_dec k k); [reflexivity | congruence].
  - destruct (eq_dec k k') as [-> | N]; [|exact (IH Hnd' Hin)].
    exfalso. apply Hk. unfold Dict.keys in *.
    apply in_map_iff. exists (k', v). split; [reflexivity | exact Hin].
Qed.

(** One turn of the grouping loop never raises and files the instrument
    at the end of the group of its base name. *)
Lemma add_to_group_ok (groups : list (string * list string))
    (seen : list string) (instr : string) :
  (forall b, Dict.get b groups
             = match of_base b seen with [] => None | g => Some g end) ->
  exists groups',
    add_to_group groups instr = Some groups' /\
    (forall b, Dict.get b groups'
               = match of_base b (seen ++ [instr]) with [] => None | g => Some g end) /\
    (NoDup (Dict.keys groups) -> NoDup (Dict.keys groups')).
Proof.
  intro Hinv. unfold add_to_group. cbv zeta.
  assert (Hone : forall b, of_base b [instr]
                 = if string_dec (before_sep " #" instr) b then [instr] else []).
  { intro b. unfold of_base. cbn [filter].
    destruct (string_dec (before_sep " #" instr) b); reflexivity. }
  set (base := before_sep " #" instr) in *.
  pose proof (Hinv base) as Hbase.
  destruct (Dict.get base groups) as [members|] eqn:Eg.
  - rewrite Eg. eexists. split; [reflexivity|]. split; [|apply Dict_set_NoDup].
    intro b. rewrite of_base_app, Hone.
    destruct (string_dec base b) as [<- | N].
    + rewrite Dict_get_set_eq.
      destruct (of_base base seen) as [|x l]; [discriminate|].
      injection Hbase as ->. reflexivity.
    + rewrite (Dict_get_set_neq base b _ _ N), app_nil_r. apply Hinv.
  - rewrite Dict_get_set_eq. eexists. split; [reflexivity|]. split.
    + intro b. rewrite of_base_app, Hone.
      destruct (string_dec base b) as [<- | N].
      * rewrite Dict_get_set_eq.
        destruct (of_base base seen) as [|x l]; [reflexivity | discriminate].
      * rewrite !(Dict_get_set_neq base b _ _ N), app_nil_r. apply Hinv.
    + intro Hnd. apply Dict_set_NoDup, Dict_set_NoDup, Hnd.
Qed.

Lemma group_instruments_by_type_ok (selected_instruments : list string) :
  exists groups,
    group_instruments_by_type selected_instruments = Some groups /\
    (forall b, Dict.get b groups
               = match of_base b selected_instruments with
                 | [] => None
                 | g => Some g
                 end) /\
    NoDup (Dict.keys groups).
Proof.
  unfold group_instruments_by_type.
  assert (G : forall rest seen groups,
              (forall b, Dict.get b groups
                         = match of_base b seen with [] => None | g => Some g end) ->
              NoDup (Dict.keys groups) ->
              exists groups',
                group_loop rest groups = Some groups' /\
                (forall b, Dict.get b groups'
                           = match of_base b (seen ++ rest) with
                             | [] => None
                             | g => Some g
                             end) /\
                NoDup (Dict.keys groups')).
  { induction rest as [|instr rest IH]; intros seen groups Hinv Hnd.
    - exists groups. rewrite app_nil_r. split; [reflexivity | split; assumption].
    - cbn [group_loop].
      destruct (add_to_group_ok groups seen instr Hinv) as (g1 & E1 & Hinv1 & Hnd1).
      rewrite E1.
      destruct (IH (seen ++ [instr]) g1 Hinv1 (Hnd1 Hnd)) as (g2 & E2 & Hinv2 & Hnd2).
      exists g2. rewrite <- app_assoc in Hinv2. split; [exact E2 | split; assumption]. }
  destruct (G selected_instruments [] []) as (groups & E & Hinv & Hnd).
  - intro b. reflexivity.
  - constructor.
  - cbn [app] in Hinv. exists groups. split; [exact E|]. split; assumption.
Qed.

(** X25: grouping never raises, and it splits the list by base name (the
    part of a name before its doubling suffix): the group stored for a
    base name is the instruments of that base name in their original
    order, so no group is empty, and a base name is a key exactly when
    some instrument has it. *)
Theorem group_instruments_by_type_groups (selected_instruments : list string) :
  exists groups,
    group_instruments_by_type selected_instruments = Some groups /\
    (forall b, Dict.get b groups
               = match of_base b selected_instruments with
                 | [] => None
                 | g => Some g
                 end) /\
    (forall b g, In (b, g) groups -> g = of_base b selected_instruments /\ g <> []).
Proof.
  destruct (group_instruments_by_type_ok selected_instruments)
    as (groups & E & Hinv & Hnd).
  exists groups. split; [exact E|]. split; [exact Hinv|].
  intros b g Hin. pose proof (Dict_In_get b g groups Hnd Hin) as Hg.
  rewrite Hinv in Hg.
  destruct (of_base b selected_instruments) as [|x l]; [discriminate|].
  injection Hg as <-. split; [reflexivity | discriminate].
Qed.

End GroupingFacts.


(** ** One group of instruments, end to end *)

Section GroupFacts.
Import Range Meter Markov Generation Layout Workflow.

Lemma quantize_data_ok (quantization : Q) (training_data : list Note) :
  ~ quantization == 0 ->
  Forall (fun n => Qabs (this (Markov.duration n) / quantization) < FLOAT_OVERFLOW)
         training_data ->
  exists quantized_data,
    quantize_data quantization training_data = Some quantized_data /\
    List.length quantized_data = List.length training_data /\
    Forall (fun n => 1 # 8 <= this (Markov.duration n) <= 4) quantized_data.
Proof.
  intros NZ Hfin. induction training_data as [|n rest IH].
  - exists []. split; [reflexivity|]. split; [reflexivity | constructor].
  - inversion Hfin as [|? ? Hn Hrest]; subst.
    destruct (IH Hrest) as (rest' & Er & Hl & Hall).
    cbn [quantize_data]. unfold quantize_note.
    rewrite (quantize_duration_unfold _ _ NZ Hn), Er.
    eexists. split; [reflexivity|]. split; [cbn [List.length]; congruence|].
    constructor; [|exact Hall]. cbn [Markov.duration Q2Qc this].
    rewrite Qred_correct.
    apply (quantize_duration_bounds (this (Markov.duration n)) quantization).
    apply (quantize_duration_unfold _ _ NZ Hn).
Qed.

Lemma parts_of_ok (melodies_dict : list (string * list Note))
    (time_signature : TimeSig) (instr_list : list string) :
  4 <= get_time_signature_value time_signature ->
  (forall instrument, In instrument instr_list ->
     exists melody,
       Dict.get instrument melodies_dict = Some melody /\
       Forall (fun n => 1 # 8 <= this (Markov.duration n) <= 4) melody) ->
  exists parts,
    parts_of melodies_dict instr_list time_signature = Some parts /\
    map fst parts = instr_list /\
    Forall (fun ip =>
              Forall (fun mc =>
                        snd mc == get_time_signature_value time_signature /\
                        measure_beats (fst mc)
                        == get_time_signature_value time_signature)
                     (snd ip) /\
              Forall (token_in_range (fst ip)) (part_tokens (snd ip)))
           parts.
Proof.
  intros Hcap. induction instr_list as [|instrument rest IH]; intro Hall.
  - exists []. split; [reflexivity|]. split; [reflexivity | constructor].
  - destruct IH as (parts & Ep & Hfst & Hparts).
    { intros i Hi. apply Hall. right. exact Hi. }
    destruct (Hall instrument (or_introl eq_refl)) as (melody & Em & Hmel).
    cbn [parts_of]. rewrite Em, Ep. eexists. split; [reflexivity|].
    split; [cbn [map fst]; congruence|].
    constructor; [|exact Hparts]. cbn [fst snd]. unfold assemble_part. split.
    + apply (finish_part_unscheduled_full 4); [reflexivity | exact Hcap |].
      unfold short_notes, adjust_melody. apply Forall_map.
      eapply Forall_impl; [|exact Hmel].
      intros n Hn. cbv beta in Hn. cbn [Layout.duration].
      destruct Hn as [H1 H2]. split; [|exact H2].
      eapply Qlt_le_trans; [|exact H1]. reflexivity.
    + apply finish_part_in_range.
Qed.

(** X26: one group of instruments, end to end.  With a grid the program
    offers, a corpus of at least two notes none of whose durations
    overflows the quantizer, and a meter on offer of at least four beats,
    the routine never fails, whatever the random source, the model order
    and the requested length: it returns one part for each instrument of
    the group, in order; every measure of every part was filled against
    the beats of the meter and holds exactly that many, and every note
    lies within the range of its instrument. *)
Theorem generate_group_parts (create_states : list Note -> list Note)
    (training_data : list Note) (order : nat) (quantization : Q)
    (instr_list : list string) (melody_length : Z) (time_signature : TimeSig)
    (src : Random.Source) :
  (forall l n, In n (create_states l) <-> In n l) ->
  Quantizer.offered_grid quantization ->
  Forall (fun n => Qabs (this (Markov.duration n) / quantization) < FLOAT_OVERFLOW)
         training_data ->
  (2 <= List.length training_data)%nat ->
  In time_signature available_time_sigs ->
  4 <= get_time_signature_value time_signature ->
  exists parts src',
    generate_group create_states training_data order quantization instr_list
      melody_length time_signature src = Some (parts, src') /\
    map fst parts = instr_list /\
    Forall (fun ip =>
              Forall (fun mc =>
                        snd mc == get_time_signature_value time_signature /\
                        measure_beats (fst mc)
                        == get_time_signature_value time_signature)
                     (snd ip) /\
              Forall (token_in_range (fst ip)) (part_tokens (snd ip)))
           parts.
Proof.
  intros Hstates Hoff Hfin Hlen _ Hcap. unfold generate_group.
  assert (NZ : ~ quantization == 0).
  { pose proof (offered_grid_bounds _ Hoff). lra. }
  destruct (quantize_data_ok quantization training_data NZ Hfin) as (qd & Eq & Hl & Hq).
  rewrite Eq.
  assert (Hne : create_states qd <> []).
  { destruct qd as [|n0 qd']; [cbn in Hl; lia|].
    intro E. assert (Hin : In n0 (create_states (n0 :: qd')))
      by (apply Hstates; left; reflexivity).
    rewrite E in Hin. exact Hin. }
  assert (Einit : __init__ (create_states qd) order
                  = Some (fresh_model (create_states qd) order)).
  { unfold __init__, fresh_model. destruct (create_states qd); [congruence | reflexivity]. }
  rewrite Einit.
  destruct (train_returns (create_states qd) qd order) as (model & Et).
  { destruct qd; [cbn in Hl; lia | discriminate]. }
  rewrite Et.
  destruct (train_axes (create_states qd) qd order model Et) as (_ & Sd & _ & Hready & _).
  assert (Hlen' : (2 <= List.length qd)%nat) by lia.
  specialize (Hready Hlen').
  destruct (generate_all_loop_ok model melody_length Hready instr_list [] [] src)
    as (md & sd & src' & E & Hgood & Hkeys); [discriminate|].
  unfold generate_all_sequences. rewrite E.
  destruct (parts_of_ok md time_signature instr_list Hcap) as (parts & Ep & Hfst & Hparts).
  - intros instrument Hin.
    destruct (Dict_get_Some_key instrument md) as (melody & Em).
    { apply Hkeys. left. exact Hin. }
    exists melody. split; [exact Em|].
    destruct (Hgood _ _ Em) as [_ Hall].
    eapply Forall_impl; [|exact Hall].
    intros n (_ & _ & Hd & _).
    pose proof (reachable_symbols_in _ _ _ Sd Hd) as Hin'.
    apply in_map_iff in Hin'. destruct Hin' as (n' & En' & Hn').
    rewrite <- En'. rewrite Forall_forall in Hq. exact (Hq n' Hn').
  - rewrite Ep. exists parts, src'. split; [reflexivity | split; assumption].
Qed.

Lemma two_note_corpus_finite :
  Forall (fun n => Qabs (this (Markov.duration n) / (1 # 2)) < FLOAT_OVERFLOW)
         two_note_corpus.
Proof.
  repeat constructor.
Qed.

Lemma generate_group_parts_witness :
  Quantizer.offered_grid (1 # 2) /\
  (2 <= List.length two_note_corpus)%nat /\
  In ts_4_4 available_time_sigs /\
  4 <= get_time_signature_value ts_4_4 /\
  exists parts src',
    generate_group (nodup eq_dec) two_note_corpus 1 (1 # 2) ["Flute"; "Flute #2"]%string
      8 ts_4_4 zero_source = Some (parts, src') /\
    map fst parts = ["Flute"; "Flute #2"]%string /\
    Forall (fun ip =>
              Forall (fun mc =>
                        snd mc == get_time_signature_value ts_4_4 /\
                        measure_beats (fst mc) == get_time_signature_value ts_4_4)
                     (snd ip) /\
              Forall (token_in_range (fst ip)) (part_tokens (snd ip)))
           parts.
Proof.
  split; [exact offered_grid_half|]. split; [cbn; lia|]. split; [simpl; tauto|].
  split; [discriminate|].
  apply (generate_group_parts (nodup eq_dec) two_note_corpus 1 (1 # 2)
           ["Flute"; "Flute #2"]%string 8 ts_4_4 zero_source).
  - intros l n. apply nodup_In.
  - exact offered_grid_half.
  - exact two_note_corpus_finite.
  - cbn. lia.
  - simpl. tauto.
  - discriminate.
Defined.

End GroupFacts.


(** ** Doubled instruments *)

Section SelectionFacts.
Import Range Meter Workflow.

Lemma prefix_sep_append (name tail : string) :
  name <> EmptyString ->
  String.prefix " #" (name ++ " #" ++ tail) = String.prefix " #" name.
Proof.
  intro Hne. destruct name as [|c name]; [congruence|].
  cbn [String.append String.prefix].
  destruct (ascii_dec " " c); [|reflexivity].
  destruct name as [|c' name]; cbn [String.append String.prefix].
  - destruct (ascii_dec "#" " "); [discriminate | reflexivity].
  - destruct (ascii_dec "#" c'); [destruct name; reflexivity | reflexivity].
Qed.

(** The doubling suffix never changes the base name. *)
Lemma before_sep_append (name tail : string) :
  before_sep " #" (name ++ " #" ++ tail) = before_sep " #" name.
Proof.
  induction name as [|c name IH].
  - cbn [String.append]. destruct tail; reflexivity.
  - assert (Hp := prefix_sep_append (String c name) tail).
    specialize (Hp ltac:(discriminate)).
    change (before_sep " #" (String c name ++ " #" ++ tail))
      with (if String.prefix " #" (String c name ++ " #" ++ tail) then EmptyString
            else String c (before_sep " #" (name ++ " #" ++ tail))).
    change (before_sep " #" (String c name))
      with (if String.prefix " #" (String c name) then EmptyString
            else String c (before_sep " #" name)).
    rewrite Hp, IH. reflexivity.
Qed.

Lemma instance_names_base (instr : string) (count : Z) :
  Forall (fun name => before_sep " #" name = before_sep " #" instr)
         (instance_names instr count).
Proof.
  unfold instance_names. destruct (0 <? count)%Z; [|constructor].
  destruct (count =? 1)%Z; [repeat constructor|].
  apply Forall_map. apply Forall_forall. intros i _. apply before_sep_append.
Qed.

Lemma of_base_all (b : string) (l : list string) :
  Forall (fun name => before_sep " #" name = b) l -> of_base b l = l.
Proof.
  induction 1 as [|x l Hx _ IH]; [reflexivity|].
  unfold of_base in *. cbn [filter].
  destruct (string_dec (before_sep " #" x) b); [rewrite IH; reflexivity | contradiction].
Qed.

Lemma of_base_none (b : string) (l : list string) :
  Forall (fun name => before_sep " #" name <> b) l -> of_base b l = [].
Proof.
  induction 1 as [|x l Hx _ IH]; [reflexivity|].
  unfold of_base in *. cbn [filter].
  destruct (string_dec (before_sep " #" x) b); [contradiction | exact IH].
Qed.

(** Among the names entered by the dialog, those of base name [instr] are
    the names entered for [instr]. *)
Lemma of_base_selected (count_vars : list (string * Z))
    (instr : string) (count : Z) :
  NoDup (Dict.keys count_vars) ->
  Forall (fun k => before_sep " #" k = k) (Dict.keys count_vars) ->
  In (instr, count) count_vars ->
  of_base instr (flat_map (fun e => instance_names (fst e) (snd e)) count_vars)
  = instance_names instr count.
Proof.
  unfold Dict.keys. induction count_vars as [|[k c] rest IH]; intros Hnd Hplain Hin;
    [contradiction|].
  cbn [map fst] in Hnd, Hplain.
  inversion Hnd as [|? ? Hk Hnd']; subst. inversion Hplain as [|? ? Hkp Hplain']; subst.
  cbn [flat_map fst snd]. rewrite of_base_app.
  assert (Hbase : forall k' c', In k' (k :: map fst rest) ->
            Forall (fun name => before_sep " #" name = k')
                   (instance_names k' c')).
  { intros k' c' Hk'. eapply Forall_impl; [|apply instance_names_base].
    intros name ->. rewrite Forall_forall in Hplain. apply Hplain. exact Hk'. }
  destruct Hin as [E | Hin].
  - injection E as -> ->.
    rewrite (of_base_all instr _ (Hbase instr count (or_introl eq_refl))).
    rewrite of_base_none; [apply app_nil_r|].
    apply Forall_forall. intros name Hname. apply in_flat_map in Hname.
    destruct Hname as ([k' c'] & He & Hname). cbn [fst snd] in Hname.
    assert (Hk' : In k' (map fst rest))
      by (apply in_map_iff; exists (k', c'); split; [reflexivity | exact He]).
    pose proof (Hbase k' c' (or_intror Hk')) as Hb.
    rewrite Forall_forall in Hb. rewrite (Hb name Hname).
    intros ->. exact (Hk Hk').
  - assert (Hne : k <> instr).
    { intros ->. apply Hk. apply in_map_iff. exists (instr, count).
      split; [reflexivity | exact Hin]. }
    rewrite of_base_none; [exact (IH Hnd' Hplain' Hin)|].
    eapply Forall_impl; [|exact (Hbase k c (or_introl eq_refl))].
    intros name ->. exact Hne.
Qed.

Lemma instance_names_length (instr : string) (count : Z) :
  Z.of_nat (List.length (instance_names instr count)) = Z.max 0 count.
Proof.
  unfold instance_names, range_from_1.
  destruct (Z.ltb_spec 0 count); [|cbn [List.length]; lia].
  destruct (Z.eqb_spec count 1); [cbn [List.length]; lia|].
  rewrite !length_map, length_seq. lia.
Qed.

(** X27: the names the selection dialog enters are grouped back per
    instrument.  When no instrument name of the dialog holds the doubling
    separator, grouping the confirmed selection stores, for each
    instrument chosen [count] > 0 times, exactly its [count] names in
    order (the plain name for one instance, numbered names for more), and
    stores no group for an instrument not chosen. *)
Theorem confirm_selection_groups (count_vars : list (string * Z))
    (selected_instruments : list string) :
  NoDup (Dict.keys count_vars) ->
  Forall (fun k => before_sep " #" k = k) (Dict.keys count_vars) ->
  confirm_selection count_vars = Some selected_instruments ->
  exists groups,
    group_instruments_by_type selected_instruments = Some groups /\
    forall instr count, In (instr, count) count_vars ->
      Z.of_nat (List.length (instance_names instr count)) = Z.max 0 count /\
      Dict.get instr groups
      = if (0 <? count)%Z then Some (instance_names instr count) else None.
Proof.
  intros Hnd Hplain Hsel.
  assert (Es : selected_instruments
               = flat_map (fun e => instance_names (fst e) (snd e)) count_vars).
  { unfold confirm_selection in Hsel.
    destruct (flat_map _ count_vars); [discriminate | congruence]. }
  destruct (group_instruments_by_type_ok selected_instruments)
    as (groups & E & Hinv & _).
  exists groups. split; [exact E|]. intros instr count Hin.
  split; [apply instance_names_length|].
  rewrite Hinv, Es, (of_base_selected count_vars instr count Hnd Hplain Hin).
  pose proof (instance_names_length instr count) as Hl.
  destruct (Z.ltb_spec 0 count).
  - destruct (instance_names instr count); [cbn [List.length] in Hl; lia | reflexivity].
  - destruct (instance_names instr count); [reflexivity | cbn [List.length] in Hl; lia].
Qed.

Lemma confirm_selection_groups_witness :
  exists selected groups,
    confirm_selection sample_counts = Some selected /\
    group_instruments_by_type selected = Some groups /\
    forall instr count, In (instr, count) sample_counts ->
      Z.of_nat (List.length (instance_names instr count)) = Z.max 0 count /\
      Dict.get instr groups
      = if (0 <? count)%Z then Some (instance_names instr count) else None.
Proof.
  eexists.
  destruct (confirm_selection_groups sample_counts
              ["Flute #1"; "Flute #2"; "Viola"]%string) as (groups & E & H).
  - repeat constructor; cbn; intuition discriminate.
  - repeat constructor.
  - reflexivity.
  - exists groups. split; [reflexivity|]. split; [exact E | exact H].
Defined.

End SelectionFacts.
